(** * VCS, a simple version control system: the versioning engine and its
      metadata store

    A shallow embedding of [metadata.c], [version.c], [fileops.c], [repo.c]
    and [utils.c], and the properties of the engine proved over it.

    Conventions of the embedding.
    - A C string is the list of its characters before the terminating NUL
      ([cstr]); [strncpy (dst, src, n - 1); dst[n - 1] = 0] keeps the first
      [n - 1] characters, [snprintf (buf, n, ...)] likewise.
    - [int] is 32 bits and [long], [unsigned long], [time_t], [off_t] are
      64 bits (LP64, the POSIX platforms the headers of [vcs.h] ask for);
      integers are [Z] with the wrap-around written out, also where C leaves
      the overflow of a signed addition undefined ([next_version],
      [total_versions++]).
    - The linked list [FileVersion.next] is a Rocq list, head first.
    - Pointer arguments are valid: the [if (!repo || !filename) return -1]
      (or [NULL], or [0]) guards that open the functions have no
      counterpart, [main.c] never passes a null pointer.
    - The file system, the clock and the allocator are the explicit state
      [World], threaded by a small state monad. What the program prints is
      left out, but for the rows of [list_versions].
    - The parameter [filename] of the source is [name] here, [filename] being
      the field of the record. *)

From Stdlib Require Import ZArith Ascii String List Lia Bool.
From stdpp Require Import base option list gmap strings.

Local Open Scope Z_scope.
Local Open Scope list_scope.

(** ** C strings *)

Abbreviation cstr := (list ascii).

(** String literals of the source, as character lists. *)
Notation "'c{' s '}'" := (list_ascii_of_string s) (at level 0, s at level 0, format "c{ s }").

Definition NUL : ascii := "000"%char.
Definition NL : ascii := "010"%char.
Definition BAR : ascii := "|"%char.

Definition MAX_PATH_LEN : nat := 512.
Definition MAX_FILENAME_LEN : nat := 256.
Definition MAX_COMMENT_LEN : nat := 512.
Definition MAX_HASH_LEN : nat := 64.
Definition VCS_DIR : cstr := c{".vcs"}.
Definition METADATA_FILE : cstr := c{"versions.meta"}.

(** The characters of [s] before the first occurrence of [c]; with [c = NUL]
    the C string a character buffer holds. *)
Fixpoint str_before (c : ascii) (s : list ascii) : list ascii :=
  match s with
  | [] => []
  | x :: s' => if Ascii.eqb x c then [] else x :: str_before c s'
  end.

Definition c_str (buf : list ascii) : cstr := str_before NUL buf.

(** [strncpy (dst, src, n - 1); dst[n - 1] = '\0'] with [sizeof dst = n]. *)
Definition strncpy_z (n : nat) (src : cstr) : cstr := take (n - 1) src.

(** [snprintf (buf, n, "%s", s)]: at most [n - 1] characters are kept. *)
Definition snprintf (n : nat) (s : cstr) : cstr := take (n - 1) s.

(** [strncmp (a, b, n) == 0] on NUL-free strings. *)
Definition strncmp_eq (a b : cstr) (n : nat) : bool :=
  bool_decide (take n a = take n b).

(** [strcmp (a, b) == 0]. *)
Definition strcmp_eq (a b : cstr) : bool := bool_decide (a = b).

(** [strchr (s, '\n')] followed by [*newline = '\0'] when it is found. *)
Definition chop_newline (s : cstr) : cstr := str_before NL s.

(** [strrchr (filepath, '/')], then [filename + 1] when a slash is found and
    the whole path otherwise: what follows the last slash. *)
Definition basename (filepath : cstr) : cstr :=
  if bool_decide ("/"%char ∈ filepath)
  then reverse (str_before "/" (reverse filepath))
  else filepath.

(** ** Machine integers *)

Definition INT_MIN : Z := - 2 ^ 31.
Definition INT_MAX : Z := 2 ^ 31 - 1.
Definition LONG_MIN : Z := - 2 ^ 63.
Definition LONG_MAX : Z := 2 ^ 63 - 1.

(** Conversion to [int]: two's complement wrap-around. *)
Definition to_int (z : Z) : Z := (z + 2 ^ 31) mod 2 ^ 32 - 2 ^ 31.
(** Conversion to [long]. *)
Definition to_long (z : Z) : Z := (z + 2 ^ 63) mod 2 ^ 64 - 2 ^ 63.
(** Conversion to [unsigned long]. *)
Definition to_ulong (z : Z) : Z := z mod 2 ^ 64.

Definition is_int (z : Z) : Prop := INT_MIN <= z <= INT_MAX.
Definition is_long (z : Z) : Prop := LONG_MIN <= z <= LONG_MAX.

(** ** [printf] conversions *)

Definition digit_char (d : Z) : ascii :=
  nth (Z.to_nat d) (list_ascii_of_string "0123456789abcdef") "?"%char.

(** The digits of [n] in [base], most significant first, in front of [acc];
    [fuel] bounds the number of digits. *)
Fixpoint digits_acc (base : Z) (fuel : nat) (n : Z) (acc : cstr) : cstr :=
  match fuel with
  | O => acc
  | S k =>
      let acc' := digit_char (n mod base) :: acc in
      if n / base =? 0 then acc' else digits_acc base k (n / base) acc'
  end.

(** [%d] and [%ld]: a value of at most 64 bits has at most 20 digits. *)
Definition fmt_d (n : Z) : cstr :=
  if n <? 0 then "-"%char :: digits_acc 10 20 (- n) []
  else digits_acc 10 20 n [].

(** [%08lx]: hexadecimal, zero-padded on the left to 8 characters. *)
Definition fmt_08lx (n : Z) : cstr :=
  let ds := digits_acc 16 16 n [] in
  replicate (8 - length ds) "0"%char ++ ds.

(** ** [atoi] and [atol] *)

(** [isspace] in the C locale. *)
Definition isspace (c : ascii) : bool :=
  match c with
  | "009" | "010" | "011" | "012" | "013" | " " => true
  | _ => false
  end%char.

Definition digit_val (c : ascii) : option Z :=
  let n := Z.of_nat (nat_of_ascii c) in
  if (48 <=? n) && (n <=? 57) then Some (n - 48) else None.

Fixpoint skip_space (s : cstr) : cstr :=
  match s with
  | c :: s' => if isspace c then skip_space s' else s
  | [] => []
  end.

(** The value of the longest prefix of decimal digits, on top of [acc]. *)
Fixpoint digits_val (acc : Z) (s : cstr) : Z :=
  match s with
  | c :: s' =>
      match digit_val c with
      | Some d => digits_val (acc * 10 + d) s'
      | None => acc
      end
  | [] => acc
  end.

(** [strtol (s, NULL, 10)]: white space, an optional sign, digits; a value
    out of range is clamped to [LONG_MIN] or [LONG_MAX]. *)
Definition strtol (s : cstr) : Z :=
  let s := skip_space s in
  let v :=
    match s with
    | c :: s' =>
        if Ascii.eqb c "-" then - digits_val 0 s'
        else if Ascii.eqb c "+" then digits_val 0 s'
        else digits_val 0 s
    | [] => 0
    end in
  Z.max LONG_MIN (Z.min LONG_MAX v).

Definition atol (s : cstr) : Z := strtol s.
(** [atoi] is [(int) strtol (s, NULL, 10)]. *)
Definition atoi (s : cstr) : Z := to_int (strtol s).

(** ** [strtok] *)

Fixpoint skip_delims (d : ascii) (s : cstr) : cstr :=
  match s with
  | c :: s' => if Ascii.eqb c d then skip_delims d s' else s
  | [] => []
  end.

(** What follows the first [d] of [s]. *)
Fixpoint str_after (d : ascii) (s : cstr) : cstr :=
  match s with
  | c :: s' => if Ascii.eqb c d then s' else str_after d s'
  | [] => []
  end.

(** One call of [strtok] with the single delimiter [d] on the saved position
    [s]: the token, if any, and the new saved position. *)
Definition strtok (d : ascii) (s : cstr) : option cstr * cstr :=
  match skip_delims d s with
  | [] => (None, [])
  | t => (Some (str_before d t), str_after d t)
  end.

(** ** Data model ([vcs.h]) *)

Record FileVersion := mkFileVersion {
  filename : cstr;
  hash : cstr;
  version_number : Z;
  timestamp : Z;
  comment : cstr;
  file_size : Z
}.

Record Repository := mkRepository {
  base_path : cstr;
  total_versions : Z;
  version_list : list FileVersion
}.

Definition set_filename (x : cstr) (v : FileVersion) : FileVersion :=
  mkFileVersion x (hash v) (version_number v) (timestamp v) (comment v) (file_size v).
Definition set_hash (x : cstr) (v : FileVersion) : FileVersion :=
  mkFileVersion (filename v) x (version_number v) (timestamp v) (comment v) (file_size v).
Definition set_version_number (x : Z) (v : FileVersion) : FileVersion :=
  mkFileVersion (filename v) (hash v) x (timestamp v) (comment v) (file_size v).
Definition set_timestamp (x : Z) (v : FileVersion) : FileVersion :=
  mkFileVersion (filename v) (hash v) (version_number v) x (comment v) (file_size v).
Definition set_comment (x : cstr) (v : FileVersion) : FileVersion :=
  mkFileVersion (filename v) (hash v) (version_number v) (timestamp v) x (file_size v).
Definition set_file_size (x : Z) (v : FileVersion) : FileVersion :=
  mkFileVersion (filename v) (hash v) (version_number v) (timestamp v) (comment v) x.

Definition set_total_versions (x : Z) (r : Repository) : Repository :=
  mkRepository (base_path r) x (version_list r).
Definition set_version_list (l : list FileVersion) (r : Repository) : Repository :=
  mkRepository (base_path r) (total_versions r) l.

Global Instance FileVersion_eq_dec : EqDecision FileVersion.
Proof. solve_decision. Defined.

(** ** The operating system

    What the C library and the kernel hold for the program.
    - [files]: the regular files, by path, with their content; [dirs]: the
      directories. A path names a file by its spelling: no links, no
      normalisation of [.], [..] or doubled slashes.
    - [cwd]: what [getcwd] returns; it fits the 512-byte buffers ([getcwd]
      never fails).
    - [unreadable], [unwritable], [nomkdir]: the paths on which [fopen] for
      reading, [fopen] for writing and [mkdir] fail for a reason of the
      environment (permissions, a missing parent directory, quota).
    - [capacity]: for a path, the number of bytes the file can take before a
      write falls short (device full); absent means unlimited.
    - [clock]: the successive results of [time (NULL)]; exhausted, [time]
      returns [-1].
    - [heap]: the successive results of [malloc]: [None] for [NULL],
      [Some v] for a block whose uninitialised bytes read as [v];
      exhausted, [malloc] returns [NULL]. *)
Record World := mkWorld {
  files : gmap cstr (list ascii);
  dirs : gset cstr;
  cwd : cstr;
  unreadable : gset cstr;
  unwritable : gset cstr;
  nomkdir : gset cstr;
  capacity : gmap cstr nat;
  clock : list Z;
  heap : list (option FileVersion)
}.

Definition set_files (f : gmap cstr (list ascii)) (w : World) : World :=
  mkWorld f (dirs w) (cwd w) (unreadable w) (unwritable w) (nomkdir w)
          (capacity w) (clock w) (heap w).
Definition set_dirs (d : gset cstr) (w : World) : World :=
  mkWorld (files w) d (cwd w) (unreadable w) (unwritable w) (nomkdir w)
          (capacity w) (clock w) (heap w).
Definition set_clock (c : list Z) (w : World) : World :=
  mkWorld (files w) (dirs w) (cwd w) (unreadable w) (unwritable w) (nomkdir w)
          (capacity w) c (heap w).
Definition set_heap (h : list (option FileVersion)) (w : World) : World :=
  mkWorld (files w) (dirs w) (cwd w) (unreadable w) (unwritable w) (nomkdir w)
          (capacity w) (clock w) h.

(** The state monad over [World]. *)
Definition IO (A : Type) : Type := World → A * World.

Definition ret {A} (a : A) : IO A := λ w, (a, w).
Definition bind {A B} (m : IO A) (k : A → IO B) : IO B :=
  λ w, let (a, w') := m w in k a w'.

Notation "x <- m ;; k" := (bind m (λ x, k))
  (at level 100, m at next level, right associativity, only parsing).
Notation "m ;;; k" := (bind m (λ _, k))
  (at level 100, right associativity, only parsing).

(** The bytes of the file at [p]; a directory reads as empty. *)
Definition content (p : cstr) (w : World) : list ascii :=
  default [] (files w !! p).

(** Is there a file or a directory at [p]? *)
Definition exists_at (p : cstr) (w : World) : bool :=
  bool_decide (is_Some (files w !! p)) || bool_decide (p ∈ dirs w).

(** [fopen (p, "r")] or ["rb"]: does the stream open? A directory opens for
    reading, as [open] with [O_RDONLY] does, and no byte can be read from
    it. *)
Definition fopen_r (p : cstr) : IO bool :=
  λ w, (exists_at p w && negb (bool_decide (p ∈ unreadable w)), w).

(** [fread (buffer, 1, n, stream)] at offset [off] of the file at [p]. *)
Definition fread (p : cstr) (off n : nat) : IO (list ascii) :=
  λ w, (take n (drop off (content p w)), w).

(** [fopen (p, "w")] or ["wb"]: the file is created or truncated; a
    directory does not open for writing. *)
Definition fopen_w (p : cstr) : IO bool :=
  λ w, if bool_decide (p ∈ unwritable w) || bool_decide (p ∈ dirs w)
       then (false, w)
       else (true, set_files (<[p := []]> (files w)) w).

(** The room left in the file at [p] for [n] more bytes. *)
Definition room (p : cstr) (n : nat) (w : World) : nat :=
  match capacity w !! p with
  | None => n
  | Some cap => Nat.min n (cap - length (content p w))
  end.

(** [fwrite (data, 1, length data, stream)]: the number of bytes written, all
    of them unless the file is full. *)
Definition fwrite (p : cstr) (data : list ascii) : IO nat :=
  λ w, let n := room p (length data) w in
       (n, set_files (<[p := content p w ++ take n data]> (files w)) w).

(** [fprintf (file, ...)] of the formatted text [s]; the result is unused
    throughout the source. *)
Definition fprintf (p : cstr) (s : cstr) : IO unit :=
  _ <- fwrite p s ;; ret tt.

Inductive mkdir_result := MkdirOk | MkdirExists | MkdirError.

(** [mkdir (p, 0755)]: [0] ([MkdirOk]), or [-1] with [errno == EEXIST]
    ([MkdirExists]) or with another [errno] ([MkdirError]). *)
Definition mkdir (p : cstr) : IO mkdir_result :=
  λ w, if exists_at p w then (MkdirExists, w)
       else if bool_decide (p ∈ nomkdir w) then (MkdirError, w)
       else (MkdirOk, set_dirs ({[p]} ∪ dirs w) w).

(** [stat (p, &st)]: [st.st_size], an [off_t], when the path exists; the
    size of a directory is taken to be 0. *)
Definition stat (p : cstr) : IO (option Z) :=
  λ w, (if exists_at p w
        then Some (to_long (Z.of_nat (length (content p w)))) else None, w).

Definition getcwd : IO cstr := λ w, (cwd w, w).

(** [time (NULL)]. *)
Definition time : IO Z :=
  λ w, match clock w with
       | t :: c => (t, set_clock c w)
       | [] => (-1, w)
       end.

(** [malloc]: [NULL], or a block with indeterminate content. *)
Definition malloc : IO (option FileVersion) :=
  λ w, match heap w with
       | b :: h => (b, set_heap h w)
       | [] => (None, w)
       end.

(** ** [utils.c] *)

(** [mkdir] may fail with [EEXIST]: the path is taken, and that is fine. *)
Definition create_directory (path : cstr) : IO Z :=
  made <- mkdir path ;;
  match made with
  | MkdirError => ret (-1)
  | _ => ret 0
  end.

Definition file_exists (filepath : cstr) : IO bool :=
  st <- stat filepath ;; ret (bool_decide (is_Some st)).

(** ** [metadata.c] *)

(** [snprintf (metadata_path, sizeof (metadata_path), "%s/%s/%s", ...)]. *)
Definition metadata_path (repo : Repository) : cstr :=
  snprintf MAX_PATH_LEN
    (base_path repo ++ c{"/"} ++ VCS_DIR ++ c{"/"} ++ METADATA_FILE).

(** The text of the [fprintf] of one record, lines 33-39. *)
Definition version_line (v : FileVersion) : cstr :=
  c{"FILE="} ++ filename v ++
  c{"|VERSION="} ++ fmt_d (version_number v) ++
  c{"|TIMESTAMP="} ++ fmt_d (timestamp v) ++
  c{"|SIZE="} ++ fmt_d (file_size v) ++
  c{"|HASH="} ++ hash v ++
  c{"|COMMENT="} ++ comment v ++ [NL].

(** The [while (current)] loop of [save_metadata]. *)
Fixpoint write_versions (file : cstr) (current : list FileVersion) : IO unit :=
  match current with
  | [] => ret tt
  | v :: next => fprintf file (version_line v) ;;; write_versions file next
  end.

Definition metadata_header (repo : Repository) : cstr :=
  c{"# VCS Metadata File"} ++ [NL] ++
  c{"TOTAL_VERSIONS="} ++ fmt_d (total_versions repo) ++ [NL] ++
  [NL] ++ c{"# File Versions"} ++ [NL].

Definition save_metadata (repo : Repository) : IO Z :=
  let file := metadata_path repo in
  ok <- fopen_w file ;;
  if negb ok then ret (-1)
  else
    fprintf file (c{"# VCS Metadata File"} ++ [NL]) ;;;
    fprintf file (c{"TOTAL_VERSIONS="} ++ fmt_d (total_versions repo) ++ [NL]) ;;;
    fprintf file ([NL] ++ c{"# File Versions"} ++ [NL]) ;;;
    write_versions file (version_list repo) ;;;
    ret 0.

(** [fgets (line, size, file)] on what is left of the stream: at most
    [size - 1] characters, up to and with the first newline. *)
Fixpoint fgets_chars (n : nat) (s : list ascii) : list ascii * list ascii :=
  match n, s with
  | S k, c :: s' =>
      if Ascii.eqb c NL then ([c], s')
      else let (l, r) := fgets_chars k s' in (c :: l, r)
  | _, _ => ([], s)
  end.

Definition fgets (size : nat) (s : list ascii) : option (list ascii * list ascii) :=
  match s with
  | [] => None
  | _ => Some (fgets_chars (size - 1) s)
  end.

(** The field assignments of one [FILE=] line, lines 88-129, on the block
    [version] that [malloc] returned: a field whose token is missing or does
    not carry its key keeps what the block held. *)
Definition parse_version (line : cstr) (version : FileVersion) : FileVersion :=
  let (token, saved) := strtok BAR (drop 5 line) in
  let version :=
    match token with
    | Some t => set_filename (strncpy_z MAX_FILENAME_LEN t) version
    | None => version
    end in
  let (token, saved) := strtok BAR saved in
  let version :=
    match token with
    | Some t =>
        if strncmp_eq t c{"VERSION="} 8
        then set_version_number (atoi (drop 8 t)) version else version
    | None => version
    end in
  let (token, saved) := strtok BAR saved in
  let version :=
    match token with
    | Some t =>
        if strncmp_eq t c{"TIMESTAMP="} 10
        then set_timestamp (atol (drop 10 t)) version else version
    | None => version
    end in
  let (token, saved) := strtok BAR saved in
  let version :=
    match token with
    | Some t =>
        if strncmp_eq t c{"SIZE="} 5
        then set_file_size (atol (drop 5 t)) version else version
    | None => version
    end in
  let (token, saved) := strtok BAR saved in
  let version :=
    match token with
    | Some t =>
        if strncmp_eq t c{"HASH="} 5
        then set_hash (strncpy_z MAX_HASH_LEN (drop 5 t)) version else version
    | None => version
    end in
  let (token, saved) := strtok BAR saved in
  match token with
  | Some t =>
      if strncmp_eq t c{"COMMENT="} 8
      then set_comment (chop_newline (strncpy_z MAX_COMMENT_LEN (drop 8 t))) version
      else version
  | None => version
  end.

(** The body of the [while (fgets ...)] loop on one line. *)
Definition load_line (line : cstr) (repo : Repository) : IO Repository :=
  if bool_decide (head line = Some "#"%char) || bool_decide (head line = Some NL)
  then ret repo
  else if strncmp_eq line c{"TOTAL_VERSIONS="} 15
  then ret (set_total_versions (atoi (drop 15 line)) repo)
  else if strncmp_eq line c{"FILE="} 5
  then
    version <- malloc ;;
    match version with
    | None => ret repo
    | Some version =>
        ret (set_version_list (parse_version line version :: version_list repo) repo)
    end
  else ret repo.

(** The [while (fgets (line, sizeof (line), file))] loop on the rest [stream]
    of the file. Every [fgets] that succeeds takes at least one character, so
    [length stream] rounds are enough ([load_loop_fuel]). *)
Fixpoint load_loop (fuel : nat) (stream : list ascii) (repo : Repository)
  : IO Repository :=
  match fgets 1024 stream with
  | None => ret repo
  | Some (line, stream') =>
      match fuel with
      | O => ret repo
      | S k =>
          repo' <- load_line (c_str line) repo ;;
          load_loop k stream' repo'
      end
  end.

(** The metadata file is read from the beginning to the end while nothing
    writes to it: the stream is its content at [fopen]. *)
Definition load_metadata (repo : Repository) : IO (Z * Repository) :=
  let file := metadata_path repo in
  ok <- fopen_r file ;;
  if negb ok then ret (0, repo)
  else
    λ w, let stream := content file w in
         (repo' <- load_loop (length stream) stream repo ;; ret (0, repo')) w.

(** The [while (current)] loop of [find_file_version]. *)
Fixpoint find_from (current : list FileVersion) (name : cstr) (version : Z)
  : option FileVersion :=
  match current with
  | [] => None
  | v :: next =>
      if strcmp_eq (filename v) name && (version_number v =? version)
      then Some v
      else find_from next name version
  end.

Definition find_file_version (repo : Repository) (name : cstr) (version : Z)
  : option FileVersion :=
  find_from (version_list repo) name version.

(** The [while (current)] loop of [get_latest_version], from [latest]. *)
Fixpoint latest_from (latest : Z) (current : list FileVersion) (name : cstr) : Z :=
  match current with
  | [] => latest
  | v :: next =>
      latest_from
        (if strcmp_eq (filename v) name && (latest <? version_number v)
         then version_number v else latest)
        next name
  end.

Definition get_latest_version (repo : Repository) (name : cstr) : Z :=
  latest_from 0 (version_list repo) name.

(** ** [fileops.c] *)

(** [hash = ((hash << 5) + hash) + c] on [unsigned long]. *)
Definition djb2_step (hash c : Z) : Z :=
  to_ulong ((Z.shiftl hash 5 + hash) + c).

(** The [while ((c = fgetc (file)) != EOF)] loop over the bytes of the file. *)
Definition djb2 (bytes : list ascii) : Z :=
  fold_left (λ hash c, djb2_step hash (Z.of_nat (nat_of_ascii c))) bytes 5381.

(** [None] is the [NULL] result. [time (NULL)] is evaluated only once the
    block for the string is there. *)
Definition generate_file_hash (filepath : cstr) : IO (option cstr) :=
  ok <- fopen_r filepath ;;
  if negb ok then ret None
  else
    bytes <- (λ w, (content filepath w, w)) ;;
    let hash := djb2 bytes in
    st <- stat filepath ;;
    let hash :=
      match st with
      | Some st_size => djb2_step hash st_size
      | None => hash
      end in
    hash_str <- malloc ;;
    match hash_str with
    | None => ret None
    | Some _ =>
        now <- time ;;
        ret (Some (snprintf MAX_HASH_LEN
                     (fmt_08lx hash ++ fmt_d (Z.rem (to_long now) 10000))))
    end.

(** The [while ((bytes = fread (...)) > 0)] loop of [copy_file], with the
    source read at offset [off]. *)
Fixpoint copy_loop (fuel : nat) (src dst : cstr) (off : nat) : IO Z :=
  bytes <- fread src off 4096 ;;
  match bytes with
  | [] => ret 0
  | _ =>
      written <- fwrite dst bytes ;;
      if negb (written =? length bytes)%nat then ret (-1)
      else
        match fuel with
        | O => ret (-1)
        | S k => copy_loop k src dst (off + length bytes)
        end
  end.

(** Every round but the last takes at least one byte of the source, so its
    length at [fopen] is fuel enough ([copy_loop_fuel], [copy_file_spec]). *)
Definition copy_file (source dest : cstr) : IO Z :=
  src <- fopen_r source ;;
  if negb src then ret (-1)
  else
    dst <- fopen_w dest ;;
    if negb dst then ret (-1)
    else
      λ w, copy_loop (length (content source w)) source dest 0 w.

(** [snprintf (version_dir, ...)], the directory of the snapshots of a file. *)
Definition version_dir (current_dir filepath : cstr) : cstr :=
  snprintf MAX_PATH_LEN
    (current_dir ++ c{"/"} ++ VCS_DIR ++ c{"/versions/"} ++ basename filepath).

(** [snprintf (version_file, ...)], the path of one snapshot. *)
Definition version_file (current_dir filepath : cstr) (version : Z) : cstr :=
  snprintf MAX_PATH_LEN
    (version_dir current_dir filepath ++ c{"/v"} ++ fmt_d version).

Definition create_version_file (filepath : cstr) (version : Z) : IO Z :=
  current_dir <- getcwd ;;
  made <- mkdir (version_dir current_dir filepath) ;;
  match made with
  | MkdirError => ret (-1)
  | _ => copy_file filepath (version_file current_dir filepath version)
  end.

(** The path [restore_version_file] reads: the snapshot of [(name, version)]. *)
Definition snapshot_path (current_dir name : cstr) (version : Z) : cstr :=
  snprintf MAX_PATH_LEN
    (current_dir ++ c{"/"} ++ VCS_DIR ++ c{"/versions/"} ++ name ++
     c{"/v"} ++ fmt_d version).

Definition restore_version_file (name : cstr) (version : Z) : IO Z :=
  current_dir <- getcwd ;;
  let snapshot := snapshot_path current_dir name version in
  found <- file_exists snapshot ;;
  if negb found then ret (-1)
  else copy_file snapshot name.

(** ** [version.c] *)

(** The result and the repository after the call. *)
Definition checkin_file (repo : Repository) (name comment : cstr)
  : IO (Z * Repository) :=
  let next_version := to_int (get_latest_version repo name + 1) in
  created <- create_version_file name next_version ;;
  if negb (created =? 0) then ret (-1, repo)
  else
    new_version <- malloc ;;
    match new_version with
    | None => ret (-1, repo)
    | Some new_version =>
        let new_version := set_filename (strncpy_z MAX_FILENAME_LEN name) new_version in
        hash <- generate_file_hash name ;;
        let new_version :=
          match hash with
          | Some h => set_hash (strncpy_z MAX_HASH_LEN h) new_version
          | None => set_hash c{"unknown"} new_version
          end in
        let new_version := set_version_number next_version new_version in
        now <- time ;;
        let new_version := set_timestamp (to_long now) new_version in
        let new_version :=
          set_comment (strncpy_z MAX_COMMENT_LEN comment) new_version in
        st <- stat name ;;
        let new_version :=
          match st with
          | Some st_size => set_file_size st_size new_version
          | None => set_file_size 0 new_version
          end in
        let repo :=
          mkRepository (base_path repo) (to_int (total_versions repo + 1))
                       (new_version :: version_list repo) in
        save_metadata repo ;;;
        ret (next_version, repo)
    end.

Definition checkout_file (repo : Repository) (name : cstr) (version : Z)
  : IO (Z * Repository) :=
  match find_file_version repo name version with
  | None => ret (-1, repo)
  | Some _ =>
      r <- restore_version_file name version ;;
      ret (r, repo)
  end.

(** One printed row of [list_versions]. The timestamp is kept as the number
    [strftime] formats: its text depends on the time zone of the process. *)
Record Row := mkRow {
  row_version : Z;
  row_timestamp : Z;
  row_size : Z;
  row_hash : cstr;
  row_comment : cstr
}.

(** The rows [list_versions] prints, top to bottom; [%-12.12s] prints at most
    12 characters of the hash. *)
Fixpoint list_rows (current : list FileVersion) (name : cstr) : list Row :=
  match current with
  | [] => []
  | v :: next =>
      if strcmp_eq (filename v) name
      then mkRow (version_number v) (timestamp v) (file_size v)
                 (take 12 (hash v)) (comment v) :: list_rows next name
      else list_rows next name
  end.

(** The result of [list_versions] and the rows on standard output. *)
Definition list_versions (repo : Repository) (name : cstr) : Z * list Row :=
  let rows := list_rows (version_list repo) name in
  match rows with
  | [] => (-1, rows)
  | _ => (0, rows)
  end.

Definition rollback_comment (version : Z) : cstr :=
  snprintf MAX_COMMENT_LEN (c{"Rollback to version "} ++ fmt_d version).

Definition rollback_to_version (repo : Repository) (name : cstr) (version : Z)
  : IO (Z * Repository) :=
  match find_file_version repo name version with
  | None => ret (-1, repo)
  | Some _ =>
      restored <- restore_version_file name version ;;
      if negb (restored =? 0) then ret (-1, repo)
      else
        r <- checkin_file repo name (rollback_comment version) ;;
        let (new_version, repo') := r in
        ret (if 0 <? new_version then 0 else -1, repo')
  end.

(** ** [repo.c] *)

(** The three directories and the metadata file of [init_repository]. *)
Definition vcs_path (path : cstr) : cstr :=
  snprintf MAX_PATH_LEN (path ++ c{"/"} ++ VCS_DIR).
Definition versions_path (path : cstr) : cstr :=
  snprintf MAX_PATH_LEN (vcs_path path ++ c{"/versions"}).
Definition temp_path (path : cstr) : cstr :=
  snprintf MAX_PATH_LEN (vcs_path path ++ c{"/temp"}).
Definition initial_metadata_path (path : cstr) : cstr :=
  snprintf MAX_PATH_LEN (vcs_path path ++ c{"/"} ++ METADATA_FILE).

Definition init_repository (path : cstr) : IO Z :=
  made <- mkdir (vcs_path path) ;;
  match made with
  | MkdirOk =>
      made <- mkdir (versions_path path) ;;
      match made with
      | MkdirOk =>
          made <- mkdir (temp_path path) ;;
          match made with
          | MkdirOk =>
              let metadata_file := initial_metadata_path path in
              ok <- fopen_w metadata_file ;;
              if ok then
                fprintf metadata_file (c{"# VCS Metadata File"} ++ [NL]) ;;;
                fprintf metadata_file (c{"TOTAL_VERSIONS=0"} ++ [NL]) ;;;
                ret 0
              else ret 0
          | _ => ret (-1)
          end
      | _ => ret (-1)
      end
  | _ => ret (-1)
  end.

(** [None] is the [NULL] result. *)
Definition load_repository (path : cstr) : IO (option Repository) :=
  block <- malloc ;;
  match block with
  | None => ret None
  | Some _ =>
      let repo := mkRepository (strncpy_z MAX_PATH_LEN path) 0 [] in
      r <- load_metadata repo ;;
      let (status, repo') := r in
      if negb (status =? 0) then ret None else ret (Some repo')
  end.

(** [stat (vcs_path, &st) == 0 && S_ISDIR (st.st_mode)]. *)
Definition repository_exists (path : cstr) : IO bool :=
  λ w, (exists_at (vcs_path path) w && bool_decide (vcs_path path ∈ dirs w), w).

(** ** [main.c]

    The exit code of [main] on the arguments [argv], the program name first.
    What it prints is left out. *)
Definition main (argv : list cstr) : IO Z :=
  match argv with
  | _ :: command :: args =>
      current_dir <- getcwd ;;
      if strcmp_eq command c{"init"} then
        found <- repository_exists current_dir ;;
        if found then ret 1
        else
          r <- init_repository current_dir ;;
          if r =? 0 then ret 0 else ret 1
      else
        found <- repository_exists current_dir ;;
        if negb found then ret 1
        else
          repo <- load_repository current_dir ;;
          match repo with
          | None => ret 1
          | Some repo =>
              if strcmp_eq command c{"checkin"} then
                match args with
                | [] => ret 1
                | name :: rest =>
                    let cmt :=
                      match rest with
                      | cmt :: _ => cmt
                      | [] => c{"No comment provided"}
                      end in
                    found <- file_exists name ;;
                    if negb found then ret 1
                    else checkin_file repo name cmt ;;; ret 0
                end
              else if strcmp_eq command c{"checkout"} then
                match args with
                | [] => ret 1
                | name :: rest =>
                    let version :=
                      match rest with
                      | v :: _ => atoi v
                      | [] => get_latest_version repo name
                      end in
                    checkout_file repo name version ;;; ret 0
                end
              else if strcmp_eq command c{"list"} then
                match args with
                | [] => ret 1
                | name :: _ => ret 0
                end
              else if strcmp_eq command c{"rollback"} then
                match args with
                | name :: v :: _ =>
                    rollback_to_version repo name (atoi v) ;;; ret 0
                | _ => ret 1
                end
              else ret 1
          end
  | _ => ret 1
  end.

(** ** Specification vocabulary *)

(** The whole text [save_metadata] writes for [repo]. *)
Definition metadata_text (repo : Repository) : cstr :=
  metadata_header repo ++ concat (map version_line (version_list repo)).

(** A character that ends or splits nothing in the metadata format. *)
Definition plain (s : cstr) : Prop := (NUL ∉ s) ∧ (NL ∉ s).

(** A record that one [FILE=] line holds: every field fits the array
    [vcs.h] gives it, the numbers fit their C types, the name is not empty,
    no field has a newline, and neither the name nor the hash has a [|]. *)
Definition storable (v : FileVersion) : Prop :=
  filename v ≠ [] ∧
  (length (filename v) < MAX_FILENAME_LEN)%nat ∧
  plain (filename v) ∧ (BAR ∉ filename v) ∧
  (length (hash v) < MAX_HASH_LEN)%nat ∧
  plain (hash v) ∧ (BAR ∉ hash v) ∧
  (length (comment v) < MAX_COMMENT_LEN)%nat ∧
  plain (comment v) ∧
  is_int (version_number v) ∧ is_long (timestamp v) ∧ is_long (file_size v).

Global Instance is_int_dec z : Decision (is_int z).
Proof. unfold is_int. apply _. Defined.
Global Instance is_long_dec z : Decision (is_long z).
Proof. unfold is_long. apply _. Defined.
Global Instance plain_dec s : Decision (plain s).
Proof. unfold plain. apply _. Defined.
Global Instance storable_dec v : Decision (storable v).
Proof. unfold storable. apply _. Defined.

(** What a load makes of a stored record: its comment stops at the first
    [|], the end of the [strtok] token. *)
Definition loaded (v : FileVersion) : FileVersion :=
  set_comment (str_before BAR (comment v)) v.

(** The line of a record without its newline. *)
Definition line_body (v : FileVersion) : cstr :=
  c{"FILE="} ++ filename v ++
  c{"|VERSION="} ++ fmt_d (version_number v) ++
  c{"|TIMESTAMP="} ++ fmt_d (timestamp v) ++
  c{"|SIZE="} ++ fmt_d (file_size v) ++
  c{"|HASH="} ++ hash v ++
  c{"|COMMENT="} ++ comment v.

(** [w'] is [w] with other file contents, the same outside of [ps]. *)
Definition files_changed (ps : list cstr) (w w' : World) : Prop :=
  w' = set_files (files w') w ∧ ∀ p, p ∉ ps → files w' !! p = files w !! p.

(** The environment of the program is the same in [w] and [w']: the working
    directory and what the system refuses or limits. *)
Definition same_env (w w' : World) : Prop :=
  cwd w' = cwd w ∧ unreadable w' = unreadable w ∧ unwritable w' = unwritable w ∧
  nomkdir w' = nomkdir w ∧ capacity w' = capacity w.

(** From [w] to [w'] only the clock and the allocator have moved. *)
Definition ticks (w w' : World) : Prop :=
  w' = set_clock (clock w') (set_heap (heap w') w).

(** A hash that one [FILE=] line holds. *)
Definition good_hash (h : cstr) : Prop :=
  (length h < MAX_HASH_LEN)%nat ∧ plain h ∧ (BAR ∉ h).

(** What [time (NULL)] returns in [w]. *)
Definition current_time (w : World) : Z :=
  match clock w with
  | t :: _ => t
  | [] => -1
  end.

(** The accumulator [generate_file_hash] reaches on the file at [p]. *)
Definition file_hash (p : cstr) (w : World) : Z :=
  let hash := djb2 (content p w) in
  match fst (stat p w) with
  | Some st_size => djb2_step hash st_size
  | None => hash
  end.

(** The string [generate_file_hash] formats from the accumulator [hash] at
    the time [now]. *)
Definition hash_text (hash now : Z) : cstr :=
  snprintf MAX_HASH_LEN (fmt_08lx hash ++ fmt_d (Z.rem (to_long now) 10000)).

(** ** Example worlds *)

(** A block of the allocator that reads as zeros. *)
Definition zero_block : FileVersion := mkFileVersion [] [] 0 0 [] 0.

(** A block of the allocator that was used before. *)
Definition stale_block : FileVersion :=
  mkFileVersion c{"old.txt"} c{"deadbeef"} 9 42 c{"stale"} 7.

(** The working directory [/w] with an initialised control directory, the
    working file [a.txt], and the clock readings [clk]. *)
Definition example_world (clk : list Z) : World :=
  mkWorld {[ c{"a.txt"} := c{"hello"} ]}
          {[ c{"/w"}; c{"/w/.vcs"}; c{"/w/.vcs/versions"}; c{"/w/.vcs/temp"} ]}
          c{"/w"} ∅ ∅ ∅ ∅ clk (replicate 16 (Some zero_block)).

(** The same with a metadata file that does not open for writing. *)
Definition readonly_world (clk : list Z) : World :=
  mkWorld {[ c{"a.txt"} := c{"hello"} ]}
          {[ c{"/w"}; c{"/w/.vcs"}; c{"/w/.vcs/versions"}; c{"/w/.vcs/temp"} ]}
          c{"/w"} ∅ {[ c{"/w/.vcs/versions.meta"} ]} ∅ ∅ clk
          (replicate 8 (Some zero_block)).

(** An empty directory [/w] in which [versions.meta] cannot be created. *)
Definition bare_world : World :=
  mkWorld ∅ {[ c{"/w"} ]} c{"/w"} ∅ {[ c{"/w/.vcs/versions.meta"} ]} ∅ ∅ []
          (replicate 8 (Some zero_block)).

(** The repository [load_repository] gives in [/w] before any check-in. *)
Definition empty_repository : Repository := mkRepository c{"/w"} 0 [].

(** A world whose metadata file is the text [meta] and whose allocator hands
    out used blocks. *)
Definition stale_world (meta : cstr) : World :=
  mkWorld {[ c{"/w/.vcs/versions.meta"} := meta ]}
          {[ c{"/w"}; c{"/w/.vcs"}; c{"/w/.vcs/versions"}; c{"/w/.vcs/temp"} ]}
          c{"/w"} ∅ ∅ ∅ ∅ [] (replicate 8 (Some stale_block)).

(** The same with an allocator that hands out blocks of zeros. *)
Definition example_world_with_metadata (meta : cstr) : World :=
  mkWorld {[ c{"/w/.vcs/versions.meta"} := meta ]}
          {[ c{"/w"}; c{"/w/.vcs"}; c{"/w/.vcs/versions"}; c{"/w/.vcs/temp"} ]}
          c{"/w"} ∅ ∅ ∅ ∅ [] (replicate 8 (Some zero_block)).

(** A history of two versions of [a.txt], the second in front. *)
Definition example_history : Repository :=
  mkRepository c{"/w"} 2
    [ mkFileVersion c{"a.txt"} c{"65301d843be200"} 2 200 c{"second"} 5;
      mkFileVersion c{"a.txt"} c{"65301d843be100"} 1 100 c{"first"} 5 ].

(** The repository a process finds after [save_metadata repo] in [w]:
    [load_metadata] into a fresh repository at the same base path, with the
    allocator handing out the blocks [blocks]. *)
Definition reload (repo : Repository) (blocks : list (option FileVersion))
    (w : World) : Z * Repository :=
  let w1 := snd (save_metadata repo w) in
  fst (load_metadata (mkRepository (base_path repo) 0 []) (set_heap blocks w1)).

(** The row [list_versions] prints for a record. *)
Definition row_of (v : FileVersion) : Row :=
  mkRow (version_number v) (timestamp v) (file_size v) (take 12 (hash v))
        (comment v).

(** Successive check-ins in one process: the names and comments of [script]
    in turn, each on the repository and the world the one before left; the
    result of each call with its name. *)
Fixpoint run_checkins (repo : Repository) (script : list (cstr * cstr))
    (w : World) : list (cstr * Z) * Repository * World :=
  match script with
  | [] => ([], repo, w)
  | (name, cmt) :: script' =>
      let '(v, repo', w') := checkin_file repo name cmt w in
      let '(results, repo'', w'') := run_checkins repo' script' w' in
      ((name, v) :: results, repo'', w'')
  end.

(** The version numbers the check-ins of [name] were given, in the order of
    the calls; a check-in succeeds when its result is positive, as [main.c]
    has it. *)
Definition assigned (name : cstr) (results : list (cstr * Z)) : list Z :=
  snd <$> filter (λ r, r.1 = name ∧ 0 < r.2) results.

(** Version numbers that an [int] holds. *)
Definition int_versions (vs : list FileVersion) : Prop :=
  Forall (λ v, is_int (version_number v)) vs.

(** The working directory [/w] with the working file [a|b]. *)
Definition bar_world (clk : list Z) : World :=
  mkWorld {[ c{"a|b"} := c{"hello"} ]}
          {[ c{"/w"}; c{"/w/.vcs"}; c{"/w/.vcs/versions"}; c{"/w/.vcs/temp"} ]}
          c{"/w"} ∅ ∅ ∅ ∅ clk (replicate 8 (Some zero_block)).

(** A name of 256 characters, one more than a record holds. *)
Definition long_name : cstr := replicate 256 "a"%char.

(** The working directory [/w] with a working file of that name. *)
Definition long_name_world (clk : list Z) : World :=
  mkWorld {[ long_name := c{"hello"} ]}
          {[ c{"/w"}; c{"/w/.vcs"}; c{"/w/.vcs/versions"}; c{"/w/.vcs/temp"} ]}
          c{"/w"} ∅ ∅ ∅ ∅ clk (replicate 8 (Some zero_block)).

(** A record that [struct FileVersion] holds: the strings fit their arrays
    and the numbers their C types. *)
Definition representable (v : FileVersion) : Prop :=
  (length (filename v) < MAX_FILENAME_LEN)%nat ∧
  (length (hash v) < MAX_HASH_LEN)%nat ∧
  (length (comment v) < MAX_COMMENT_LEN)%nat ∧
  is_int (version_number v) ∧ is_long (timestamp v) ∧ is_long (file_size v).

Global Instance representable_dec v : Decision (representable v).
Proof. unfold representable. apply _. Defined.

(** A decimal digit. *)
Definition is_digit (c : ascii) : Prop := is_Some (digit_val c).

(** The characters [%d] prints. *)
Definition is_num_char (c : ascii) : Prop := c = "-"%char ∨ is_digit c.

(** A character that ends no string, no line and no token. *)
Definition safe_char (c : ascii) : Prop := c ≠ NUL ∧ c ≠ NL ∧ c ≠ BAR.

(** The history after the two check-ins of the scenario of the
    specification: [a.txt] is checked in, rewritten, and checked in again. *)
Definition scenario : Z * Repository * World :=
  let r1 := checkin_file empty_repository c{"a.txt"} c{"first"}
              (example_world [100; 100; 200; 200; 300; 300]) in
  let w1 := set_files (<[ c{"a.txt"} := c{"world"} ]> (files (snd r1))) (snd r1) in
  checkin_file (snd (fst r1)) c{"a.txt"} c{"second"} w1.

(** ** More vocabulary and worlds *)

(** The key of a record: the name and the version number. *)
Definition version_key (v : FileVersion) : cstr * Z := (filename v, version_number v).

(** No two records of the history have the same key. *)
Definition unique_versions (vs : list FileVersion) : Prop :=
  NoDup (version_key <$> vs).

(** [total_versions] is the number of records of the list. *)
Definition counted (repo : Repository) : Prop :=
  total_versions repo = Z.of_nat (length (version_list repo)).

(** Whether [copy_file] gets its two streams: the source opens for reading
    and the destination for writing. *)
Definition copy_opens (source dest : cstr) (w : World) : bool :=
  exists_at source w && bool_decide (source ∉ unreadable w) &&
  bool_decide (dest ∉ unwritable w) && bool_decide (dest ∉ dirs w).

(** The djb2 accumulator over the integers, as the comment of the source
    has it: [hash = (hash * 33) + c], from 5381. *)
Definition djb2_poly (bytes : list ascii) : Z :=
  fold_left (λ hash c, hash * 33 + Z.of_nat (nat_of_ascii c)) bytes 5381.

(** The text of a repository that was just initialised. *)
Definition initial_text : cstr :=
  c{"# VCS Metadata File"} ++ [NL] ++ c{"TOTAL_VERSIONS=0"} ++ [NL].

(** Whether [main] gets to its commands: the control directory is there and
    the repository loads. *)
Definition ready (w : World) : bool :=
  fst (repository_exists (cwd w) w) &&
  bool_decide (is_Some (fst (load_repository (cwd w) w))).

(** The test of lines 75 to 83 of [metadata.c] for a line that is neither a
    count nor a record. *)
Definition ignored_line (line : cstr) : bool :=
  bool_decide (head line = Some "#"%char) || bool_decide (head line = Some NL) ||
  (negb (strncmp_eq line c{"TOTAL_VERSIONS="} 15) &&
   negb (strncmp_eq line c{"FILE="} 5)).

(** A text that is made of whole lines. *)
Definition whole_lines (s : list ascii) : Prop := s = [] ∨ last s = Some NL.

(** A name that one [FILE=] line holds. *)
Definition storable_name (name : cstr) : Prop :=
  name ≠ [] ∧ (length name < MAX_FILENAME_LEN)%nat ∧ plain name ∧ (BAR ∉ name).

(** The metadata file of [repo] can be written in full and read in [w]. *)
Definition metadata_usable (repo : Repository) (w : World) : Prop :=
  (metadata_path repo ∉ unwritable w) ∧ (metadata_path repo ∉ dirs w) ∧
  capacity w !! metadata_path repo = None ∧
  (metadata_path repo ∉ unreadable w).

Global Instance storable_name_dec name : Decision (storable_name name).
Proof. unfold storable_name. apply _. Defined.

Global Instance metadata_usable_dec repo w : Decision (metadata_usable repo w).
Proof. unfold metadata_usable. apply _. Defined.

Global Instance whole_lines_dec s : Decision (whole_lines s).
Proof. unfold whole_lines. apply _. Defined.

Global Instance unique_versions_dec vs : Decision (unique_versions vs).
Proof. unfold unique_versions. apply _. Defined.

Global Instance counted_dec repo : Decision (counted repo).
Proof. unfold counted. apply _. Defined.

(** An empty working directory [/w] in which nothing is refused. *)
Definition fresh_world : World :=
  mkWorld ∅ {[ c{"/w"} ]} c{"/w"} ∅ ∅ ∅ ∅ [] (replicate 8 (Some zero_block)).

(** The working directory [/w] with a control directory, the metadata file
    [meta] and the allocator results [blocks]. *)
Definition heap_world (meta : cstr) (blocks : list (option FileVersion)) : World :=
  mkWorld {[ c{"/w/.vcs/versions.meta"} := meta ]}
          {[ c{"/w"}; c{"/w/.vcs"}; c{"/w/.vcs/versions"}; c{"/w/.vcs/temp"} ]}
          c{"/w"} ∅ ∅ ∅ ∅ [] blocks.

(** The file system above keeps a file under the spelling of its path. The
    statements that bring two paths together say which file a path names:
    its components from the root. *)

(** The components of a path, the text between its slashes. *)
Fixpoint components_acc (cur : cstr) (s : cstr) : list cstr :=
  match s with
  | [] => [reverse cur]
  | c :: s' =>
      if Ascii.eqb c "/" then reverse cur :: components_acc [] s'
      else components_acc (c :: cur) s'
  end.

Definition components (s : cstr) : list cstr := components_acc [] s.

(** The components that are left once empty ones and [.] are dropped and
    [..] has taken the one before it; [stack] holds the components kept so
    far, the last one first. *)
Fixpoint normalise (stack comps : list cstr) : list cstr :=
  match comps with
  | [] => reverse stack
  | c :: cs =>
      if bool_decide (c = [] ∨ c = c{"."}) then normalise stack cs
      else if bool_decide (c = c{".."}) then normalise (tail stack) cs
      else normalise (c :: stack) cs
  end.

(** The file a path names from the directory [current_dir], as the
    components from the root: a path that starts with a slash is taken as it
    is, another one from [current_dir]. There are no links. *)
Definition resolve (current_dir p : cstr) : list cstr :=
  normalise []
    (components (if bool_decide (head p = Some "/"%char) then p
                 else current_dir ++ c{"/"} ++ p)).

(** Two spellings of the path of one file. *)
Definition same_file (w : World) (p q : cstr) : Prop :=
  resolve (cwd w) p = resolve (cwd w) q.

Global Instance same_file_dec w p q : Decision (same_file w p q).
Proof. unfold same_file. apply _. Defined.

(** The paths at which [w] has a file or a directory. *)
Definition existing (w : World) : list cstr :=
  (map_to_list (files w)).*1 ++ elements (dirs w).

(** Nothing of [w] is the file that [p] names, under any spelling. *)
Definition missing (w : World) (p : cstr) : Prop :=
  Forall (λ q, ¬ same_file w q p) (existing w).

Global Instance missing_dec w p : Decision (missing w p).
Proof. unfold missing. apply _. Defined.






(** * Properties *)

(** A decidable proposition about closed terms, by evaluation. *)
Ltac decide_by_compute :=
  apply (bool_decide_unpack _); vm_compute; exact I.

(** ** Characters and strings *)

Lemma str_before_app d a b : d ∉ a → str_before d (a ++ d :: b) = a.
Proof.
  induction a as [|x a IH]; simpl; intros Hd.
  - by rewrite Ascii.eqb_refl.
  - apply not_elem_of_cons in Hd as [Hx Ha].
    destruct (Ascii.eqb_spec x d); [congruence|]. by rewrite IH.
Qed.

Lemma str_before_none d a : d ∉ a → str_before d a = a.
Proof.
  induction a as [|x a IH]; simpl; intros Hd; [done|].
  apply not_elem_of_cons in Hd as [Hx Ha].
  destruct (Ascii.eqb_spec x d); [congruence|]. by rewrite IH.
Qed.

Lemma str_before_app_l d a b : d ∈ a → str_before d (a ++ b) = str_before d a.
Proof.
  induction a as [|x a IH]; simpl; intros Hd; [by apply elem_of_nil in Hd|].
  destruct (Ascii.eqb_spec x d); [done|].
  apply elem_of_cons in Hd as [->|Hd]; [done|]. by rewrite IH.
Qed.

Lemma str_before_length d a : (length (str_before d a) ≤ length a)%nat.
Proof.
  induction a as [|x a IH]; simpl; [lia|].
  destruct (Ascii.eqb x d); simpl; lia.
Qed.

Lemma str_before_subseteq d a : str_before d a ⊆ a.
Proof.
  induction a as [|x a IH]; simpl; [done|].
  destruct (Ascii.eqb x d); [apply list_subseteq_nil|].
  intros y [->|Hy]%elem_of_cons; [left|right; by apply IH].
Qed.

Lemma str_after_app d a b : d ∉ a → str_after d (a ++ d :: b) = b.
Proof.
  induction a as [|x a IH]; simpl; intros Hd.
  - by rewrite Ascii.eqb_refl.
  - apply not_elem_of_cons in Hd as [Hx Ha].
    destruct (Ascii.eqb_spec x d); [congruence|]. by rewrite IH.
Qed.

Lemma not_elem_of_str_after d a : d ∉ a → str_after d a = [].
Proof.
  induction a as [|x a IH]; simpl; intros Hd; [done|].
  apply not_elem_of_cons in Hd as [Hx Ha].
  destruct (Ascii.eqb_spec x d); [congruence|]. by rewrite IH.
Qed.

Lemma skip_delims_cons d x s : x ≠ d → skip_delims d (x :: s) = x :: s.
Proof. intros Hx. simpl. by destruct (Ascii.eqb_spec x d). Qed.

(** One [strtok] step on a field that is not empty and is followed by the
    delimiter. *)
Lemma strtok_field d x a b :
  x ≠ d → d ∉ a → strtok d (x :: a ++ d :: b) = (Some (x :: a), b).
Proof.
  intros Hx Ha. unfold strtok. rewrite skip_delims_cons by done.
  change (x :: a ++ d :: b) with ((x :: a) ++ d :: b).
  rewrite str_before_app, str_after_app; [done| |];
    apply not_elem_of_cons; split; auto.
Qed.

(** The last [strtok] step: no delimiter is left. *)
Lemma strtok_last d x a :
  x ≠ d → strtok d (x :: a) = (Some (x :: str_before d a), str_after d a).
Proof.
  intros Hx. unfold strtok. rewrite skip_delims_cons by done.
  simpl. by destruct (Ascii.eqb_spec x d).
Qed.

Lemma strncmp_eq_prefix (key rest : cstr) :
  strncmp_eq (key ++ rest) key (length key) = true.
Proof.
  unfold strncmp_eq. apply bool_decide_eq_true.
  rewrite take_app_length, firstn_all. done.
Qed.

(** ** Printing and reading numbers *)

Lemma digit_val_char d : 0 <= d < 10 → digit_val (digit_char d) = Some d.
Proof.
  intros Hd.
  assert (Hc : d = 0 ∨ d = 1 ∨ d = 2 ∨ d = 3 ∨ d = 4 ∨ d = 5 ∨ d = 6 ∨
               d = 7 ∨ d = 8 ∨ d = 9) by lia.
  repeat destruct Hc as [->|Hc]; try subst d; reflexivity.
Qed.

Lemma digits_acc_app base fuel : ∀ n acc,
  digits_acc base fuel n acc = digits_acc base fuel n [] ++ acc.
Proof.
  induction fuel as [|k IH]; intros n acc; simpl; [done|].
  destruct (n / base =? 0); [done|].
  rewrite IH, (IH _ [_]), <- app_assoc. done.
Qed.

Lemma digits_acc_length base fuel : ∀ n acc,
  (length (digits_acc base fuel n acc) ≤ fuel + length acc)%nat.
Proof.
  induction fuel as [|k IH]; intros n acc; simpl; [lia|].
  destruct (n / base =? 0); simpl; [lia|].
  etrans; [apply IH|]. simpl. lia.
Qed.

Lemma digits_acc_Forall (P : ascii → Prop) base fuel : ∀ n acc,
  (∀ d, P (digit_char (d mod base))) → Forall P acc →
  Forall P (digits_acc base fuel n acc).
Proof.
  induction fuel as [|k IH]; intros n acc HP Hacc; simpl; [done|].
  destruct (n / base =? 0); [by constructor|].
  apply IH; [done|]. by constructor.
Qed.

Lemma digits_acc_nonempty base fuel n :
  (0 < fuel)%nat → digits_acc base fuel n [] ≠ [].
Proof.
  destruct fuel as [|k]; [lia|]. intros _. simpl.
  destruct (n / base =? 0); [done|].
  rewrite digits_acc_app. by destruct (digits_acc base k (n / base) []).
Qed.

(** Reading back the digits [digits_acc] printed, whatever was read before
    them ([acc]) and whatever comes after them ([tl]). *)
Lemma digits_val_acc fuel : ∀ n tl,
  0 <= n < 10 ^ Z.of_nat fuel →
  ∃ m, 0 <= m ∧ ∀ acc,
    digits_val acc (digits_acc 10 fuel n tl) = digits_val (acc * 10 ^ m + n) tl.
Proof.
  induction fuel as [|k IH]; intros n tl Hn.
  { exists 0. split; [lia|]. intros acc. simpl in *. f_equal. lia. }
  simpl.
  assert (Hmod : 0 <= n mod 10 < 10) by (apply Z.mod_pos_bound; lia).
  pose proof (Z.div_mod n 10) as Hdm.
  destruct (Z.eqb_spec (n / 10) 0) as [H0|H0].
  - exists 1. split; [lia|]. intros acc. simpl.
    rewrite digit_val_char by done. f_equal. lia.
  - destruct (IH (n / 10) (digit_char (n mod 10) :: tl)) as (m & Hm0 & Hm).
    { rewrite Nat2Z.inj_succ, Z.pow_succ_r in Hn by lia.
      split; [apply Z.div_pos; lia|apply Z.div_lt_upper_bound; lia]. }
    exists (m + 1). split; [lia|]. intros acc.
    rewrite Hm. simpl. rewrite digit_val_char by done. f_equal.
    rewrite Z.pow_add_r by lia. lia.
Qed.

Global Arguments digits_acc : simpl never.

Lemma digits_val_stop acc (s : cstr) :
  (∀ c, head s = Some c → digit_val c = None) → digits_val acc s = acc.
Proof.
  destruct s as [|c s]; simpl; [done|]. intros H. by rewrite (H c).
Qed.

Lemma digit_char_is_digit d : is_digit (digit_char (d mod 10)).
Proof.
  assert (Hmod : 0 <= d mod 10 < 10) by (apply Z.mod_pos_bound; lia).
  unfold is_digit. rewrite digit_val_char by done. by eexists.
Qed.

Lemma fmt_d_chars n : Forall is_num_char (fmt_d n).
Proof.
  assert (H : ∀ m, Forall is_num_char (digits_acc 10 20 m [])).
  { intros m. apply digits_acc_Forall; [|done].
    intros d. right. apply digit_char_is_digit. }
  unfold fmt_d. destruct (n <? 0); [constructor; [by left|]|]; apply H.
Qed.

Lemma is_num_char_not c x :
  is_num_char c → digit_val x = None → x ≠ "-"%char → c ≠ x.
Proof. intros [Hc|[d Hd]] Hx Hm Heq; subst; congruence. Qed.

Lemma fmt_d_notin n x : digit_val x = None → x ≠ "-"%char → x ∉ fmt_d n.
Proof.
  intros Hx Hm Hin. pose proof (fmt_d_chars n) as H.
  rewrite Forall_forall in H. by apply (is_num_char_not x x (H x Hin)).
Qed.

Lemma fmt_d_length n : (length (fmt_d n) ≤ 21)%nat.
Proof.
  unfold fmt_d.
  pose proof (digits_acc_length 10 20 n []).
  pose proof (digits_acc_length 10 20 (- n) []).
  destruct (n <? 0); simpl in *; lia.
Qed.

Lemma fmt_d_nonempty n : fmt_d n ≠ [].
Proof.
  unfold fmt_d. destruct (n <? 0); [done|]. apply digits_acc_nonempty. lia.
Qed.

Lemma fmt_d_head n : ∃ c s, fmt_d n = c :: s ∧ is_num_char c.
Proof.
  pose proof (fmt_d_chars n) as H. pose proof (fmt_d_nonempty n) as Hne.
  destruct (fmt_d n) as [|c s]; [done|].
  exists c, s. split; [done|]. by inversion H.
Qed.

Lemma is_num_char_not_space c : is_num_char c → isspace c = false.
Proof.
  intros [Hc|[d Hd]]; [by subst|].
  destruct (isspace c) eqn:Hs; [|done]. exfalso.
  revert Hs Hd. unfold isspace, digit_val.
  destruct c as [[] [] [] [] [] [] [] []]; simpl; congruence.
Qed.

(** [strtol] reads back what [%ld] printed, when a character that is not a
    digit (or nothing) follows. *)
Lemma strtol_fmt_d n (tl : cstr) :
  is_long n → (∀ c, head tl = Some c → digit_val c = None) →
  strtol (fmt_d n ++ tl) = n.
Proof.
  intros [Hlo Hhi] Htl. unfold LONG_MIN, LONG_MAX in *.
  assert (Hval : ∀ m, 0 <= m < 10 ^ 20 →
            digits_val 0 (digits_acc 10 20 m [] ++ tl) = m).
  { intros m Hm. rewrite <- digits_acc_app.
    destruct (digits_val_acc 20 m tl) as (k & _ & Hk); [simpl; lia|].
    rewrite Hk. simpl. by rewrite digits_val_stop. }
  unfold strtol.
  destruct (fmt_d_head n) as (c & s & Heq & Hc).
  assert (Hsp : skip_space (fmt_d n ++ tl) = fmt_d n ++ tl).
  { rewrite Heq. simpl. by rewrite is_num_char_not_space. }
  rewrite Hsp. clear Hsp Heq Hc c s. unfold fmt_d.
  destruct (Z.ltb_spec n 0) as [Hneg|Hpos].
  - simpl. rewrite Hval by lia. unfold LONG_MIN, LONG_MAX. lia.
  - pose proof (digits_acc_nonempty 10 20 n) as Hne.
    pose proof (digits_acc_Forall is_digit 10 20 n []) as Hdig.
    destruct (digits_acc 10 20 n []) as [|c s] eqn:Heq; [by destruct Hne; [lia|]|].
    assert (Hc : is_digit c).
    { eapply Forall_inv. apply Hdig; [apply digit_char_is_digit|done]. }
    specialize (Hval n). rewrite Heq in Hval. simpl in *.
    destruct (Ascii.eqb_spec c "-") as [->|_]; [by destruct Hc|].
    destruct (Ascii.eqb_spec c "+") as [->|_]; [by destruct Hc|].
    rewrite Hval by lia. unfold LONG_MIN, LONG_MAX. lia.
Qed.

Lemma atol_fmt_d n (tl : cstr) :
  is_long n → (∀ c, head tl = Some c → digit_val c = None) →
  atol (fmt_d n ++ tl) = n.
Proof. apply strtol_fmt_d. Qed.

Lemma to_int_id n : is_int n → to_int n = n.
Proof.
  intros [Hlo Hhi]. unfold to_int, INT_MIN, INT_MAX in *.
  rewrite Z.mod_small; lia.
Qed.

Lemma is_int_long n : is_int n → is_long n.
Proof. unfold is_int, is_long, INT_MIN, INT_MAX, LONG_MIN, LONG_MAX. lia. Qed.

Lemma atoi_fmt_d n (tl : cstr) :
  is_int n → (∀ c, head tl = Some c → digit_val c = None) →
  atoi (fmt_d n ++ tl) = n.
Proof.
  intros Hn Htl. unfold atoi.
  rewrite strtol_fmt_d by auto using is_int_long. by apply to_int_id.
Qed.

Lemma fmt_d_inj n m : is_long n → is_long m → fmt_d n = fmt_d m → n = m.
Proof.
  intros Hn Hm Heq.
  rewrite <- (strtol_fmt_d n []), <- (strtol_fmt_d m []) by done.
  by rewrite Heq.
Qed.

(** ** One [FILE=] line *)

Global Arguments fmt_d : simpl never.
Global Arguments atoi : simpl never.
Global Arguments atol : simpl never.
Global Arguments strtok : simpl never.
Global Arguments strncmp_eq : simpl never.

Lemma str_before_app_r d a b : d ∉ a → str_before d (a ++ b) = a ++ str_before d b.
Proof.
  induction a as [|x a IH]; simpl; intros Hd; [done|].
  apply not_elem_of_cons in Hd as [Hx Ha].
  destruct (Ascii.eqb_spec x d); [congruence|]. by rewrite IH.
Qed.

Lemma str_before_take d n a b :
  d ∉ a → str_before d (take n (a ++ d :: b)) = take n a.
Proof.
  revert n. induction a as [|x a IH]; intros [|n] Hd; simpl; try done.
  - by rewrite Ascii.eqb_refl.
  - apply not_elem_of_cons in Hd as [Hx Ha].
    destruct (Ascii.eqb_spec x d); [congruence|]. by rewrite IH.
Qed.

(** [strtok] on a token that is not empty and is followed by a delimiter. *)
Lemma strtok_token d (t rest : cstr) :
  t ≠ [] → d ∉ t → strtok d (t ++ d :: rest) = (Some t, rest).
Proof.
  intros Hne Hd. destruct t as [|x a]; [done|].
  apply not_elem_of_cons in Hd as [Hx Ha]. by apply strtok_field.
Qed.

(** [strtok] on the last token. *)
Lemma strtok_tail d (key t : cstr) :
  key ≠ [] → d ∉ key →
  strtok d (key ++ t) = (Some (key ++ str_before d t), str_after d (key ++ t)).
Proof.
  intros Hne Hd. destruct key as [|x a]; [done|].
  pose proof Hd as Hd'. apply not_elem_of_cons in Hd' as [Hx Ha].
  simpl. rewrite strtok_last by done. rewrite str_before_app_r by done.
  by destruct (Ascii.eqb_spec x d).
Qed.

Lemma drop_key (key x : cstr) n : n = length key → drop n (key ++ x) = x.
Proof. intros ->. apply drop_app_length. Qed.

Lemma strncmp_key (key x : cstr) n :
  n = length key → strncmp_eq (key ++ x) key n = true.
Proof. intros ->. apply strncmp_eq_prefix. Qed.

(** What [load_metadata] makes of the comment field of a line. *)
Lemma comment_field (c : cstr) :
  (length c < MAX_COMMENT_LEN)%nat → NL ∉ c →
  chop_newline (strncpy_z MAX_COMMENT_LEN (str_before BAR (c ++ [NL])))
  = str_before BAR c.
Proof.
  intros Hlen Hnl. unfold chop_newline, strncpy_z, MAX_COMMENT_LEN in *.
  destruct (decide (BAR ∈ c)) as [Hbar|Hbar].
  - rewrite str_before_app_l by done.
    pose proof (str_before_length BAR c).
    rewrite take_ge by lia. apply str_before_none.
    intros Hin. by apply Hnl, (str_before_subseteq BAR c).
  - rewrite (str_before_none BAR c) by done.
    rewrite (str_before_none BAR (c ++ [NL])).
    + rewrite str_before_take by done. apply take_ge. lia.
    + rewrite elem_of_app, list_elem_of_singleton. intros [?|?]; done.
Qed.

(** The text of a record, token by token. *)
Lemma version_line_tokens v :
  version_line v =
  c{"FILE="} ++ filename v ++ BAR ::
  (c{"VERSION="} ++ fmt_d (version_number v)) ++ BAR ::
  (c{"TIMESTAMP="} ++ fmt_d (timestamp v)) ++ BAR ::
  (c{"SIZE="} ++ fmt_d (file_size v)) ++ BAR ::
  (c{"HASH="} ++ hash v) ++ BAR ::
  c{"COMMENT="} ++ comment v ++ [NL].
Proof. unfold version_line. by simpl. Qed.

Lemma key_token_ok (key x : cstr) :
  key ≠ [] → BAR ∉ key → BAR ∉ x → key ++ x ≠ [] ∧ BAR ∉ key ++ x.
Proof.
  intros Hne Hk Hx. split; [by destruct key|].
  rewrite elem_of_app. tauto.
Qed.

Lemma bar_not_num n : BAR ∉ fmt_d n.
Proof. by apply fmt_d_notin. Qed.

Ltac key_token key x :=
  let H1 := fresh in let H2 := fresh in
  destruct (key_token_ok key x) as [H1 H2];
  [done|compute_done|auto using bar_not_num|];
  rewrite (strtok_token BAR (key ++ x)) by done;
  rewrite (strncmp_key key x) by done;
  rewrite (drop_key key x) by done;
  clear H1 H2.

(** Parsing the line of a record gives the record back, up to its comment,
    which stops at its first [|]. The block of [malloc] does not show. *)
Lemma parse_version_line v junk :
  filename v ≠ [] → BAR ∉ filename v →
  (length (filename v) < MAX_FILENAME_LEN)%nat →
  BAR ∉ hash v → (length (hash v) < MAX_HASH_LEN)%nat →
  NL ∉ comment v → (length (comment v) < MAX_COMMENT_LEN)%nat →
  is_int (version_number v) → is_long (timestamp v) → is_long (file_size v) →
  parse_version (version_line v) junk
  = set_comment (str_before BAR (comment v)) v.
Proof.
  intros Hfne Hfbar Hflen Hhbar Hhlen Hcnl Hclen Hver Hts Hsz.
  rewrite version_line_tokens. unfold parse_version.
  rewrite (drop_key c{"FILE="}) by done.
  rewrite strtok_token by done.
  key_token c{"VERSION="} (fmt_d (version_number v)).
  key_token c{"TIMESTAMP="} (fmt_d (timestamp v)).
  key_token c{"SIZE="} (fmt_d (file_size v)).
  key_token c{"HASH="} (hash v).
  rewrite (strtok_tail BAR c{"COMMENT="}) by (done || compute_done).
  rewrite (strncmp_key c{"COMMENT="}) by done.
  rewrite (drop_key c{"COMMENT="}) by done.
  rewrite comment_field by done.
  pose proof (atoi_fmt_d (version_number v) []) as Hv.
  pose proof (atol_fmt_d (timestamp v) []) as Ht.
  pose proof (atol_fmt_d (file_size v) []) as Hs.
  rewrite app_nil_r in Hv, Ht, Hs. rewrite Hv, Ht, Hs by done.
  unfold strncpy_z, MAX_HASH_LEN, MAX_FILENAME_LEN in *.
  rewrite !take_ge by lia. by destruct v.
Qed.

(** ** Reading the metadata file line by line *)

Lemma fgets_chars_app n : ∀ s l r, fgets_chars n s = (l, r) → l ++ r = s.
Proof.
  induction n as [|n IH]; intros [|c s] l r; simpl; try by intros [= <- <-].
  destruct (Ascii.eqb c NL); [by intros [= <- <-]|].
  destruct (fgets_chars n s) as [l' r'] eqn:Heq. intros [= <- <-].
  simpl. f_equal. by apply IH.
Qed.

Lemma fgets_chars_progress n c s l r :
  fgets_chars (S n) (c :: s) = (l, r) → (length r ≤ length s)%nat.
Proof.
  simpl. destruct (Ascii.eqb c NL); [by intros [= <- <-]|].
  destruct (fgets_chars n s) as [l' r'] eqn:Heq. intros [= <- <-].
  apply fgets_chars_app in Heq. rewrite <- Heq, length_app. lia.
Qed.

(** A whole line that fits the buffer is read in one [fgets]. *)
Lemma fgets_chars_line n : ∀ (body rest : list ascii),
  NL ∉ body → (length body < n)%nat →
  fgets_chars n (body ++ NL :: rest) = (body ++ [NL], rest).
Proof.
  induction n as [|n IH]; intros body rest Hnl Hlen; [lia|].
  destruct body as [|c body]; simpl.
  - done.
  - apply not_elem_of_cons in Hnl as [Hc Hnl].
    destruct (Ascii.eqb_spec c NL); [done|].
    simpl in Hlen. rewrite IH by (done || lia). done.
Qed.

Lemma fgets_line (body rest : list ascii) :
  NL ∉ body → (length body < 1023)%nat →
  fgets 1024 (body ++ NL :: rest) = Some (body ++ [NL], rest).
Proof.
  intros Hnl Hlen. unfold fgets.
  change (1024 - 1)%nat with 1023%nat. rewrite fgets_chars_line by done.
  by destruct body.
Qed.

Lemma c_str_id (s : cstr) : NUL ∉ s → c_str s = s.
Proof. apply str_before_none. Qed.

(** The fuel of [load_loop] does not show once it covers the stream. *)
Lemma load_loop_fuel k1 : ∀ k2 stream repo w,
  (length stream ≤ k1)%nat → (length stream ≤ k2)%nat →
  load_loop k1 stream repo w = load_loop k2 stream repo w.
Proof.
  induction k1 as [|k1 IH]; intros k2 stream repo w H1 H2.
  - destruct stream; [|simpl in H1; lia]. by destruct k2.
  - destruct stream as [|c s]; [by destruct k2|].
    destruct k2 as [|k2]; [simpl in H2; lia|].
    cbn [load_loop fgets]. change (1024 - 1)%nat with 1023%nat.
    destruct (fgets_chars 1023 (c :: s)) as [l r] eqn:Heq.
    apply fgets_chars_progress in Heq.
    unfold bind. destruct (load_line (c_str l) repo w) as [repo' w'].
    simpl in H1, H2. apply IH; lia.
Qed.

(** One round of the loop of [load_metadata] on a line that fits. *)
Lemma load_loop_line (body rest : list ascii) repo w :
  NL ∉ body → (length body < 1023)%nat →
  load_loop (length (body ++ NL :: rest)) (body ++ NL :: rest) repo w
  = let (repo', w') := load_line (c_str (body ++ [NL])) repo w in
    load_loop (length rest) rest repo' w'.
Proof.
  intros Hnl Hlen. rewrite length_app. simpl length.
  replace (length body + S (length rest))%nat
    with (S (length body + length rest)) by lia.
  cbn [load_loop]. rewrite fgets_line by done.
  unfold bind. destruct (load_line _ repo w) as [repo' w'].
  apply load_loop_fuel; lia.
Qed.

Lemma version_line_body v : version_line v = line_body v ++ [NL].
Proof. unfold version_line, line_body. by rewrite <- !app_assoc. Qed.

Lemma fmt_d_plain n : plain (fmt_d n).
Proof. split; by apply fmt_d_notin. Qed.

Lemma plain_app (a b : cstr) : plain a → plain b → plain (a ++ b).
Proof. intros [? ?] [? ?]. split; rewrite elem_of_app; tauto. Qed.

Lemma line_body_plain v : storable v → plain (line_body v).
Proof.
  intros (?&?&?&?&?&?&?&?&?&?&?&?). unfold line_body.
  repeat (apply plain_app; [first [done|apply fmt_d_plain|split; compute_done]|]).
  done.
Qed.

Lemma line_body_length v : storable v → (length (line_body v) < 1023)%nat.
Proof.
  intros (?&?&?&?&?&?&?&?&?&?&?&?). unfold line_body. rewrite !length_app.
  pose proof (fmt_d_length (version_number v)).
  pose proof (fmt_d_length (timestamp v)).
  pose proof (fmt_d_length (file_size v)).
  unfold MAX_FILENAME_LEN, MAX_HASH_LEN, MAX_COMMENT_LEN in *. simpl. lia.
Qed.

Lemma malloc_some b h w :
  heap w = Some b :: h → malloc w = (Some b, set_heap h w).
Proof. unfold malloc. by intros ->. Qed.

(** A line that starts with [FILE=]. *)
Lemma load_line_file (line : cstr) repo w :
  load_line (c{"FILE="} ++ line) repo w
  = match malloc w with
    | (Some version, w') =>
        (set_version_list
           (parse_version (c{"FILE="} ++ line) version :: version_list repo) repo, w')
    | (None, w') => (repo, w')
    end.
Proof.
  unfold load_line. cbn [head app list_ascii_of_string].
  rewrite (bool_decide_eq_false_2 (Some "F"%char = Some "#"%char)) by done.
  rewrite (bool_decide_eq_false_2 (Some "F"%char = Some NL)) by done.
  cbn [orb].
  replace (strncmp_eq _ c{"TOTAL_VERSIONS="} 15) with false
    by (symmetry; by apply bool_decide_eq_false_2).
  pose proof (strncmp_key c{"FILE="} line 5 eq_refl) as Hk.
  cbn [app list_ascii_of_string] in Hk. rewrite Hk.
  unfold bind. by destruct (malloc w) as [[v|] w'].
Qed.

(** The line of a storable record appends its loaded form. *)
Lemma load_line_version v repo w junk h :
  storable v → heap w = Some junk :: h →
  load_line (c_str (version_line v)) repo w
  = (set_version_list (loaded v :: version_list repo) repo, set_heap h w).
Proof.
  intros Hv Hheap. pose proof (line_body_plain v Hv) as [Hnul Hnl].
  rewrite c_str_id.
  2:{ rewrite version_line_body, elem_of_app, list_elem_of_singleton.
      intros [?|?]; done. }
  pose proof (parse_version_line v junk) as Hp.
  unfold version_line in *. rewrite load_line_file.
  rewrite (malloc_some junk h) by done.
  destruct Hv as (?&?&[? ?]&?&?&[? ?]&?&?&[? ?]&?&?&?).
  rewrite Hp by done. done.
Qed.

Lemma set_heap_id w : set_heap (heap w) w = w.
Proof. by destruct w. Qed.

(** The records of a saved history are loaded one after the other, each in
    front of the ones before it. *)
Lemma load_loop_versions vs : ∀ (junks : list FileVersion) h rest repo w,
  Forall storable vs → length junks = length vs →
  heap w = (Some <$> junks) ++ h →
  load_loop (length (concat (map version_line vs) ++ rest))
            (concat (map version_line vs) ++ rest) repo w
  = load_loop (length rest) rest
      (set_version_list (reverse (loaded <$> vs) ++ version_list repo) repo)
      (set_heap h w).
Proof.
  induction vs as [|v vs IH]; intros junks h rest repo w Hvs Hlen Hheap.
  - destruct junks; [|done]. simpl in Hheap. subst h.
    rewrite set_heap_id. by destruct repo.
  - destruct junks as [|junk junks]; [done|].
    apply Forall_cons in Hvs as [Hv Hvs]. simpl in Hlen, Hheap.
    cbn [map concat]. rewrite version_line_body, <- !app_assoc.
    cbn [app]. pose proof (line_body_plain v Hv) as [Hnul Hnl].
    rewrite load_loop_line by auto using line_body_length.
    rewrite <- version_line_body.
    rewrite (load_line_version v repo w junk ((Some <$> junks) ++ h)) by done.
    rewrite (IH junks h) by (done || lia).
    cbn [fmap list_fmap]. rewrite reverse_cons, <- app_assoc. done.
Qed.

(** A comment line or a blank line changes nothing. *)
Lemma load_loop_skip (body rest : list ascii) repo w :
  NL ∉ body → (length body < 1023)%nat →
  head (c_str (body ++ [NL])) = Some "#"%char ∨
  head (c_str (body ++ [NL])) = Some NL →
  load_loop (length (body ++ NL :: rest)) (body ++ NL :: rest) repo w
  = load_loop (length rest) rest repo w.
Proof.
  intros Hnl Hlen Hhead. rewrite load_loop_line by done.
  unfold load_line.
  destruct Hhead as [-> | ->].
  - by rewrite bool_decide_eq_true_2.
  - rewrite (bool_decide_eq_true_2 (Some NL = Some NL)) by done.
    by rewrite orb_true_r.
Qed.

(** The line of the count. *)
Lemma load_line_total n repo w :
  is_int n →
  load_line (c{"TOTAL_VERSIONS="} ++ fmt_d n ++ [NL]) repo w
  = (set_total_versions n repo, w).
Proof.
  intros Hint. unfold load_line. cbn [head app list_ascii_of_string].
  rewrite (bool_decide_eq_false_2 (Some "T"%char = Some "#"%char)) by done.
  rewrite (bool_decide_eq_false_2 (Some "T"%char = Some NL)) by done.
  cbn [orb].
  pose proof (strncmp_key c{"TOTAL_VERSIONS="} (fmt_d n ++ [NL]) 15 eq_refl) as Hk.
  pose proof (drop_key c{"TOTAL_VERSIONS="} (fmt_d n ++ [NL]) 15 eq_refl) as Hd.
  cbn [app list_ascii_of_string] in Hk, Hd. rewrite Hk, Hd.
  rewrite atoi_fmt_d; [done|done|]. by intros c [= <-].
Qed.

(** The four lines of the header: two comments and a blank line are skipped,
    the count is read. *)
Lemma load_loop_header r rest repo w :
  is_int (total_versions r) →
  load_loop (length (metadata_header r ++ rest)) (metadata_header r ++ rest) repo w
  = load_loop (length rest) rest (set_total_versions (total_versions r) repo) w.
Proof.
  intros Hint.
  pose proof (fmt_d_plain (total_versions r)) as [Hnul Hnl].
  pose proof (fmt_d_length (total_versions r)) as Hlen.
  assert (Hshape : metadata_header r ++ rest =
    c{"# VCS Metadata File"} ++ NL ::
    (c{"TOTAL_VERSIONS="} ++ fmt_d (total_versions r)) ++ NL ::
    [] ++ NL :: c{"# File Versions"} ++ NL :: rest).
  { unfold metadata_header. by rewrite <- !app_assoc. }
  rewrite Hshape. clear Hshape.
  rewrite (load_loop_skip c{"# VCS Metadata File"})
    by first [compute_done | simpl; lia | by left].
  rewrite (load_loop_line (c{"TOTAL_VERSIONS="} ++ fmt_d (total_versions r))).
  2:{ rewrite elem_of_app. intros [H|H]; [|done]. by revert H; compute_done. }
  2:{ rewrite length_app. simpl. lia. }
  rewrite c_str_id.
  2:{ rewrite !elem_of_app, list_elem_of_singleton.
      intros [[H|H]|H]; [|done|done]. by revert H; compute_done. }
  rewrite <- app_assoc, load_line_total by done.
  rewrite (load_loop_skip []) by first [compute_done | simpl; lia | by right].
  rewrite (load_loop_skip c{"# File Versions"})
    by first [compute_done | simpl; lia | by left].
  done.
Qed.

(** ** Writing and reading the metadata file *)

Lemma content_insert p s f w : content p (set_files (<[p := s]> f) w) = s.
Proof. unfold content. simpl. by rewrite lookup_insert_eq. Qed.

Lemma fwrite_unlimited p data w :
  capacity w !! p = None →
  fwrite p data w
  = (length data, set_files (<[p := content p w ++ data]> (files w)) w).
Proof. intros Hcap. unfold fwrite, room. rewrite Hcap. by rewrite firstn_all. Qed.

Lemma fprintf_unlimited p s w :
  capacity w !! p = None →
  fprintf p s w = (tt, set_files (<[p := content p w ++ s]> (files w)) w).
Proof. intros Hcap. unfold fprintf, bind. by rewrite fwrite_unlimited. Qed.

(** Appending to the file that was just set to [old]. *)
Lemma fprintf_append p old s f w :
  capacity w !! p = None →
  fprintf p s (set_files (<[p := old]> f) w)
  = (tt, set_files (<[p := old ++ s]> f) w).
Proof.
  intros Hcap. rewrite fprintf_unlimited by done.
  rewrite content_insert. simpl. by rewrite insert_insert_eq.
Qed.

Lemma write_versions_append p vs : ∀ old f w,
  capacity w !! p = None →
  write_versions p vs (set_files (<[p := old]> f) w)
  = (tt, set_files (<[p := old ++ concat (map version_line vs)]> f) w).
Proof.
  induction vs as [|v vs IH]; intros old f w Hcap; simpl.
  - by rewrite app_nil_r.
  - unfold bind. rewrite fprintf_append by done.
    rewrite IH by done. by rewrite <- app_assoc.
Qed.

(** [save_metadata] on a path that opens and takes every byte: the file is
    replaced by the text of the repository. *)
Lemma save_metadata_written repo w :
  metadata_path repo ∉ unwritable w → metadata_path repo ∉ dirs w →
  capacity w !! metadata_path repo = None →
  save_metadata repo w
  = (0, set_files (<[metadata_path repo := metadata_text repo]> (files w)) w).
Proof.
  intros Hw Hd Hcap. unfold save_metadata, bind, fopen_w.
  rewrite !bool_decide_eq_false_2 by done. cbn [orb negb].
  rewrite !fprintf_append by done.
  rewrite write_versions_append by done.
  unfold metadata_text, metadata_header. simpl. by rewrite <- !app_assoc.
Qed.

(** [save_metadata] on a path that does not open: [-1], nothing written. *)
Lemma save_metadata_refused repo w :
  metadata_path repo ∈ unwritable w ∨ metadata_path repo ∈ dirs w →
  save_metadata repo w = (-1, w).
Proof.
  intros H. unfold save_metadata, bind, fopen_w.
  destruct H as [H|H]; rewrite (bool_decide_eq_true_2 _ H);
    by rewrite ?orb_true_r.
Qed.

(** [load_metadata] on the text of a saved repository. *)
Lemma load_metadata_text r repo w (junks : list FileVersion) h :
  files w !! metadata_path repo = Some (metadata_text r) →
  metadata_path repo ∉ unreadable w →
  is_int (total_versions r) → Forall storable (version_list r) →
  length junks = length (version_list r) →
  heap w = (Some <$> junks) ++ h →
  load_metadata repo w
  = ((0, mkRepository (base_path repo) (total_versions r)
           (reverse (loaded <$> version_list r) ++ version_list repo)),
     set_heap h w).
Proof.
  intros Hfile Hr Hint Hvs Hlen Hheap.
  unfold load_metadata, bind, fopen_r, exists_at, content.
  rewrite Hfile. rewrite (bool_decide_eq_true_2 (is_Some _)) by by eexists.
  rewrite (bool_decide_eq_false_2 _ Hr). cbn [orb andb negb].
  rewrite Hfile. cbn [default from_option]. unfold id.
  unfold metadata_text. rewrite load_loop_header by done.
  rewrite <- (app_nil_r (concat _)).
  rewrite (load_loop_versions _ junks h) by done.
  simpl. by destruct repo.
Qed.

(** [load_metadata] without a metadata file: success, nothing loaded. *)
Lemma load_metadata_absent repo w :
  exists_at (metadata_path repo) w = false →
  load_metadata repo w = ((0, repo), w).
Proof.
  intros H. unfold load_metadata, bind, fopen_r. by rewrite H.
Qed.

(** ** Copying files *)

(** Goals [p ∉ [q1; ...; qn]] from hypotheses [p ≠ qi]. *)
Ltac solve_notin :=
  rewrite ?not_elem_of_cons; repeat split;
  first [done | apply not_elem_of_nil | by apply not_eq_sym].

Lemma files_changed_refl ps w : files_changed ps w w.
Proof. split; [by destruct w|done]. Qed.

Lemma files_changed_trans ps w1 w2 w3 :
  files_changed ps w1 w2 → files_changed ps w2 w3 → files_changed ps w1 w3.
Proof.
  intros [E1 F1] [E2 F2]. split.
  - rewrite E2 at 1. rewrite E1. done.
  - intros p Hp. rewrite F2, F1; done.
Qed.

Lemma files_changed_insert p s w :
  files_changed [p] w (set_files (<[p := s]> (files w)) w).
Proof.
  split; [done|]. intros q Hq. simpl.
  apply lookup_insert_ne. intros ->. apply Hq. by left.
Qed.

Lemma files_changed_content ps w w' p :
  files_changed ps w w' → p ∉ ps → content p w' = content p w.
Proof. intros [_ F] Hp. unfold content. by rewrite F. Qed.

(** The loop of [copy_file] between two different paths: only [dst] changes,
    and when the loop returns [0] the rest of the source has been appended
    to it. The fuel is never the reason to stop. *)
Lemma copy_loop_spec src dst fuel : ∀ off w r w',
  src ≠ dst → (length (content src w) ≤ off + fuel)%nat →
  copy_loop fuel src dst off w = (r, w') →
  files_changed [dst] w w' ∧
  (r = 0 ∨ r = -1) ∧
  (r = 0 → content dst w' = content dst w ++ drop off (content src w)) ∧
  (capacity w !! dst = None → r = 0) ∧
  (is_Some (files w !! dst) → is_Some (files w' !! dst)).
Proof.
  induction fuel as [|k IH]; intros off w r w' Hne Hfuel.
  - cbn [copy_loop]. unfold bind, fread.
    rewrite drop_ge by lia. rewrite take_nil. intros [= <- <-].
    split; [apply files_changed_refl|]. rewrite app_nil_r. auto.
  - cbn [copy_loop]. unfold bind, fread.
    destruct (take 4096 (drop off (content src w))) as [|b bs] eqn:Hbytes.
    { intros [= <- <-]. split; [apply files_changed_refl|].
      split; [auto|]. split; [|done]. intros _.
      destruct (drop off (content src w)); [by rewrite app_nil_r|done]. }
    unfold fwrite.
    set (n := room dst (length (b :: bs)) w).
    set (w1 := set_files _ w).
    assert (H1 : files_changed [dst] w w1) by apply files_changed_insert.
    assert (Hs1 : is_Some (files w1 !! dst)).
    { unfold w1. simpl. rewrite lookup_insert_eq. by eexists. }
    destruct (Nat.eqb_spec n (length (b :: bs))) as [Hn|Hn]; cbn [negb].
    + intros Hloop. apply IH in Hloop as (Hch & Hr & Hc & Hcap & Hs); [|done|].
      2:{ rewrite (files_changed_content [dst] w w1); [|done|solve_notin].
          assert (length (b :: bs) ≠ 0)%nat by done. lia. }
      split; [by eapply files_changed_trans|]. split; [done|].
      split; [|by auto]. intros Hr0. rewrite (Hc Hr0).
      rewrite (files_changed_content [dst] w w1 src); [|done|solve_notin].
      unfold w1. rewrite content_insert. rewrite Hn, firstn_all.
      rewrite <- app_assoc. f_equal.
      rewrite <- Hbytes, <- drop_drop.
      set (rest := drop off (content src w)).
      rewrite length_take. apply Nat.min_case_strong; intros Hle.
      * apply take_drop.
      * rewrite take_ge, drop_ge by lia. apply app_nil_r.
    + intros [= <- <-]. split; [done|]. split; [auto|]. split; [done|].
      split; [|done].
      intros Hcap. exfalso. apply Hn. unfold n, room. by rewrite Hcap.
Qed.

(** The fuel of [copy_loop] does not show once it covers what is left of
    the source. *)
Lemma copy_loop_fuel src dst k1 : ∀ k2 off w,
  src ≠ dst →
  (length (content src w) ≤ off + k1)%nat →
  (length (content src w) ≤ off + k2)%nat →
  copy_loop k1 src dst off w = copy_loop k2 src dst off w.
Proof.
  induction k1 as [|k1 IH]; intros k2 off w Hne H1 H2.
  - destruct k2; cbn [copy_loop]; unfold bind, fread;
      rewrite drop_ge by lia; by rewrite take_nil.
  - destruct k2 as [|k2].
    { cbn [copy_loop]. unfold bind, fread.
      rewrite drop_ge by lia. by rewrite take_nil. }
    cbn [copy_loop]. unfold bind, fread.
    destruct (take 4096 (drop off (content src w))) as [|b bs] eqn:Hbytes;
      [done|].
    unfold fwrite. set (n := room dst (length (b :: bs)) w).
    destruct (Nat.eqb_spec n (length (b :: bs))) as [Hn|Hn]; cbn [negb]; [|done].
    apply IH; [done| |];
      (rewrite (files_changed_content [dst] w);
       [|apply files_changed_insert|solve_notin]);
      simpl length; lia.
Qed.

Lemma fopen_w_spec p w ok w' :
  fopen_w p w = (ok, w') →
  files_changed [p] w w' ∧
  (ok = true → content p w' = [] ∧ is_Some (files w' !! p)) ∧
  (ok = false → w' = w) ∧
  (ok = true ↔ (p ∉ unwritable w) ∧ (p ∉ dirs w)).
Proof.
  unfold fopen_w.
  destruct (decide (p ∈ unwritable w)) as [Hu|Hu];
    [rewrite (bool_decide_eq_true_2 _ Hu)|rewrite (bool_decide_eq_false_2 _ Hu)];
  (destruct (decide (p ∈ dirs w)) as [Hd|Hd];
    [rewrite (bool_decide_eq_true_2 _ Hd)|rewrite (bool_decide_eq_false_2 _ Hd)]);
  cbn [orb]; intros [= <- <-];
  (split; [first [apply files_changed_refl|apply files_changed_insert]|]);
  (split; [first [done|intros _; rewrite content_insert; split;
                    [done|simpl; rewrite lookup_insert_eq; by eexists]]|]);
  (split; [done|]); split; try done; intros [? ?]; done.
Qed.

(** [copy_file]: only the destination changes; the result is [0] or [-1];
    [0] means that the source opened and, between two different paths, that
    the destination now holds the bytes of the source. *)
Lemma copy_file_spec src dst w r w' :
  copy_file src dst w = (r, w') →
  files_changed [dst] w w' ∧
  (r = 0 ∨ r = -1) ∧
  (r = 0 → exists_at src w = true) ∧
  (r = 0 → src ≠ dst →
     content dst w' = content src w ∧ is_Some (files w' !! dst)).
Proof.
  unfold copy_file, bind, fopen_r.
  destruct (exists_at src w && negb (bool_decide (src ∈ unreadable w))) eqn:Hsrc;
    cbn [negb].
  2:{ intros [= <- <-]. split; [apply files_changed_refl|].
      split; [auto|]. split; done. }
  apply andb_true_iff in Hsrc as [Hex _].
  destruct (fopen_w dst w) as [ok w1] eqn:Hopen.
  apply fopen_w_spec in Hopen as (Hch1 & Hok & Hfail & _).
  destruct ok; cbn [negb].
  2:{ intros [= <- <-]. split; [done|].
      split; [auto|]. split; done. }
  destruct (Hok eq_refl) as [Hempty Hsome].
  destruct (decide (src = dst)) as [->|Hne].
  - rewrite Hempty. cbn [length copy_loop]. unfold bind, fread.
    rewrite Hempty. cbn [drop take]. intros [= <- <-].
    split; [done|]. split; [auto|]. split; done.
  - intros Hloop.
    apply copy_loop_spec in Hloop as (Hch2 & Hr & Hc & _ & Hs); [|done|lia].
    split; [by eapply files_changed_trans|]. split; [done|]. split; [done|].
    intros Hr0 _. rewrite (Hc Hr0), Hempty. cbn [app drop].
    split; [|by auto].
    apply (files_changed_content [dst]); [done|solve_notin].
Qed.

(** ** Check-out *)

Lemma restore_version_file_spec name version w r w' :
  restore_version_file name version w = (r, w') →
  files_changed [name] w w' ∧ (r = 0 ∨ r = -1) ∧
  (r = 0 → name ≠ snapshot_path (cwd w) name version →
     content name w' = content (snapshot_path (cwd w) name version) w ∧
     is_Some (files w' !! name)).
Proof.
  unfold restore_version_file, file_exists, getcwd, stat, bind, ret.
  cbv beta iota.
  destruct (exists_at (snapshot_path (cwd w) name version) w) eqn:Hex.
  - rewrite bool_decide_eq_true_2 by by eexists. cbn [negb].
    intros Hcopy. apply copy_file_spec in Hcopy as (Hch & Hr & _ & Hc).
    split; [done|]. split; [done|]. intros Hr0 Hne. apply Hc; [done|].
    by apply not_eq_sym.
  - rewrite bool_decide_eq_false_2 by (by intros [? ?]). cbn [negb].
    intros [= <- <-]. split; [apply files_changed_refl|]. split; [auto|done].
Qed.

(** C9. Check-out leaves the history as it is: the repository after the call
    is the repository before it, with the same records in the same order,
    whether the call succeeds, finds no record or fails in the copy; and in
    the file system nothing but the working file [name] can have changed. *)
Theorem checkout_file_frame repo name version w :
  snd (fst (checkout_file repo name version w)) = repo ∧
  files_changed [name] w (snd (checkout_file repo name version w)).
Proof.
  unfold checkout_file.
  destruct (find_file_version repo name version) as [v|].
  - unfold bind, ret.
    destruct (restore_version_file name version w) as [r w'] eqn:Hr.
    apply restore_version_file_spec in Hr as [Hch _]. done.
  - split; [done|apply files_changed_refl].
Qed.

(** Check-out reports what the Snapshot Store reports. *)
Lemma checkout_file_result repo name version w :
  fst (fst (checkout_file repo name version w))
  = match find_file_version repo name version with
    | None => -1
    | Some _ => fst (restore_version_file name version w)
    end.
Proof.
  unfold checkout_file.
  destruct (find_file_version repo name version); [|done].
  unfold bind, ret. by destruct (restore_version_file name version w).
Qed.

(** ** Initialisation *)

(** C10. Once the control directory, [versions] and [temp] are made,
    [init_repository] returns [0] whatever becomes of the metadata file; when
    [versions.meta] does not open for writing, nothing is written and the
    result is still [0]. *)
Theorem init_repository_ignores_metadata path w w1 w2 w3 :
  mkdir (vcs_path path) w = (MkdirOk, w1) →
  mkdir (versions_path path) w1 = (MkdirOk, w2) →
  mkdir (temp_path path) w2 = (MkdirOk, w3) →
  fst (init_repository path w) = 0 ∧
  (fst (fopen_w (initial_metadata_path path) w3) = false →
   init_repository path w = (0, w3)).
Proof.
  intros H1 H2 H3. unfold init_repository, bind. rewrite H1, H2, H3.
  destruct (fopen_w (initial_metadata_path path) w3) as [ok w4] eqn:Hopen.
  destruct ok.
  - split; [|done]. unfold fprintf, bind, ret.
    destruct (fwrite _ _ w4) as [n1 w5]. by destruct (fwrite _ _ w5).
  - apply fopen_w_spec in Hopen as (_ & _ & Hsame & _).
    rewrite Hsame by done. done.
Qed.

Lemma init_repository_ignores_metadata_witness :
  let w1 := snd (mkdir (vcs_path c{"/w"}) bare_world) in
  let w2 := snd (mkdir (versions_path c{"/w"}) w1) in
  let w3 := snd (mkdir (temp_path c{"/w"}) w2) in
  mkdir (vcs_path c{"/w"}) bare_world = (MkdirOk, w1) ∧
  mkdir (versions_path c{"/w"}) w1 = (MkdirOk, w2) ∧
  mkdir (temp_path c{"/w"}) w2 = (MkdirOk, w3) ∧
  fst (init_repository c{"/w"} bare_world) = 0 ∧
  (fst (fopen_w (initial_metadata_path c{"/w"}) w3) = false →
   init_repository c{"/w"} bare_world = (0, w3)).
Proof.
  intros w1 w2 w3.
  assert (H1 : mkdir (vcs_path c{"/w"}) bare_world = (MkdirOk, w1))
    by (vm_compute; reflexivity).
  assert (H2 : mkdir (versions_path c{"/w"}) w1 = (MkdirOk, w2))
    by (vm_compute; reflexivity).
  assert (H3 : mkdir (temp_path c{"/w"}) w2 = (MkdirOk, w3))
    by (vm_compute; reflexivity).
  do 3 (split; [assumption|]).
  exact (init_repository_ignores_metadata c{"/w"} bare_world w1 w2 w3 H1 H2 H3).
Defined.

(** In [bare_world] the metadata file does not open, and [init_repository]
    returns [0] with no metadata file in place. *)
Example init_repository_without_metadata :
  fst (fopen_w (initial_metadata_path c{"/w"})
         (snd (init_repository c{"/w"} bare_world))) = false ∧
  fst (init_repository c{"/w"} bare_world) = 0 ∧
  files (snd (init_repository c{"/w"} bare_world)) = ∅.
Proof. vm_compute. auto. Qed.

(** ** The latest version *)

Lemma latest_from_max vs name : ∀ a, 0 <= a →
  latest_from a vs name = Z.max a (latest_from 0 vs name).
Proof.
  induction vs as [|v vs IH]; intros a Ha; simpl; [lia|].
  destruct (strcmp_eq (filename v) name); cbn [andb]; [|by apply IH].
  destruct (Z.ltb_spec a (version_number v)),
           (Z.ltb_spec 0 (version_number v));
    rewrite ?(IH a), ?(IH (version_number v)) by lia; lia.
Qed.

Lemma latest_from_nonneg vs name : 0 <= latest_from 0 vs name.
Proof.
  destruct vs as [|v vs]; simpl; [lia|].
  destruct (_ && _) eqn:Hc; [|rewrite latest_from_max; lia].
  apply andb_true_iff in Hc as [_ Hv%Z.ltb_lt].
  rewrite latest_from_max; lia.
Qed.

(** The latest version once a record is put in front. *)
Lemma latest_from_cons v vs name :
  latest_from 0 (v :: vs) name
  = if strcmp_eq (filename v) name
    then Z.max (version_number v) (latest_from 0 vs name)
    else latest_from 0 vs name.
Proof.
  simpl. pose proof (latest_from_nonneg vs name).
  destruct (strcmp_eq (filename v) name); cbn [andb]; [|done].
  destruct (Z.ltb_spec 0 (version_number v)); [|lia].
  rewrite latest_from_max; lia.
Qed.

(** The latest version does not depend on the order of the records. *)
Lemma latest_from_app vs1 vs2 name :
  latest_from 0 (vs1 ++ vs2) name
  = Z.max (latest_from 0 vs1 name) (latest_from 0 vs2 name).
Proof.
  induction vs1 as [|v vs1 IH].
  - simpl. pose proof (latest_from_nonneg vs2 name). lia.
  - rewrite <- app_comm_cons, !latest_from_cons, IH.
    destruct (strcmp_eq (filename v) name); lia.
Qed.

Lemma latest_from_reverse vs name :
  latest_from 0 (reverse vs) name = latest_from 0 vs name.
Proof.
  induction vs as [|v vs IH]; [done|].
  rewrite reverse_cons, latest_from_app, IH, !latest_from_cons.
  change (latest_from 0 [] name) with 0.
  destruct (strcmp_eq (filename v) name);
    pose proof (latest_from_nonneg vs name); lia.
Qed.

(** ** The hash *)

Lemma safe_chars_good (h : cstr) :
  Forall safe_char h → (length h < MAX_HASH_LEN)%nat → good_hash h.
Proof.
  intros Hall Hlen. rewrite Forall_forall in Hall.
  split; [done|]. repeat split; intros Hin; by destruct (Hall _ Hin) as (?&?&?).
Qed.

Lemma digit_char_safe base d :
  (base = 10 ∨ base = 16) → safe_char (digit_char (d mod base)).
Proof.
  intros Hb.
  assert (Hd : 0 <= d mod base < 16) by (pose proof (Z.mod_pos_bound d base); lia).
  set (m := d mod base) in *. clearbody m.
  assert (Hm : m = 0 ∨ m = 1 ∨ m = 2 ∨ m = 3 ∨ m = 4 ∨ m = 5 ∨ m = 6 ∨ m = 7 ∨
               m = 8 ∨ m = 9 ∨ m = 10 ∨ m = 11 ∨ m = 12 ∨ m = 13 ∨ m = 14 ∨
               m = 15) by lia.
  repeat destruct Hm as [->|Hm]; try subst m; by repeat split.
Qed.

Lemma digits_acc_safe base fuel n :
  (base = 10 ∨ base = 16) → Forall safe_char (digits_acc base fuel n []).
Proof.
  intros Hb. apply digits_acc_Forall; [|done].
  intros d. by apply digit_char_safe.
Qed.

Lemma fmt_d_safe n : Forall safe_char (fmt_d n).
Proof.
  unfold fmt_d. destruct (n <? 0).
  - constructor; [by repeat split|]. apply digits_acc_safe. auto.
  - apply digits_acc_safe. auto.
Qed.

Lemma fmt_08lx_safe n : Forall safe_char (fmt_08lx n).
Proof.
  unfold fmt_08lx. apply Forall_app. split.
  - apply Forall_replicate. by repeat split.
  - apply digits_acc_safe. auto.
Qed.

Lemma fmt_08lx_length n : (length (fmt_08lx n) ≤ 16)%nat.
Proof.
  unfold fmt_08lx. rewrite length_app, length_replicate.
  pose proof (digits_acc_length 16 16 n []). simpl in *. lia.
Qed.

Lemma unknown_good : good_hash c{"unknown"}.
Proof. split; [compute; lia|]. split; [split|]; compute_done. Qed.

Lemma hash_text_safe hash now : Forall safe_char (hash_text hash now).
Proof.
  unfold hash_text, snprintf. apply Forall_take, Forall_app.
  split; [apply fmt_08lx_safe|apply fmt_d_safe].
Qed.

(** No character is cut from the hash. *)
Lemma hash_text_whole hash now :
  hash_text hash now = fmt_08lx hash ++ fmt_d (Z.rem (to_long now) 10000).
Proof.
  unfold hash_text, snprintf. apply take_ge. rewrite length_app.
  pose proof (fmt_08lx_length hash).
  pose proof (fmt_d_length (Z.rem (to_long now) 10000)).
  unfold MAX_HASH_LEN. lia.
Qed.

(** ** The clock and the allocator *)

Lemma ticks_refl w : ticks w w.
Proof. unfold ticks. by destruct w. Qed.

Lemma ticks_trans w1 w2 w3 : ticks w1 w2 → ticks w2 w3 → ticks w1 w3.
Proof. unfold ticks. intros H1 H2. rewrite H2 at 1. rewrite H1. done. Qed.

Lemma malloc_ticks w b w' : malloc w = (b, w') → ticks w w'.
Proof.
  unfold malloc, ticks. destruct (heap w) eqn:Hh; intros [= <- <-];
    destruct w; simpl in *; by subst.
Qed.

Lemma time_ticks w t w' : time w = (t, w') → ticks w w'.
Proof.
  unfold time, ticks. destruct (clock w) eqn:Hc; intros [= <- <-];
    destruct w; simpl in *; by subst.
Qed.

Lemma time_now w : fst (time w) = current_time w.
Proof. unfold time, current_time. by destruct (clock w). Qed.

Lemma ticks_files w w' : ticks w w' → files w' = files w.
Proof. unfold ticks. by intros ->. Qed.

Lemma ticks_dirs w w' : ticks w w' → dirs w' = dirs w.
Proof. unfold ticks. by intros ->. Qed.

Lemma ticks_same_env w w' : ticks w w' → same_env w w'.
Proof. unfold ticks. by intros ->. Qed.

Lemma ticks_content p w w' : ticks w w' → content p w' = content p w.
Proof. unfold content. by intros ->%ticks_files. Qed.

Lemma ticks_exists_at p w w' : ticks w w' → exists_at p w' = exists_at p w.
Proof.
  intros H. unfold exists_at. by rewrite (ticks_files w w'), (ticks_dirs w w').
Qed.

Lemma same_env_trans w1 w2 w3 : same_env w1 w2 → same_env w2 w3 → same_env w1 w3.
Proof.
  intros (?&?&?&?&?) (?&?&?&?&?). repeat split; congruence.
Qed.

Lemma files_changed_same_env ps w w' : files_changed ps w w' → same_env w w'.
Proof. intros [-> _]. by repeat split. Qed.

(** [generate_file_hash] moves only the clock and the allocator; the string
    it returns is [hash_text] of the accumulator at the time the clock shows
    after the allocation. *)
Lemma malloc_clock w b w' : malloc w = (b, w') → clock w' = clock w.
Proof. unfold malloc. by destruct (heap w); intros [= <- <-]. Qed.

Lemma generate_file_hash_spec p w h w' :
  generate_file_hash p w = (h, w') →
  ticks w w' ∧
  (∀ s, h = Some s → s = hash_text (file_hash p w) (current_time w)).
Proof.
  unfold generate_file_hash, fopen_r, bind, ret. cbv beta iota.
  destruct (exists_at p w && negb (bool_decide (p ∈ unreadable w))); cbn [negb].
  2:{ intros [= <- <-]. split; [apply ticks_refl|done]. }
  destruct (malloc w) as [[blk|] w1] eqn:Hm.
  2:{ unfold stat at 1. cbv beta iota. rewrite Hm.
      intros [= <- <-]. split; [by eapply malloc_ticks|done]. }
  unfold stat at 1. cbv beta iota. rewrite Hm.
  destruct (time w1) as [now w2] eqn:Ht.
  intros [= <- <-].
  pose proof (time_now w1) as Hnow. rewrite Ht in Hnow. simpl in Hnow.
  unfold current_time in Hnow. rewrite (malloc_clock _ _ _ Hm) in Hnow.
  apply malloc_ticks in Hm. apply time_ticks in Ht.
  split; [by eapply ticks_trans|].
  intros s [= <-]. unfold current_time. rewrite <- Hnow. done.
Qed.

(** ** The Snapshot Store *)

Lemma copy_file_absent src dst w :
  exists_at src w = false → copy_file src dst w = (-1, w).
Proof. intros H. unfold copy_file, bind, fopen_r. by rewrite H. Qed.

(** What [mkdir] does to the world. *)
Lemma mkdir_spec p w m w' :
  mkdir p w = (m, w') →
  files w' = files w ∧ same_env w w' ∧ heap w' = heap w ∧ clock w' = clock w ∧
  (dirs w' = dirs w ∨ (m = MkdirOk ∧ dirs w' = {[p]} ∪ dirs w)).
Proof.
  unfold mkdir. destruct (exists_at p w); [|destruct (bool_decide _)];
    intros [= <- <-]; repeat split; auto.
Qed.

Lemma exists_at_mkdir p q w m w' :
  mkdir p w = (m, w') → q ≠ p → exists_at q w' = exists_at q w.
Proof.
  intros (Hf & _ & _ & _ & Hd)%mkdir_spec Hne. unfold exists_at.
  rewrite Hf. f_equal. destruct Hd as [->|[_ ->]]; [done|].
  apply bool_decide_ext. rewrite elem_of_union, elem_of_singleton. tauto.
Qed.

(** [create_version_file]: at most one file changes, the snapshot; the result
    is [0] or [-1]; [0] means that the source was there and that the snapshot
    holds its bytes. *)
Lemma create_version_file_spec name version w r w' :
  create_version_file name version w = (r, w') →
  let vd := version_dir (cwd w) name in
  let vf := version_file (cwd w) name version in
  same_env w w' ∧ heap w' = heap w ∧ clock w' = clock w ∧
  (∀ p, p ≠ vf → files w' !! p = files w !! p) ∧
  (dirs w' = dirs w ∨ dirs w' = {[vd]} ∪ dirs w) ∧
  (r = 0 ∨ r = -1) ∧
  (r = 0 → name ≠ vf →
     content vf w' = content name w ∧ is_Some (files w' !! vf)) ∧
  (exists_at name w = false → name ≠ vd → r = -1 ∧ files w' = files w).
Proof.
  unfold create_version_file, bind, getcwd. cbv beta iota.
  destruct (mkdir (version_dir (cwd w) name) w) as [m w1] eqn:Hmk.
  pose proof (mkdir_spec _ _ _ _ Hmk) as (Hf & Henv & Hh & Hc & Hd).
  assert (Hd' : dirs w1 = dirs w ∨
                dirs w1 = {[version_dir (cwd w) name]} ∪ dirs w) by tauto.
  destruct m.
  3:{ intros [= <- <-]. split; [done|]. split; [done|]. split; [done|].
      split; [by rewrite Hf|]. split; [done|]. split; [auto|]. split; [done|].
      intros _ _. by rewrite Hf. }
  all: intros Hcopy; pose proof (copy_file_spec _ _ _ _ _ Hcopy)
         as (Hch & Hr & _ & Hcont).
  all: pose proof (files_changed_same_env _ _ _ Hch) as Henv2.
  all: destruct Hch as [Heq Hframe].
  all: split; [by eapply same_env_trans|].
  all: split; [rewrite Heq; simpl; congruence|].
  all: split; [rewrite Heq; simpl; congruence|].
  all: split; [intros p Hp; rewrite Hframe, Hf; [done|solve_notin]|].
  all: split; [rewrite Heq; simpl; tauto|].
  all: split; [done|].
  all: split.
  all: try (intros Hr0 Hne; destruct (Hcont Hr0 Hne) as [Hc1 Hc2];
            split; [|done]; rewrite Hc1; unfold content; by rewrite Hf).
  all: intros Hex Hne;
       rewrite copy_file_absent in Hcopy
         by (by rewrite (exists_at_mkdir _ _ _ _ _ Hmk));
       injection Hcopy as <- <-; by rewrite Hf.
Qed.

(** ** Check-in *)

Lemma to_int_range z : is_int (to_int z).
Proof.
  unfold is_int, to_int, INT_MIN, INT_MAX.
  pose proof (Z.mod_pos_bound (z + 2 ^ 31) (2 ^ 32)). lia.
Qed.

Lemma to_long_range z : is_long (to_long z).
Proof.
  unfold is_long, to_long, LONG_MIN, LONG_MAX.
  pose proof (Z.mod_pos_bound (z + 2 ^ 63) (2 ^ 64)). lia.
Qed.

Lemma stat_long p w : ∀ s, fst (stat p w) = Some s → is_long s.
Proof.
  unfold stat. simpl. destruct (exists_at p w); [|done].
  intros s [= <-]. apply to_long_range.
Qed.

Lemma strncpy_hash_good (h : cstr) :
  Forall safe_char h → good_hash (strncpy_z MAX_HASH_LEN h).
Proof.
  intros Hall. apply safe_chars_good.
  - by apply Forall_take.
  - unfold strncpy_z, MAX_HASH_LEN. rewrite length_take. lia.
Qed.

(** What a call of [checkin_file] comes to: either [-1], with the repository
    as it was, or the next version number, with one record more in front,
    its snapshot stored and the metadata saved from the world [w1]. *)
Lemma checkin_file_spec repo name cmt w v repo' w' :
  checkin_file repo name cmt w = ((v, repo'), w') →
  let next := to_int (get_latest_version repo name + 1) in
  let vd := version_dir (cwd w) name in
  let vf := version_file (cwd w) name next in
  (v = -1 ∧ repo' = repo ∧ same_env w w' ∧
   (∀ p, p ≠ vf → files w' !! p = files w !! p) ∧
   (exists_at name w = false → name ≠ vd → files w' = files w))
  ∨
  (∃ rec w1 s,
     v = next ∧
     repo' = mkRepository (base_path repo) (to_int (total_versions repo + 1))
               (rec :: version_list repo) ∧
     filename rec = strncpy_z MAX_FILENAME_LEN name ∧
     version_number rec = next ∧
     comment rec = strncpy_z MAX_COMMENT_LEN cmt ∧
     good_hash (hash rec) ∧ is_long (timestamp rec) ∧ is_long (file_size rec) ∧
     save_metadata repo' w1 = (s, w') ∧
     same_env w w1 ∧
     (dirs w1 = dirs w ∨ dirs w1 = {[vd]} ∪ dirs w) ∧
     (∀ p, p ≠ vf → files w1 !! p = files w !! p) ∧
     (name ≠ vf → content vf w1 = content name w ∧ is_Some (files w1 !! vf)) ∧
     (exists_at name w = true ∨ name = vd)).
Proof.
  intros Hci next vd vf. revert Hci.
  unfold checkin_file. fold next. unfold bind at 1.
  destruct (create_version_file name next w) as [r wa] eqn:Hcv.
  pose proof (create_version_file_spec _ _ _ _ _ Hcv)
    as (Henv & Hheap & Hclock & Hframe & Hdirs & Hr & Hsnap & Habs).
  fold vd vf in Hframe, Hdirs, Hsnap, Habs.
  destruct (Z.eqb_spec r 0) as [->|Hr0]; cbn [negb].
  2:{ intros [= <- <- <-]. left. do 4 (split; [done|]).
      intros Hex Hne. by destruct (Habs Hex Hne). }
  assert (Hsrc : exists_at name w = true ∨ name = vd).
  { destruct (exists_at name w) eqn:Hex; [by left|].
    destruct (decide (name = vd)) as [|Hne]; [by right|].
    by destruct (Habs eq_refl Hne). }
  unfold bind at 1. destruct (malloc wa) as [[blk|] wb] eqn:Hm.
  2:{ apply malloc_ticks in Hm. intros [= <- <- <-]. left.
      split; [done|]. split; [done|].
      split; [eapply same_env_trans; [done|by apply ticks_same_env]|].
      split; [intros p Hp; rewrite (ticks_files wa wb) by done; by apply Hframe|].
      intros Hex Hne. by destruct (Habs Hex Hne). }
  apply malloc_ticks in Hm.
  unfold bind at 1. destruct (generate_file_hash name wb) as [h wc] eqn:Hh.
  apply generate_file_hash_spec in Hh as [Hhc Hhash].
  unfold bind at 1. destruct (time wc) as [now wd] eqn:Ht.
  apply time_ticks in Ht.
  unfold bind at 1. destruct (stat name wd) as [st we] eqn:Hst.
  assert (we = wd) as -> by (unfold stat in Hst; by injection Hst).
  pose proof (stat_long name wd) as Hlong. rewrite Hst in Hlong. simpl in Hlong.
  assert (Hticks : ticks wa wd) by eauto using ticks_trans.
  unfold bind at 1.
  match goal with |- context [save_metadata ?r wd] => set (repo1 := r) end.
  destruct (save_metadata repo1 wd) as [s w2] eqn:Hsave.
  intros [= <- <- <-]. right.
  eexists _, wd, s. split; [done|]. split; [reflexivity|].
  split; [by destruct st, h|]. split; [by destruct st, h|].
  split; [by destruct st, h|].
  split.
  { destruct st; simpl; (destruct h as [h|];
      [rewrite (Hhash h eq_refl);
       apply strncpy_hash_good, hash_text_safe|apply unknown_good]). }
  split; [destruct st, h; simpl; apply to_long_range|].
  split; [destruct st as [sz|], h; simpl; by auto|].
  split; [done|].
  split; [eapply same_env_trans; [done|by apply ticks_same_env]|].
  split; [by rewrite (ticks_dirs wa wd)|].
  split; [intros p Hp; rewrite (ticks_files wa wd) by done; by apply Hframe|].
  split; [|done].
  intros Hne. destruct (Hsnap eq_refl Hne) as [Hc Hs].
  rewrite (ticks_content vf wa wd), (ticks_files wa wd) by done. done.
Qed.

Lemma load_line_ticks line repo w : ticks w (snd (load_line line repo w)).
Proof.
  unfold load_line. destruct (_ || _); [apply ticks_refl|].
  destruct (strncmp_eq line _ 15); [apply ticks_refl|].
  destruct (strncmp_eq line _ 5); [|apply ticks_refl].
  unfold bind. destruct (malloc w) as [[blk|] w1] eqn:Hm;
    by apply malloc_ticks in Hm.
Qed.

Lemma load_loop_ticks fuel : ∀ stream repo w,
  ticks w (snd (load_loop fuel stream repo w)).
Proof.
  induction fuel as [|k IH]; intros stream repo w; cbn [load_loop];
    destruct (fgets 1024 stream) as [[line rest]|]; try apply ticks_refl.
  unfold bind. pose proof (load_line_ticks (c_str line) repo w) as H1.
  destruct (load_line (c_str line) repo w) as [repo1 w1]. simpl in H1.
  eapply ticks_trans; [exact H1|apply IH].
Qed.

(** Loading reads: only the allocator moves. *)
Lemma load_metadata_ticks repo w : ticks w (snd (load_metadata repo w)).
Proof.
  unfold load_metadata, bind, fopen_r, ret. cbv beta iota.
  destruct (_ && _); [|apply ticks_refl]. cbn [negb].
  pose proof (load_loop_ticks (length (content (metadata_path repo) w))
                (content (metadata_path repo) w) repo w) as H.
  by destruct (load_loop _ _ repo w).
Qed.

Lemma load_repository_ticks path w : ticks w (snd (load_repository path w)).
Proof.
  unfold load_repository, bind, ret.
  destruct (malloc w) as [[blk|] w1] eqn:Hm; apply malloc_ticks in Hm; [|done].
  pose proof (load_metadata_ticks (mkRepository (strncpy_z MAX_PATH_LEN path) 0 []) w1)
    as H.
  destruct (load_metadata _ w1) as [[status repo'] w2]. simpl in H.
  destruct (negb (status =? 0)); eauto using ticks_trans.
Qed.

(** [vcs checkin name ...] on a name at which nothing exists: exit code 1,
    and only the allocator has moved. [checkin_file] is not called. *)
Lemma main_checkin_missing_source prog name rest w :
  exists_at name w = false →
  fst (main (prog :: c{"checkin"} :: name :: rest) w) = 1 ∧
  ticks w (snd (main (prog :: c{"checkin"} :: name :: rest) w)).
Proof.
  intros Hex. unfold main.
  change (strcmp_eq c{"checkin"} c{"init"}) with false.
  change (strcmp_eq c{"checkin"} c{"checkin"}) with true.
  unfold bind, getcwd, repository_exists, ret. cbv beta iota.
  destruct (_ && _); cbn [negb]; [|split; [done|apply ticks_refl]].
  pose proof (load_repository_ticks (cwd w) w) as Hl.
  destruct (load_repository (cwd w) w) as [[repo|] w1]; simpl in Hl;
    [|by split].
  unfold file_exists, bind, stat, ret. cbv beta iota.
  rewrite (ticks_exists_at name w w1) by done. rewrite Hex.
  rewrite bool_decide_eq_false_2 by (by intros [? ?]). by split.
Qed.

(** A name without a slash, of less than 256 characters, is not the path of
    its version directory: the path is longer. *)
Lemma version_dir_other current_dir name :
  "/"%char ∉ name → (length name < MAX_FILENAME_LEN)%nat →
  name ≠ version_dir current_dir name.
Proof.
  intros Hslash Hlen Heq. apply (f_equal length) in Heq. revert Heq.
  unfold version_dir, basename, snprintf, MAX_PATH_LEN, MAX_FILENAME_LEN in *.
  rewrite bool_decide_eq_false_2 by done.
  rewrite length_take, !length_app. cbn [length list_ascii_of_string VCS_DIR]. lia.
Qed.

(** Which file a path names. *)
Lemma not_same_file_ne w p q : ¬ same_file w p q → p ≠ q.
Proof. intros H ->. by apply H. Qed.

Lemma missing_exists_at w p : missing w p → exists_at p w = false.
Proof.
  intros Hm. unfold missing in Hm. rewrite Forall_forall in Hm.
  unfold exists_at. apply orb_false_iff. split; apply bool_decide_eq_false_2.
  - intros [x Hx]. apply (Hm p); [|done]. unfold existing.
    apply elem_of_app. left. apply list_elem_of_fmap. exists (p, x).
    split; [done|]. by apply elem_of_map_to_list.
  - intros Hin. apply (Hm p); [|done]. unfold existing.
    apply elem_of_app. right. by apply elem_of_elements.
Qed.

(** C6, as the code has it. The name names nothing that exists, under any
    spelling. The command [vcs checkin] ends with the exit code 1 before it
    calls [checkin_file], and leaves every file and directory as it was.
    [checkin_file] itself returns [-1], with the repository it was given (no
    record more, the same count) and with no file written, the metadata file
    least of all, when the name does not name the directory the store keeps
    for it: that directory [create_version_file] makes before it opens the
    source. *)
Theorem checkin_file_missing_source repo name cmt w :
  missing w name →
  (∀ prog rest,
     fst (main (prog :: c{"checkin"} :: name :: rest) w) = 1 ∧
     files (snd (main (prog :: c{"checkin"} :: name :: rest) w)) = files w ∧
     dirs (snd (main (prog :: c{"checkin"} :: name :: rest) w)) = dirs w) ∧
  (¬ same_file w name (version_dir (cwd w) name) →
   fst (checkin_file repo name cmt w) = (-1, repo) ∧
   files (snd (checkin_file repo name cmt w)) = files w).
Proof.
  intros Hmiss. pose proof (missing_exists_at _ _ Hmiss) as Hex. split.
  - intros prog rest.
    destruct (main_checkin_missing_source prog name rest w Hex) as [H1 H2].
    split; [done|]. split; [by apply ticks_files|by apply ticks_dirs].
  - intros Hne%not_same_file_ne.
    destruct (checkin_file repo name cmt w) as [[v repo'] w'] eqn:Hci.
    apply checkin_file_spec in Hci as [(-> & -> & _ & _ & Hfiles)|Hok].
    + simpl. auto.
    + destruct Hok as (rec & w1 & s & _ & _ & _ & _ & _ & _ & _ & _ & _ & _ & _
                       & _ & _ & [Hsrc|Hsrc]); congruence.
Qed.

Lemma checkin_file_missing_source_witness :
  let w := example_world [] in
  missing w c{"b.txt"} ∧
  ¬ same_file w c{"b.txt"} (version_dir (cwd w) c{"b.txt"}) ∧
  (∀ prog rest,
     fst (main (prog :: c{"checkin"} :: c{"b.txt"} :: rest) w) = 1 ∧
     files (snd (main (prog :: c{"checkin"} :: c{"b.txt"} :: rest) w)) = files w ∧
     dirs (snd (main (prog :: c{"checkin"} :: c{"b.txt"} :: rest) w)) = dirs w) ∧
  fst (checkin_file empty_repository c{"b.txt"} c{"first"} w)
  = (-1, empty_repository) ∧
  files (snd (checkin_file empty_repository c{"b.txt"} c{"first"} w)) = files w.
Proof.
  intros w.
  assert (H1 : missing w c{"b.txt"}) by decide_by_compute.
  assert (H2 : ¬ same_file w c{"b.txt"} (version_dir (cwd w) c{"b.txt"}))
    by decide_by_compute.
  do 2 (split; [assumption|]).
  exact (conj
           (proj1 (checkin_file_missing_source
                     empty_repository c{"b.txt"} c{"first"} w H1))
           (proj2 (checkin_file_missing_source
                     empty_repository c{"b.txt"} c{"first"} w H1) H2)).
Defined.

(** C6 as it is stated fails. Nothing exists at [/w/.vcs/versions/x], the
    path of the directory the store keeps for that very name:
    [create_version_file] makes the directory, [copy_file] opens it as the
    source, and the check-in returns [1], with a record more, the count at 1
    and the metadata file written. *)
Lemma checkin_file_of_version_dir_succeeds :
  let w := example_world [100; 100] in
  let name := c{"/w/.vcs/versions/x"} in
  let r := checkin_file empty_repository name c{"first"} w in
  missing w name ∧ exists_at name w = false ∧
  name = version_dir (cwd w) name ∧
  fst (fst r) = 1 ∧
  (filename <$> version_list (snd (fst r))) = [name] ∧
  total_versions (snd (fst r)) = 1 ∧
  files w !! metadata_path empty_repository = None ∧
  content (metadata_path empty_repository) (snd r) = metadata_text (snd (fst r)).
Proof.
  intros w name r. split; [decide_by_compute|]. vm_compute. auto 10.
Qed.

(** ** Failures of the stores *)

(** A failure of the Snapshot Store in check-in is the failure of check-in. *)
Lemma checkin_file_snapshot_failure repo name cmt w :
  fst (create_version_file name
         (to_int (get_latest_version repo name + 1)) w) ≠ 0 →
  fst (checkin_file repo name cmt w) = (-1, repo).
Proof.
  unfold checkin_file, bind.
  destruct (create_version_file _ _ w) as [r wa]. simpl. intros Hr.
  by destruct (Z.eqb_spec r 0).
Qed.

(** A failure of the Snapshot Store in rollback is the failure of rollback. *)
Lemma rollback_restore_failure repo name version w :
  fst (restore_version_file name version w) ≠ 0 →
  fst (rollback_to_version repo name version w) = (-1, repo).
Proof.
  unfold rollback_to_version, bind.
  destruct (find_file_version repo name version); [|done].
  destruct (restore_version_file name version w) as [r wa]. simpl. intros Hr.
  by destruct (Z.eqb_spec r 0).
Qed.

(** The result of [save_metadata] does not reach the result of check-in:
    whatever [save_metadata] returns, a check-in that stored its snapshot and
    got its block returns the new version number. *)
Lemma checkin_file_result_without_save repo name cmt w wa blk wb :
  create_version_file name (to_int (get_latest_version repo name + 1)) w
  = (0, wa) →
  malloc wa = (Some blk, wb) →
  fst (fst (checkin_file repo name cmt w))
  = to_int (get_latest_version repo name + 1).
Proof.
  intros Hcv Hm. unfold checkin_file, bind. rewrite Hcv. cbn [Z.eqb negb].
  rewrite Hm.
  destruct (generate_file_hash name wb) as [h wc].
  destruct (time wc) as [now wd]. destruct (stat name wd) as [st we].
  by destruct (save_metadata _ we).
Qed.

(** C7, at an input on which the code breaks it. The metadata file of
    [readonly_world] does not open for writing: [save_metadata] returns [-1]
    there and writes nothing, and yet the first check-in of [a.txt] returns
    [1], the version number of a success. *)
Theorem checkin_file_swallows_save_failure :
  let r := checkin_file empty_repository c{"a.txt"} c{"first"}
             (readonly_world [100; 100]) in
  fst (fst r) = 1 ∧
  fst (save_metadata (snd (fst r)) (snd r)) = -1 ∧
  files (snd r) !! metadata_path empty_repository = None.
Proof. vm_compute. auto. Qed.

(** ** Tolerance of the load *)

(** [load_metadata] never fails. *)
Lemma load_metadata_status repo w : fst (fst (load_metadata repo w)) = 0.
Proof.
  unfold load_metadata, bind, fopen_r, ret. cbv beta iota.
  destruct (_ && _); [|done]. cbn [negb].
  by destruct (load_loop _ _ repo w).
Qed.

(** A line that is neither a comment, nor blank, nor a count, nor a record is
    skipped. *)
Lemma load_line_unrecognised (line : cstr) repo w :
  strncmp_eq line c{"TOTAL_VERSIONS="} 15 = false →
  strncmp_eq line c{"FILE="} 5 = false →
  load_line line repo w = (repo, w).
Proof.
  intros H1 H2. unfold load_line. rewrite H1, H2. by destruct (_ || _).
Qed.

(** A [FILE=] line always gives a record when the block is there, whatever
    fields it lacks. *)
Lemma load_line_record (line : cstr) repo w blk h :
  heap w = Some blk :: h →
  load_line (c{"FILE="} ++ line) repo w
  = (set_version_list
       (parse_version (c{"FILE="} ++ line) blk :: version_list repo) repo,
     set_heap h w).
Proof.
  intros Hh. rewrite load_line_file. by rewrite (malloc_some blk h).
Qed.

(** Without its tokens a line leaves every field of the block as it was. *)
Lemma parse_version_no_token blk : parse_version c{"FILE="} blk = blk.
Proof. by destruct blk. Qed.

(** A line with a name and nothing else sets the name and leaves the other
    five fields as the block held them. *)
Lemma parse_version_name_only (name : cstr) blk :
  name ≠ [] → BAR ∉ name →
  parse_version (c{"FILE="} ++ name) blk
  = set_filename (strncpy_z MAX_FILENAME_LEN name) blk.
Proof.
  intros Hne Hbar. unfold parse_version.
  rewrite (drop_key c{"FILE="}) by done.
  destruct name as [|x name]; [done|].
  apply not_elem_of_cons in Hbar as [Hx Hbar].
  rewrite strtok_last by done.
  rewrite str_before_none, (not_elem_of_str_after BAR name) by done.
  done.
Qed.

(** C5, at an input on which the code breaks it. The line
    [FILE=a.txt|VERSION=1] has no timestamp, size, hash or comment. Loaded
    into a block that was used before, the record keeps what the block held
    in those fields: they are not zero. The load itself returns [0]. *)
Theorem load_metadata_stale_fields :
  let r := load_metadata empty_repository
             (stale_world (c{"FILE=a.txt|VERSION=1"} ++ [NL])) in
  fst (fst r) = 0 ∧
  version_list (snd (fst r))
  = [mkFileVersion c{"a.txt"} c{"deadbeef"} 1 42 c{"stale"} 7].
Proof. vm_compute. auto. Qed.

(** On a block that reads as zeros the same line gives the defaults. *)
Lemma load_metadata_zero_fields :
  version_list
    (snd (fst (load_metadata empty_repository
                 (example_world_with_metadata (c{"FILE=a.txt|VERSION=1"} ++ [NL])))))
  = [mkFileVersion c{"a.txt"} [] 1 0 [] 0].
Proof. vm_compute. auto. Qed.

(** ** The hash and the clock *)

Lemma rem_10000_long t : is_long (Z.rem t 10000).
Proof.
  pose proof (Z.rem_bound_abs t 10000).
  unfold is_long, LONG_MIN, LONG_MAX. lia.
Qed.

(** Two hash strings of the same accumulator are the same string exactly
    when the two times agree modulo 10000. *)
Lemma hash_text_eq_iff hash t1 t2 :
  hash_text hash t1 = hash_text hash t2
  ↔ Z.rem (to_long t1) 10000 = Z.rem (to_long t2) 10000.
Proof.
  rewrite !hash_text_whole. split.
  - intros H%app_inv_head. apply fmt_d_inj in H; auto using rem_10000_long.
  - by intros ->.
Qed.

(** C8, as the code has it. Two runs of [generate_file_hash] on a file with
    the same bytes, both returning a string, return different strings exactly
    when the two times of the clock differ modulo 10000: the hash is not a
    function of the content alone, but two times that agree modulo 10000 give
    the same string. *)
Theorem generate_file_hash_differs_iff p w1 w2 h1 h2 :
  content p w1 = content p w2 →
  fst (generate_file_hash p w1) = Some h1 →
  fst (generate_file_hash p w2) = Some h2 →
  h1 ≠ h2
  ↔ Z.rem (to_long (current_time w1)) 10000
    ≠ Z.rem (to_long (current_time w2)) 10000.
Proof.
  intros Hc H1 H2.
  destruct (generate_file_hash p w1) as [o1 w1'] eqn:Hg1.
  destruct (generate_file_hash p w2) as [o2 w2'] eqn:Hg2.
  simpl in H1, H2. subst o1 o2.
  assert (Hex : ∀ w o w', generate_file_hash p w = (Some o, w') →
                          exists_at p w = true).
  { intros w o w'. unfold generate_file_hash, fopen_r, bind, ret.
    cbv beta iota. by destruct (exists_at p w). }
  pose proof (Hex _ _ _ Hg1) as Hex1. pose proof (Hex _ _ _ Hg2) as Hex2.
  apply generate_file_hash_spec in Hg1 as [_ Hs1].
  apply generate_file_hash_spec in Hg2 as [_ Hs2].
  rewrite (Hs1 h1 eq_refl), (Hs2 h2 eq_refl).
  assert (Hh : file_hash p w1 = file_hash p w2).
  { unfold file_hash, stat. simpl. by rewrite Hex1, Hex2, Hc. }
  rewrite Hh. by rewrite hash_text_eq_iff.
Qed.

Lemma generate_file_hash_differs_iff_witness :
  content c{"a.txt"} (example_world [100]) = content c{"a.txt"} (example_world [200]) ∧
  fst (generate_file_hash c{"a.txt"} (example_world [100]))
  = Some c{"65301d843be100"} ∧
  fst (generate_file_hash c{"a.txt"} (example_world [200]))
  = Some c{"65301d843be200"} ∧
  (c{"65301d843be100"} ≠ c{"65301d843be200"}
   ↔ Z.rem (to_long (current_time (example_world [100]))) 10000
     ≠ Z.rem (to_long (current_time (example_world [200]))) 10000).
Proof.
  split; [reflexivity|]. split; [vm_compute; reflexivity|].
  split; [vm_compute; reflexivity|].
  apply (generate_file_hash_differs_iff c{"a.txt"}
           (example_world [100]) (example_world [200]));
    vm_compute; reflexivity.
Defined.

(** C8 as it is stated fails: two check-ins of the same bytes at the times
    [100] and [10100], two different times, record the same hash string. *)
Lemma checkin_same_hash_at_two_times :
  let r1 := checkin_file empty_repository c{"a.txt"} c{"first"}
              (example_world [100; 100; 10100; 10100]) in
  let r2 := checkin_file (snd (fst r1)) c{"a.txt"} c{"second"} (snd r1) in
  fst (fst r1) = 1 ∧ fst (fst r2) = 2 ∧
  content c{"/w/.vcs/versions/a.txt/v1"} (snd r2)
  = content c{"/w/.vcs/versions/a.txt/v2"} (snd r2) ∧
  (timestamp <$> version_list (snd (fst r2))) = [10100; 100] ∧
  (hash <$> version_list (snd (fst r2)))
  = [c{"65301d843be100"}; c{"65301d843be100"}].
Proof. vm_compute. auto. Qed.

(** ** Saving, then loading *)

Lemma loaded_id v : BAR ∉ comment v → loaded v = v.
Proof.
  intros H. unfold loaded. rewrite str_before_none by done. by destruct v.
Qed.

Lemma loaded_fmap_id vs :
  Forall (λ v, BAR ∉ comment v) vs → loaded <$> vs = vs.
Proof.
  induction 1 as [|v vs Hv _ IH]; [done|]. rewrite fmap_cons.
  by rewrite loaded_id, IH.
Qed.

(** Saving a repository and loading the file into a fresh one: the count is
    read back, and the records come back in the reverse order, each with its
    comment cut at the first [|]. *)
Lemma reload_spec repo (junks : list FileVersion) blocks w :
  Forall storable (version_list repo) → is_int (total_versions repo) →
  metadata_path repo ∉ unwritable w → metadata_path repo ∉ dirs w →
  capacity w !! metadata_path repo = None →
  metadata_path repo ∉ unreadable w →
  length junks = length (version_list repo) →
  fst (save_metadata repo w) = 0 ∧
  reload repo ((Some <$> junks) ++ blocks) w
  = (0, mkRepository (base_path repo) (total_versions repo)
          (reverse (loaded <$> version_list repo))).
Proof.
  intros Hvs Hint Hw Hd Hcap Hr Hlen. unfold reload.
  rewrite save_metadata_written by done. split; [done|]. cbn [fst snd].
  erewrite (load_metadata_text repo); cbn [fst]; try done.
  - cbn [version_list base_path]. by rewrite app_nil_r.
  - simpl. by rewrite lookup_insert_eq.
Qed.

(** C2, as the code has it. A history of storable records whose comments
    have no [|], saved and loaded into a fresh repository, comes back with
    the same count and the same records in the reverse order: [load_metadata]
    puts each line it reads in front of the lines before it. *)
Theorem load_save_reverses repo (junks : list FileVersion) blocks w :
  Forall storable (version_list repo) →
  Forall (λ v, BAR ∉ comment v) (version_list repo) →
  is_int (total_versions repo) →
  metadata_path repo ∉ unwritable w → metadata_path repo ∉ dirs w →
  capacity w !! metadata_path repo = None →
  metadata_path repo ∉ unreadable w →
  length junks = length (version_list repo) →
  fst (save_metadata repo w) = 0 ∧
  reload repo ((Some <$> junks) ++ blocks) w
  = (0, mkRepository (base_path repo) (total_versions repo)
          (reverse (version_list repo))).
Proof.
  intros Hvs Hbar Hint Hw Hd Hcap Hr Hlen.
  destruct (reload_spec repo junks blocks w) as [Hs Hl]; try done.
  split; [done|]. by rewrite Hl, loaded_fmap_id.
Qed.

Lemma load_save_reverses_witness :
  Forall storable (version_list example_history) ∧
  Forall (λ v, BAR ∉ comment v) (version_list example_history) ∧
  is_int (total_versions example_history) ∧
  (metadata_path example_history ∉ unwritable (example_world [])) ∧
  (metadata_path example_history ∉ dirs (example_world [])) ∧
  capacity (example_world []) !! metadata_path example_history = None ∧
  (metadata_path example_history ∉ unreadable (example_world [])) ∧
  length [stale_block; stale_block] = length (version_list example_history) ∧
  fst (save_metadata example_history (example_world [])) = 0 ∧
  reload example_history ((Some <$> [stale_block; stale_block]) ++ [])
         (example_world [])
  = (0, mkRepository (base_path example_history)
          (total_versions example_history)
          (reverse (version_list example_history))).
Proof.
  assert (H1 : Forall storable (version_list example_history))
    by decide_by_compute.
  assert (H2 : Forall (λ v, BAR ∉ comment v) (version_list example_history))
    by decide_by_compute.
  assert (H3 : is_int (total_versions example_history))
    by decide_by_compute.
  assert (H4 : metadata_path example_history ∉ unwritable (example_world []))
    by decide_by_compute.
  assert (H5 : metadata_path example_history ∉ dirs (example_world []))
    by decide_by_compute.
  assert (H6 : capacity (example_world []) !! metadata_path example_history = None)
    by (vm_compute; reflexivity).
  assert (H7 : metadata_path example_history ∉ unreadable (example_world []))
    by decide_by_compute.
  do 7 (split; [assumption|]). split; [reflexivity|].
  apply (load_save_reverses example_history [stale_block; stale_block] []
           (example_world []) H1 H2 H3 H4 H5 H6 H7 eq_refl).
Defined.

(** C2 as it is stated fails: the comments of [example_history] have no [|],
    it is saved and loaded without a failure, and what is loaded is not
    [example_history]: its two records have changed places. *)
Lemma load_save_not_identity :
  Forall (λ v, BAR ∉ comment v) (version_list example_history) ∧
  fst (save_metadata example_history (example_world [])) = 0 ∧
  fst (reload example_history [Some zero_block; Some zero_block]
         (example_world [])) = 0 ∧
  version_list (snd (reload example_history [Some zero_block; Some zero_block]
                       (example_world [])))
  ≠ version_list example_history.
Proof.
  split; [decide_by_compute|].
  split; [vm_compute; reflexivity|]. split; [vm_compute; reflexivity|].
  vm_compute. congruence.
Qed.

(** ** Listing *)

(** The rows are the records of the name, in the order of the list. *)
Lemma list_rows_filter vs name :
  list_rows vs name = row_of <$> filter (λ v, filename v = name) vs.
Proof.
  induction vs as [|v vs IH]; [done|]. simpl. unfold strcmp_eq.
  rewrite filter_cons. case_bool_decide; rewrite decide_bool_decide;
    case_bool_decide; try done; by rewrite IH.
Qed.

Lemma list_rows_reverse vs name :
  list_rows (reverse vs) name = reverse (list_rows vs name).
Proof. by rewrite !list_rows_filter, filter_reverse, fmap_reverse. Qed.

Lemma strncpy_short (n : nat) (s : cstr) :
  (length s < n)%nat → strncpy_z n s = s.
Proof. intros H. unfold strncpy_z. apply take_ge. lia. Qed.

(** C4, as the code has it. The rows of a name shorter than 256 characters
    are its records in the order of the list in memory. A check-in that does
    not return [-1] puts the row of the new version first, so the versions
    checked in since the repository was loaded are listed most recent first.
    A repository loaded from a saved history has the rows of that history in
    the reverse order, what was first when it was saved being listed last:
    this for a history of storable records whose comments have no [|] and
    whose count fits an [int], a metadata file that opens for writing, is no
    directory, has no limit of size and opens for reading, and an allocator
    that has a block for each record. *)
Theorem list_versions_order repo name :
  (length name < MAX_FILENAME_LEN)%nat →
  (∀ cmt w, fst (fst (checkin_file repo name cmt w)) ≠ -1 →
     ∃ row, row_version row = fst (fst (checkin_file repo name cmt w)) ∧
            snd (list_versions (snd (fst (checkin_file repo name cmt w))) name)
            = row :: snd (list_versions repo name)) ∧
  (∀ (junks : list FileVersion) blocks w,
     Forall storable (version_list repo) →
     Forall (λ v, BAR ∉ comment v) (version_list repo) →
     is_int (total_versions repo) →
     metadata_path repo ∉ unwritable w → metadata_path repo ∉ dirs w →
     capacity w !! metadata_path repo = None →
     metadata_path repo ∉ unreadable w →
     length junks = length (version_list repo) →
     snd (list_versions (snd (reload repo ((Some <$> junks) ++ blocks) w)) name)
     = reverse (snd (list_versions repo name))).
Proof.
  intros Hname. split.
  - intros cmt w Hok.
    destruct (checkin_file repo name cmt w) as [[v repo'] w'] eqn:Hci.
    simpl in Hok |- *.
    apply checkin_file_spec in Hci as [(-> & _)|Hci]; [done|].
    destruct Hci as (rec & w1 & s & -> & -> & Hf & Hv & _).
    exists (row_of rec). split; [done|].
    unfold list_versions. cbn [version_list list_rows].
    rewrite Hf, strncpy_short by done. unfold strcmp_eq.
    rewrite bool_decide_eq_true_2 by done.
    by destruct (list_rows (version_list repo) name).
  - intros junks blocks w Hvs Hbar Hint Hw Hd Hcap Hr Hlen.
    destruct (reload_spec repo junks blocks w) as [_ ->]; try done.
    rewrite loaded_fmap_id by done.
    assert (Hsnd : ∀ r, snd (list_versions r name) = list_rows (version_list r) name).
    { intros r. unfold list_versions. by destruct (list_rows _ _). }
    rewrite !Hsnd. cbn [snd version_list]. apply list_rows_reverse.
Qed.

Lemma list_versions_order_witness :
  (length c{"a.txt"} < MAX_FILENAME_LEN)%nat ∧
  (∀ cmt w,
     fst (fst (checkin_file example_history c{"a.txt"} cmt w)) ≠ -1 →
     ∃ row,
       row_version row = fst (fst (checkin_file example_history c{"a.txt"} cmt w)) ∧
       snd (list_versions
              (snd (fst (checkin_file example_history c{"a.txt"} cmt w)))
              c{"a.txt"})
       = row :: snd (list_versions example_history c{"a.txt"})) ∧
  (∀ (junks : list FileVersion) blocks w,
     Forall storable (version_list example_history) →
     Forall (λ v, BAR ∉ comment v) (version_list example_history) →
     is_int (total_versions example_history) →
     metadata_path example_history ∉ unwritable w →
     metadata_path example_history ∉ dirs w →
     capacity w !! metadata_path example_history = None →
     metadata_path example_history ∉ unreadable w →
     length junks = length (version_list example_history) →
     snd (list_versions
            (snd (reload example_history ((Some <$> junks) ++ blocks) w))
            c{"a.txt"})
     = reverse (snd (list_versions example_history c{"a.txt"}))).
Proof.
  split; [vm_compute; lia|].
  apply (list_versions_order example_history c{"a.txt"}). vm_compute. lia.
Defined.

(** C4 as it is stated fails: in the repository loaded from the saved
    [example_history] the latest version of [a.txt] is 2, and version 1 is
    listed first. *)
Lemma list_versions_after_load_oldest_first :
  let loaded := snd (reload example_history
                       [Some zero_block; Some zero_block] (example_world [])) in
  get_latest_version loaded c{"a.txt"} = 2 ∧
  fst (list_versions loaded c{"a.txt"}) = 0 ∧
  (row_version <$> snd (list_versions loaded c{"a.txt"})) = [1; 2].
Proof. vm_compute. auto. Qed.

(** ** The sequence of version numbers *)

Lemma latest_from_int vs name :
  int_versions vs → 0 <= latest_from 0 vs name <= INT_MAX.
Proof.
  intros Hall. split; [apply latest_from_nonneg|].
  induction Hall as [|v vs [_ Hv] _ IH]; [simpl; by unfold INT_MAX|].
  rewrite latest_from_cons. destruct (strcmp_eq _ _); lia.
Qed.

(** The next number of a counter that has not overflowed is not wrapped. *)
Lemma next_version_positive k :
  0 <= k <= INT_MAX → 0 < to_int (k + 1) → to_int (k + 1) = k + 1.
Proof.
  unfold INT_MAX, to_int. intros Hk Hpos.
  destruct (Z.eq_dec k (2 ^ 31 - 1)) as [->|Hne].
  - exfalso. revert Hpos. by vm_compute.
  - rewrite Z.mod_small; lia.
Qed.

(** What one check-in does to the latest version of a name. *)
Lemma checkin_file_latest repo name cmt w f v repo' w' :
  (length name < MAX_FILENAME_LEN)%nat → int_versions (version_list repo) →
  checkin_file repo name cmt w = ((v, repo'), w') →
  int_versions (version_list repo') ∧
  (name = f → 0 < v →
     v = get_latest_version repo f + 1 ∧ get_latest_version repo' f = v) ∧
  (¬ (name = f ∧ 0 < v) → get_latest_version repo' f = get_latest_version repo f).
Proof.
  intros Hlen Hint Hci.
  pose proof (latest_from_int _ name Hint) as Hk.
  apply checkin_file_spec in Hci as [(-> & -> & _)|Hci].
  { split; [done|]. split; [lia|done]. }
  destruct Hci as (rec & w1 & s & -> & -> & Hf & Hv & _).
  rewrite strncpy_short in Hf by done.
  split; [constructor; [rewrite Hv; apply to_int_range|done]|].
  set (repo' := mkRepository _ _ _).
  assert (Hl : get_latest_version repo' f
               = if bool_decide (name = f)
                 then Z.max (to_int (get_latest_version repo name + 1))
                            (get_latest_version repo f)
                 else get_latest_version repo f).
  { unfold get_latest_version at 1. unfold repo'. cbn [version_list].
    by rewrite latest_from_cons, Hf, Hv. }
  rewrite Hl. clear Hl. unfold get_latest_version in *. split.
  - intros <- Hpos. rewrite bool_decide_eq_true_2 by done.
    rewrite next_version_positive by done. split; lia.
  - intros Hnot. case_bool_decide as Hn; [|done]. subst f.
    assert (to_int (latest_from 0 (version_list repo) name + 1) <= 0)
      by (apply Z.nlt_ge; intros H; by apply Hnot).
    lia.
Qed.

(** In one process the check-ins of a name that succeed are numbered
    [k + 1], [k + 2], ... from its latest version [k], whatever other names
    are checked in between and whichever calls fail. *)
Lemma run_checkins_sequence f script : ∀ repo w,
  Forall (λ nc, (length nc.1 < MAX_FILENAME_LEN)%nat) script →
  int_versions (version_list repo) →
  let numbers := assigned f (run_checkins repo script w).1.1 in
  numbers = seqZ (get_latest_version repo f + 1) (Z.of_nat (length numbers)) ∧
  get_latest_version (run_checkins repo script w).1.2 f
  = get_latest_version repo f + Z.of_nat (length numbers).
Proof.
  induction script as [|[name cmt] script IH]; intros repo w Hnames Hint.
  { simpl. split; [done|lia]. }
  apply Forall_cons in Hnames as [Hname Hnames]. simpl in Hname.
  cbn [run_checkins].
  destruct (checkin_file repo name cmt w) as [[v repo1] w1] eqn:Hci.
  destruct (checkin_file_latest _ _ _ _ f _ _ _ Hname Hint Hci)
    as (Hint1 & Hhit & Hmiss).
  specialize (IH repo1 w1 Hnames Hint1).
  destruct (run_checkins repo1 script w1) as [[results repo2] w2].
  cbn [fst snd] in *. unfold assigned in *. rewrite filter_cons.
  destruct (decide ((name, v).1 = f ∧ 0 < (name, v).2)) as [[Hn Hv]|Hno];
    cbn [fst snd] in *.
  - destruct (Hhit Hn Hv) as [Hv1 Hl1]. rewrite fmap_cons. cbn [length snd].
    destruct IH as [IH1 IH2]. rewrite Hl1 in IH1, IH2. split; [|lia].
    rewrite seqZ_cons by lia. rewrite <- Hv1. f_equal.
    rewrite IH1 at 1. f_equal; lia.
  - rewrite (Hmiss Hno) in IH. done.
Qed.

Lemma storable_int_versions vs : Forall storable vs → int_versions vs.
Proof.
  intros H. eapply Forall_impl; [exact H|].
  by intros v (?&?&?&?&?&?&?&?&?&?&?&?).
Qed.

Lemma latest_from_loaded vs name :
  latest_from 0 (loaded <$> vs) name = latest_from 0 vs name.
Proof.
  induction vs as [|v vs IH]; [done|].
  rewrite fmap_cons, !latest_from_cons, IH. done.
Qed.

(** Saving and loading keeps the latest version of every name. *)
Lemma reload_latest repo (junks : list FileVersion) blocks w name :
  Forall storable (version_list repo) → is_int (total_versions repo) →
  metadata_path repo ∉ unwritable w → metadata_path repo ∉ dirs w →
  capacity w !! metadata_path repo = None →
  metadata_path repo ∉ unreadable w →
  length junks = length (version_list repo) →
  get_latest_version (snd (reload repo ((Some <$> junks) ++ blocks) w)) name
  = get_latest_version repo name ∧
  int_versions (version_list (snd (reload repo ((Some <$> junks) ++ blocks) w))).
Proof.
  intros Hvs Hint Hw Hd Hcap Hr Hlen.
  destruct (reload_spec repo junks blocks w) as [_ ->]; try done.
  unfold get_latest_version. cbn [snd version_list]. split.
  - by rewrite latest_from_reverse, latest_from_loaded.
  - apply Forall_reverse, Forall_fmap.
    apply storable_int_versions in Hvs.
    eapply Forall_impl; [exact Hvs|]. by intros v Hv.
Qed.

(** C1, as the code has it. In one process, whatever names of less than 256
    characters are checked in and whichever calls fail, the check-ins of a
    name [f] that succeed are numbered [k + 1], [k + 2], ... without a gap or
    a repeat, [k] being the latest version of [f] at the start (0 for a name
    that has no record). And when the records are storable, saving the
    history and loading it into a fresh repository keeps the latest version
    of [f]: the next check-in of [f] that succeeds there is given the number
    after it. *)
Theorem version_numbers_consecutive repo f :
  int_versions (version_list repo) →
  (∀ script w,
     Forall (λ nc, (length nc.1 < MAX_FILENAME_LEN)%nat) script →
     let numbers := assigned f (run_checkins repo script w).1.1 in
     numbers = seqZ (get_latest_version repo f + 1) (Z.of_nat (length numbers))) ∧
  (∀ (junks : list FileVersion) blocks w cmt w',
     (length f < MAX_FILENAME_LEN)%nat →
     Forall storable (version_list repo) → is_int (total_versions repo) →
     metadata_path repo ∉ unwritable w → metadata_path repo ∉ dirs w →
     capacity w !! metadata_path repo = None →
     metadata_path repo ∉ unreadable w →
     length junks = length (version_list repo) →
     let loaded := snd (reload repo ((Some <$> junks) ++ blocks) w) in
     get_latest_version loaded f = get_latest_version repo f ∧
     (0 < fst (fst (checkin_file loaded f cmt w')) →
      fst (fst (checkin_file loaded f cmt w')) = get_latest_version repo f + 1)).
Proof.
  intros Hint. split.
  - intros script w Hnames. by apply run_checkins_sequence.
  - intros junks blocks w cmt w' Hlen Hvs Htot Hw Hd Hcap Hr Hj loaded.
    destruct (reload_latest repo junks blocks w f) as [Hl Hi]; try done.
    fold loaded in Hl, Hi. split; [done|]. intros Hpos.
    destruct (checkin_file loaded f cmt w') as [[v repo'] w''] eqn:Hci.
    destruct (checkin_file_latest _ _ _ _ f _ _ _ Hlen Hi Hci) as (_ & Hhit & _).
    simpl in *. destruct (Hhit eq_refl Hpos) as [-> _]. by rewrite Hl.
Qed.

Lemma version_numbers_consecutive_witness :
  int_versions (version_list example_history) ∧
  (∀ script w,
     Forall (λ nc, (length nc.1 < MAX_FILENAME_LEN)%nat) script →
     let numbers := assigned c{"a.txt"} (run_checkins example_history script w).1.1 in
     numbers = seqZ (get_latest_version example_history c{"a.txt"} + 1)
                    (Z.of_nat (length numbers))) ∧
  (∀ (junks : list FileVersion) blocks w cmt w',
     (length c{"a.txt"} < MAX_FILENAME_LEN)%nat →
     Forall storable (version_list example_history) →
     is_int (total_versions example_history) →
     metadata_path example_history ∉ unwritable w →
     metadata_path example_history ∉ dirs w →
     capacity w !! metadata_path example_history = None →
     metadata_path example_history ∉ unreadable w →
     length junks = length (version_list example_history) →
     let loaded := snd (reload example_history ((Some <$> junks) ++ blocks) w) in
     get_latest_version loaded c{"a.txt"}
     = get_latest_version example_history c{"a.txt"} ∧
     (0 < fst (fst (checkin_file loaded c{"a.txt"} cmt w')) →
      fst (fst (checkin_file loaded c{"a.txt"} cmt w'))
      = get_latest_version example_history c{"a.txt"} + 1)).
Proof.
  assert (H : int_versions (version_list example_history))
    by decide_by_compute.
  split; [exact H|].
  exact (version_numbers_consecutive example_history c{"a.txt"} H).
Defined.

(** The sequence at work: three check-ins of [a.txt] on top of
    [example_history], with a check-in of a missing file in between, are
    given 3, 4 and 5. *)
Example run_checkins_example :
  assigned c{"a.txt"}
    (run_checkins example_history
       [(c{"a.txt"}, c{"third"}); (c{"b.txt"}, c{"none"});
        (c{"a.txt"}, c{"fourth"}); (c{"a.txt"}, c{"fifth"})]
       (example_world [])).1.1
  = [3; 4; 5].
Proof. vm_compute. reflexivity. Qed.

(** C1 as it is stated fails across a restart for a name with a [|]: the
    check-in of [a|b] is given 1 and saves the history; in the repository
    loaded from that file the latest version of [a|b] is 0, and the next
    check-in of [a|b] is given 1 again. *)
Lemma checkin_bar_name_repeats :
  let r1 := checkin_file empty_repository c{"a|b"} c{"first"}
              (bar_world [100; 100; 200; 200]) in
  let loaded := snd (reload (snd (fst r1)) [Some zero_block; Some zero_block]
                       (snd r1)) in
  let r2 := checkin_file loaded c{"a|b"} c{"second"} (snd r1) in
  fst (fst r1) = 1 ∧
  get_latest_version (snd (fst r1)) c{"a|b"} = 1 ∧
  get_latest_version loaded c{"a|b"} = 0 ∧
  fst (fst r2) = 1.
Proof. vm_compute. auto. Qed.

(** In one process the numbers repeat for a name of 256 characters or more:
    the record keeps 255 of them, [get_latest_version] compares all of them
    and finds no record, and every check-in is given 1. *)
Lemma checkin_long_name_repeats :
  let r1 := checkin_file empty_repository long_name c{"first"}
              (long_name_world [100; 100; 200; 200]) in
  let r2 := checkin_file (snd (fst r1)) long_name c{"second"} (snd r1) in
  fst (fst r1) = 1 ∧ fst (fst r2) = 1 ∧
  length (version_list (snd (fst r2))) = 2%nat.
Proof. vm_compute. auto. Qed.

(** ** Rollback *)

Lemma find_from_Some vs name version v :
  find_from vs name version = Some v →
  v ∈ vs ∧ filename v = name ∧ version_number v = version.
Proof.
  induction vs as [|x vs IH]; [done|]. simpl. unfold strcmp_eq.
  destruct (bool_decide (filename x = name) && (version_number x =? version))
    eqn:Hm.
  - intros [= <-]. apply andb_true_iff in Hm as [Hn Hv].
    apply bool_decide_eq_true in Hn. apply Z.eqb_eq in Hv.
    split; [by left|done].
  - intros H. destruct (IH H) as (? & ? & ?). split; [by right|done].
Qed.


Lemma fwrite_frame p data w :
  files_changed [p] w (snd (fwrite p data w)).
Proof. unfold fwrite. apply files_changed_insert. Qed.

Lemma fprintf_frame p s w : files_changed [p] w (snd (fprintf p s w)).
Proof. unfold fprintf, bind, ret. apply fwrite_frame. Qed.

Lemma write_versions_frame p vs : ∀ w,
  files_changed [p] w (snd (write_versions p vs w)).
Proof.
  induction vs as [|v vs IH]; intros w; [apply files_changed_refl|].
  simpl. unfold bind.
  pose proof (fprintf_frame p (version_line v) w) as H1.
  destruct (fprintf p (version_line v) w) as [[] w1]. simpl in H1.
  eapply files_changed_trans; [exact H1|apply IH].
Qed.

(** [save_metadata] writes to the metadata file and to nothing else. *)
Lemma save_metadata_frame repo w :
  files_changed [metadata_path repo] w (snd (save_metadata repo w)).
Proof.
  unfold save_metadata, bind.
  destruct (fopen_w (metadata_path repo) w) as [ok w1] eqn:Hopen.
  apply fopen_w_spec in Hopen as (H1 & _).
  destruct ok; cbn [negb]; [|done].
  set (p := metadata_path repo) in *.
  pose proof (fprintf_frame p (c{"# VCS Metadata File"} ++ [NL]) w1) as H2.
  destruct (fprintf p _ w1) as [[] w2]. simpl in H2.
  pose proof (fprintf_frame p
    (c{"TOTAL_VERSIONS="} ++ fmt_d (total_versions repo) ++ [NL]) w2) as H3.
  destruct (fprintf p _ w2) as [[] w3]. simpl in H3.
  pose proof (fprintf_frame p ([NL] ++ c{"# File Versions"} ++ [NL]) w3) as H4.
  destruct (fprintf p _ w3) as [[] w4]. simpl in H4.
  pose proof (write_versions_frame p (version_list repo) w4) as H5.
  destruct (write_versions p _ w4) as [[] w5]. simpl in H5 |- *.
  eauto using files_changed_trans.
Qed.

(** The snapshot of a name of less than 256 characters is not its working
    file: its path is longer. *)
Lemma snapshot_path_other current_dir name version :
  (length name < MAX_FILENAME_LEN)%nat →
  name ≠ snapshot_path current_dir name version.
Proof.
  intros Hlen Heq. apply (f_equal length) in Heq. revert Heq.
  unfold snapshot_path, snprintf, MAX_PATH_LEN, MAX_FILENAME_LEN in *.
  rewrite length_take, !length_app. cbn [length list_ascii_of_string VCS_DIR]. lia.
Qed.



(** The snapshot of a name without a slash, of less than 256 characters, is
    not its working file: its path is longer. *)
Lemma version_file_other current_dir name version :
  "/"%char ∉ name → (length name < MAX_FILENAME_LEN)%nat →
  name ≠ version_file current_dir name version.
Proof.
  intros Hslash Hlen Heq. apply (f_equal length) in Heq. revert Heq.
  pose proof (fmt_d_nonempty version) as Hne.
  assert (0 < length (fmt_d version))%nat by (destruct (fmt_d version); simpl; [done|lia]).
  unfold version_file, version_dir, basename, snprintf,
    MAX_PATH_LEN, MAX_FILENAME_LEN in *.
  rewrite bool_decide_eq_false_2 by done.
  rewrite !length_take, !length_app, !length_take, !length_app.
  cbn [length list_ascii_of_string VCS_DIR]. lia.
Qed.

(** The metadata file of a repository opened at the working directory is
    not a snapshot, when the path of the working directory leaves room for
    the names of the store in the 512-byte buffers. *)
Lemma metadata_path_other repo current_dir name version :
  base_path repo = current_dir →
  (length current_dir + 20 < MAX_PATH_LEN)%nat →
  metadata_path repo ≠ version_file current_dir name version.
Proof.
  intros Hbase Hlen Heq. unfold MAX_PATH_LEN in Hlen.
  apply (f_equal (λ l, l !! (length current_dir + 14)%nat)) in Heq.
  revert Heq.
  unfold metadata_path, version_file, version_dir, snprintf, MAX_PATH_LEN.
  rewrite Hbase.
  rewrite !lookup_take_lt by lia.
  rewrite (lookup_app_l (take _ _)).
  2:{ rewrite length_take, !length_app.
      cbn [length list_ascii_of_string VCS_DIR]. lia. }
  rewrite !lookup_take_lt by lia.
  rewrite !(lookup_app_r current_dir) by lia.
  replace (length current_dir + 14 - length current_dir)%nat
    with 14%nat by lia.
  simpl. done.
Qed.


(** The scenario of the specification: the two check-ins are given 1 and 2;
    the rollback to version 1 succeeds and makes version 3, whose snapshot
    and the working file hold the bytes of the first check-in; the listing
    has three rows. *)
Example scenario_rollback :
  let repo := snd (fst scenario) in
  let w := snd scenario in
  let r := rollback_to_version repo c{"a.txt"} 1 w in
  fst (fst scenario) = 2 ∧ fst (fst r) = 0 ∧
  get_latest_version (snd (fst r)) c{"a.txt"} = 3 ∧
  content c{"/w/.vcs/versions/a.txt/v3"} (snd r) = c{"hello"} ∧
  content c{"/w/.vcs/versions/a.txt/v2"} (snd r) = c{"world"} ∧
  content c{"a.txt"} (snd r) = c{"hello"} ∧
  (row_version <$> snd (list_versions (snd (fst r)) c{"a.txt"})) = [3; 2; 1].
Proof. vm_compute. auto 10. Qed.

(** ** Storable records *)

Lemma plain_take n (s : cstr) : plain s → plain (take n s).
Proof.
  intros [H1 H2]. split; intros Hin; [apply H1|apply H2];
    by eapply (subseteq_take n s).
Qed.

(** A check-in keeps the history storable when the name can be stored and
    the comment has no newline. *)
Lemma checkin_file_storable repo name cmt w :
  name ≠ [] → (length name < MAX_FILENAME_LEN)%nat →
  plain name → BAR ∉ name → plain cmt →
  Forall storable (version_list repo) →
  Forall storable (version_list (snd (fst (checkin_file repo name cmt w)))).
Proof.
  intros Hne Hlen Hplain Hbar Hcmt Hvs.
  destruct (checkin_file repo name cmt w) as [[v repo'] w'] eqn:Hci.
  apply checkin_file_spec in Hci as [(_ & -> & _)|Hci]; [done|].
  destruct Hci as (rec & w1 & s & _ & -> & Hf & Hv & Hc & (Hh1 & Hh2 & Hh3)
                   & Ht & Hs & _).
  rewrite strncpy_short in Hf by done.
  cbn [fst snd version_list]. constructor; [|done].
  unfold storable. rewrite Hf, Hv, Hc.
  do 7 (split; [done|]).
  split; [unfold strncpy_z, MAX_COMMENT_LEN; rewrite length_take; lia|].
  split; [by apply plain_take|].
  split; [apply to_int_range|done].
Qed.

(** ** Two runs of the program *)

(** [vcs checkin a.txt] twice, each run a process of its own that loads the
    history, checks in and saves: the file then holds version 2 in front of
    version 1, the exit codes are 0, and the next process finds 2 as the
    latest version. *)
Example main_checkin_twice :
  let run1 := main [c{"vcs"}; c{"checkin"}; c{"a.txt"}; c{"first"}]
                (example_world [100; 100; 200; 200]) in
  let run2 := main [c{"vcs"}; c{"checkin"}; c{"a.txt"}; c{"second"}] (snd run1) in
  let repo := snd (fst (load_metadata empty_repository (snd run2))) in
  fst run1 = 0 ∧ fst run2 = 0 ∧
  content c{"/w/.vcs/versions.meta"} (snd run2) = metadata_text example_history ∧
  get_latest_version repo c{"a.txt"} = 2 ∧
  (version_number <$> version_list repo) = [1; 2].
Proof. vm_compute. auto 10. Qed.

(** * Further properties *)

(** ** Searching the history *)

(** No record of the name has a number above the latest. *)
Lemma latest_from_bound vs name v :
  v ∈ vs → filename v = name → version_number v <= latest_from 0 vs name.
Proof.
  induction vs as [|x vs IH]; intros Hin Hname; [by apply elem_of_nil in Hin|].
  rewrite latest_from_cons.
  apply elem_of_cons in Hin as [->|Hin].
  - unfold strcmp_eq. rewrite bool_decide_eq_true_2 by done. lia.
  - specialize (IH Hin Hname). destruct (strcmp_eq _ _); lia.
Qed.

(** A latest version above zero is the number of a record of the name. *)
Lemma latest_from_attained vs name :
  0 < latest_from 0 vs name →
  ∃ v, v ∈ vs ∧ filename v = name ∧ version_number v = latest_from 0 vs name.
Proof.
  induction vs as [|x vs IH]; [simpl; lia|].
  rewrite latest_from_cons. unfold strcmp_eq.
  case_bool_decide as Hx.
  - intros Hpos.
    destruct (Z.max_spec (version_number x) (latest_from 0 vs name))
      as [[Hlt ->]|[Hge ->]].
    + destruct (IH ltac:(lia)) as (v & Hin & Hn & Hv).
      exists v. split; [by apply elem_of_cons; right|done].
    + exists x. split; [by apply elem_of_cons; left|done].
  - intros Hpos. destruct (IH Hpos) as (v & Hin & Hn & Hv).
    exists v. split; [by apply elem_of_cons; right|done].
Qed.

(** A record of the list is found by its key, or one before it is. *)
Lemma find_from_is_Some vs name version v :
  v ∈ vs → filename v = name → version_number v = version →
  is_Some (find_from vs name version).
Proof.
  intros Hin Hn Hv. induction vs as [|x vs IH]; [by apply elem_of_nil in Hin|].
  cbn [find_from].
  destruct (strcmp_eq (filename x) name && (version_number x =? version))
    eqn:Hx; [by eexists|].
  apply elem_of_cons in Hin as [->|Hin]; [|by apply IH].
  unfold strcmp_eq in Hx.
  rewrite bool_decide_eq_true_2, Hv, Z.eqb_refl in Hx by done. done.
Qed.

(** X1. [find_file_version] returns the first record of the list, head
    first, whose name and version number are the ones asked for, and [NULL]
    when the list has no such record. *)
Theorem find_file_version_first repo name version :
  find_file_version repo name version
  = head (filter (λ v, filename v = name ∧ version_number v = version)
                 (version_list repo)).
Proof.
  unfold find_file_version.
  induction (version_list repo) as [|x vs IH]; [done|].
  cbn [find_from]. rewrite filter_cons. unfold strcmp_eq.
  case_bool_decide as Hn;
    destruct (Z.eqb_spec (version_number x) version) as [Hv|Hv]; cbn [andb].
  - by rewrite decide_True.
  - by rewrite decide_False by (by intros [? ?]).
  - by rewrite decide_False by (by intros [? ?]).
  - by rewrite decide_False by (by intros [? ?]).
Qed.

(** X2. [get_latest_version] is never negative, no record of the name has
    a higher number, and when it is positive it is the number of a record of
    the name: [find_file_version] finds the latest version. *)
Theorem get_latest_version_max repo name :
  let latest := get_latest_version repo name in
  0 <= latest ∧
  (∀ v, v ∈ version_list repo → filename v = name → version_number v <= latest) ∧
  (0 < latest → is_Some (find_file_version repo name latest)).
Proof.
  intros latest. subst latest. unfold get_latest_version, find_file_version.
  split; [apply latest_from_nonneg|]. split.
  - intros v. apply latest_from_bound.
  - intros Hpos. destruct (latest_from_attained _ _ Hpos) as (v & Hin & Hn & Hv).
    by eapply find_from_is_Some.
Qed.

(** X3. [list_versions] returns [0] exactly when the list has a record of
    the name and [-1] exactly when it has none; its rows are the records of
    the name in the order of the list; every version that
    [find_file_version] finds has its row. *)
Theorem list_versions_found repo name :
  (fst (list_versions repo name) = 0
   ↔ ∃ v, v ∈ version_list repo ∧ filename v = name) ∧
  (fst (list_versions repo name) = -1
   ↔ ∀ v, v ∈ version_list repo → filename v ≠ name) ∧
  snd (list_versions repo name)
  = row_of <$> filter (λ v, filename v = name) (version_list repo) ∧
  (∀ k, is_Some (find_file_version repo name k) →
        ∃ row, row ∈ snd (list_versions repo name) ∧ row_version row = k).
Proof.
  unfold list_versions. rewrite list_rows_filter.
  destruct (filter (λ v, filename v = name) (version_list repo)) as [|x l] eqn:Hf;
    cbn [fmap list_fmap fst snd].
  - split; [|split; [|split; [done|]]].
    + split; [done|]. intros (v & Hin & Hn).
      assert (v ∈ filter (λ v, filename v = name) (version_list repo)) as H
        by (by apply list_elem_of_filter).
      rewrite Hf in H. by apply elem_of_nil in H.
    + split; [|done]. intros _ v Hin Hn.
      assert (v ∈ filter (λ v, filename v = name) (version_list repo)) as H
        by (by apply list_elem_of_filter).
      rewrite Hf in H. by apply elem_of_nil in H.
    + intros k [v Hv]. apply find_from_Some in Hv as (Hin & Hn & _).
      assert (v ∈ filter (λ v, filename v = name) (version_list repo)) as H
        by (by apply list_elem_of_filter).
      rewrite Hf in H. by apply elem_of_nil in H.
  - assert (x ∈ filter (λ v, filename v = name) (version_list repo)) as Hx
      by (rewrite Hf; apply elem_of_cons; by left).
    apply list_elem_of_filter in Hx as [Hxn Hxin].
    split; [|split; [|split; [done|]]].
    + split; [|done]. intros _. by exists x.
    + split; [done|]. intros H. by destruct (H x Hxin).
    + intros k [v Hv]. apply find_from_Some in Hv as (Hin & Hn & Hk).
      exists (row_of v). split; [|done].
      change (row_of x :: (row_of <$> l)) with (row_of <$> (x :: l)).
      rewrite <- Hf. apply list_elem_of_fmap. exists v. split; [done|].
      by apply list_elem_of_filter.
Qed.

(** ** Invariants of the history *)

(** Below [INT_MAX] the next version number does not wrap. *)
Lemma next_version_small k : 0 <= k < INT_MAX → to_int (k + 1) = k + 1.
Proof. intros H. apply to_int_id. unfold is_int, INT_MIN, INT_MAX in *. lia. Qed.

(** What a check-in that succeeds has made of the list. *)
Lemma checkin_file_head repo name cmt w v repo' w' :
  checkin_file repo name cmt w = ((v, repo'), w') → 0 < v →
  ∃ rec,
    v = to_int (get_latest_version repo name + 1) ∧
    repo' = mkRepository (base_path repo) (to_int (total_versions repo + 1))
              (rec :: version_list repo) ∧
    filename rec = strncpy_z MAX_FILENAME_LEN name ∧
    version_number rec = v ∧
    comment rec = strncpy_z MAX_COMMENT_LEN cmt.
Proof.
  intros Hci Hv. apply checkin_file_spec in Hci as [(-> & _)|Hci]; [done|].
  destruct Hci as (rec & w1 & s & -> & -> & Hf & Hn & Hc & _).
  by exists rec.
Qed.

(** The list after a check-in: the list before, or one record more whose
    key is the name, cut to the array, and the next number. *)
Lemma checkin_file_list repo name cmt w :
  let repo' := snd (fst (checkin_file repo name cmt w)) in
  repo' = repo ∨
  ∃ rec,
    repo' = mkRepository (base_path repo) (to_int (total_versions repo + 1))
              (rec :: version_list repo) ∧
    version_key rec = (strncpy_z MAX_FILENAME_LEN name,
                       to_int (get_latest_version repo name + 1)).
Proof.
  destruct (checkin_file repo name cmt w) as [[v repo'] w'] eqn:Hci.
  cbn [fst snd].
  apply checkin_file_spec in Hci as [(_ & -> & _)|Hci]; [by left|right].
  destruct Hci as (rec & w1 & s & -> & -> & Hf & Hn & _).
  exists rec. split; [done|]. unfold version_key. by rewrite Hf, Hn.
Qed.

(** The list after a rollback is the list before or the list a check-in of
    the same name leaves. *)
Lemma rollback_to_version_list repo name version w :
  let repo' := snd (fst (rollback_to_version repo name version w)) in
  repo' = repo ∨
  ∃ cmt w1, repo' = snd (fst (checkin_file repo name cmt w1)).
Proof.
  unfold rollback_to_version.
  destruct (find_file_version repo name version); [|by left].
  unfold bind, ret. destruct (restore_version_file name version w) as [r w1].
  destruct (negb (r =? 0)); [by left|].
  right. exists (rollback_comment version), w1.
  by destruct (checkin_file repo name (rollback_comment version) w1) as [[v repo1] w2].
Qed.

(** A check-in adds a key that was not there. *)
Lemma unique_versions_checkin repo name cmt w :
  (length name < MAX_FILENAME_LEN)%nat →
  get_latest_version repo name < INT_MAX →
  unique_versions (version_list repo) →
  unique_versions (version_list (snd (fst (checkin_file repo name cmt w)))).
Proof.
  intros Hlen Hmax Huniq.
  destruct (checkin_file_list repo name cmt w) as [->|(rec & -> & Hkey)]; [done|].
  cbn [version_list]. unfold unique_versions. rewrite fmap_cons.
  apply NoDup_cons. split; [|done].
  rewrite Hkey, strncpy_short by done.
  pose proof (latest_from_nonneg (version_list repo) name) as Hnn.
  fold (get_latest_version repo name) in Hnn.
  rewrite next_version_small by lia.
  intros Hin. apply list_elem_of_fmap in Hin as (v & Hv & Hin).
  injection Hv as Hn Hk.
  pose proof (latest_from_bound _ name v Hin (eq_sym Hn)) as Hb.
  fold (get_latest_version repo name) in Hb. lia.
Qed.

(** X4. A history in which no two records share a name and a version
    number stays so through a check-in and through a rollback, whatever their
    outcome, for a name that fits its array and a latest version below
    [INT_MAX]. *)
Theorem unique_versions_kept repo name w :
  (length name < MAX_FILENAME_LEN)%nat →
  get_latest_version repo name < INT_MAX →
  unique_versions (version_list repo) →
  (∀ cmt, unique_versions (version_list (snd (fst (checkin_file repo name cmt w))))) ∧
  (∀ version,
     unique_versions
       (version_list (snd (fst (rollback_to_version repo name version w))))).
Proof.
  intros Hlen Hmax Huniq. split.
  - intros cmt. by apply unique_versions_checkin.
  - intros version.
    destruct (rollback_to_version_list repo name version w)
      as [->|(cmt & w1 & ->)]; [done|].
    by apply unique_versions_checkin.
Qed.

Lemma unique_versions_kept_witness :
  (length c{"a.txt"} < MAX_FILENAME_LEN)%nat ∧
  get_latest_version example_history c{"a.txt"} < INT_MAX ∧
  unique_versions (version_list example_history) ∧
  (∀ cmt, unique_versions
            (version_list (snd (fst (checkin_file example_history c{"a.txt"} cmt
                                       (example_world [300; 300])))))) ∧
  (∀ version,
     unique_versions
       (version_list (snd (fst (rollback_to_version example_history c{"a.txt"}
                                  version (example_world [300; 300])))))).
Proof.
  assert (H1 : (length c{"a.txt"} < MAX_FILENAME_LEN)%nat) by (vm_compute; lia).
  assert (H2 : get_latest_version example_history c{"a.txt"} < INT_MAX)
    by (vm_compute; reflexivity).
  assert (H3 : unique_versions (version_list example_history))
    by decide_by_compute.
  do 3 (split; [assumption|]).
  exact (unique_versions_kept example_history c{"a.txt"}
           (example_world [300; 300]) H1 H2 H3).
Defined.

(** A check-in counts the record it adds. *)
Lemma counted_checkin repo name cmt w :
  Z.of_nat (length (version_list repo)) < INT_MAX →
  counted repo → counted (snd (fst (checkin_file repo name cmt w))).
Proof.
  intros Hmax Hc.
  destruct (checkin_file_list repo name cmt w) as [->|(rec & -> & _)]; [done|].
  unfold counted in *. cbn [total_versions version_list length].
  rewrite Hc, next_version_small by lia. lia.
Qed.

(** X5. When [total_versions] is the number of records of the list, it
    still is after a check-in, a rollback and a check-out, whatever their
    outcome; the list has less than [INT_MAX] records. *)
Theorem total_versions_counts repo name w :
  Z.of_nat (length (version_list repo)) < INT_MAX →
  counted repo →
  (∀ cmt, counted (snd (fst (checkin_file repo name cmt w)))) ∧
  (∀ version, counted (snd (fst (rollback_to_version repo name version w)))) ∧
  (∀ version, counted (snd (fst (checkout_file repo name version w)))).
Proof.
  intros Hmax Hc. split; [|split].
  - intros cmt. by apply counted_checkin.
  - intros version.
    destruct (rollback_to_version_list repo name version w)
      as [->|(cmt & w1 & ->)]; [done|].
    by apply counted_checkin.
  - intros version. unfold checkout_file.
    destruct (find_file_version repo name version); [|done].
    unfold bind, ret. by destruct (restore_version_file name version w).
Qed.

Lemma total_versions_counts_witness :
  Z.of_nat (length (version_list example_history)) < INT_MAX ∧
  counted example_history ∧
  (∀ cmt, counted (snd (fst (checkin_file example_history c{"a.txt"} cmt
                               (example_world [300; 300]))))) ∧
  (∀ version, counted (snd (fst (rollback_to_version example_history c{"a.txt"}
                                   version (example_world [300; 300]))))) ∧
  (∀ version, counted (snd (fst (checkout_file example_history c{"a.txt"}
                                   version (example_world [300; 300]))))).
Proof.
  assert (H1 : Z.of_nat (length (version_list example_history)) < INT_MAX)
    by (vm_compute; reflexivity).
  assert (H2 : counted example_history) by (vm_compute; reflexivity).
  do 2 (split; [assumption|]).
  exact (total_versions_counts example_history c{"a.txt"}
           (example_world [300; 300]) H1 H2).
Defined.

(** ** Looking up what was checked in *)

(** The version a check-in returned is found. *)
Lemma checkin_file_then_find_head repo name cmt w v repo' w' :
  (length name < MAX_FILENAME_LEN)%nat →
  checkin_file repo name cmt w = ((v, repo'), w') → 0 < v →
  ∃ rec, find_file_version repo' name v = Some rec.
Proof.
  intros Hlen Hci Hv.
  destruct (checkin_file_head _ _ _ _ _ _ _ Hci Hv) as (rec & _ & -> & Hf & Hn & Hc).
  rewrite strncpy_short in Hf by done.
  unfold find_file_version. cbn [version_list find_from].
  unfold strcmp_eq. rewrite Hf, Hn.
  exists rec. by rewrite bool_decide_eq_true_2, Z.eqb_refl by done.
Qed.

(** X6. After a check-in of a name that fits its array and that returned
    the positive version [v], [find_file_version] finds [(name, v)]: it is
    the record at the head of the list, with the comment of the check-in cut
    to its array. Every other key is looked up as before. *)
Theorem checkin_file_then_find repo name cmt w v repo' w' :
  (length name < MAX_FILENAME_LEN)%nat →
  checkin_file repo name cmt w = ((v, repo'), w') → 0 < v →
  (∃ rec, find_file_version repo' name v = Some rec ∧
          head (version_list repo') = Some rec ∧
          comment rec = strncpy_z MAX_COMMENT_LEN cmt) ∧
  (∀ f k, (f, k) ≠ (name, v) →
          find_file_version repo' f k = find_file_version repo f k).
Proof.
  intros Hlen Hci Hv.
  destruct (checkin_file_head _ _ _ _ _ _ _ Hci Hv) as (rec & _ & -> & Hf & Hn & Hc).
  rewrite strncpy_short in Hf by done.
  unfold find_file_version. cbn [version_list find_from head].
  unfold strcmp_eq. rewrite Hf, Hn. split.
  - exists rec. rewrite bool_decide_eq_true_2, Z.eqb_refl by done. done.
  - intros f k Hne. case_bool_decide as Hn'; [|done].
    destruct (Z.eqb_spec v k) as [Hk|Hk]; [|done]. by subst.
Qed.

Lemma checkin_file_then_find_witness :
  let r := checkin_file empty_repository c{"a.txt"} c{"first"}
             (example_world [100; 100]) in
  (length c{"a.txt"} < MAX_FILENAME_LEN)%nat ∧
  0 < fst (fst r) ∧
  (∃ rec, find_file_version (snd (fst r)) c{"a.txt"} (fst (fst r)) = Some rec ∧
          head (version_list (snd (fst r))) = Some rec ∧
          comment rec = strncpy_z MAX_COMMENT_LEN c{"first"}) ∧
  (∀ f k, (f, k) ≠ (c{"a.txt"}, fst (fst r)) →
          find_file_version (snd (fst r)) f k
          = find_file_version empty_repository f k).
Proof.
  intros r.
  assert (H1 : (length c{"a.txt"} < MAX_FILENAME_LEN)%nat) by (vm_compute; lia).
  assert (H2 : checkin_file empty_repository c{"a.txt"} c{"first"}
                 (example_world [100; 100])
               = ((fst (fst r), snd (fst r)), snd r))
    by (vm_compute; reflexivity).
  assert (H3 : 0 < fst (fst r)) by (vm_compute; reflexivity).
  do 2 (split; [assumption|]).
  exact (checkin_file_then_find empty_repository c{"a.txt"} c{"first"}
           (example_world [100; 100]) _ _ _ H1 H2 H3).
Defined.

(** No record whose name fits the array is a record of a longer name. *)
Lemma long_name_unknown vs name :
  Forall (λ v, (length (filename v) < MAX_FILENAME_LEN)%nat) vs →
  (MAX_FILENAME_LEN ≤ length name)%nat →
  (∀ k, find_from vs name k = None) ∧ latest_from 0 vs name = 0 ∧
  list_rows vs name = [].
Proof.
  intros Hvs Hlen. induction Hvs as [|x vs Hx Hvs IH].
  - done.
  - destruct IH as (IH1 & IH2 & IH3).
    assert (strcmp_eq (filename x) name = false) as Hne.
    { unfold strcmp_eq. apply bool_decide_eq_false_2. intros E.
      rewrite E in Hx. lia. }
    split; [|split].
    + intros k. cbn [find_from]. rewrite Hne. cbn [andb]. apply IH1.
    + rewrite latest_from_cons, Hne. apply IH2.
    + cbn [list_rows]. rewrite Hne. apply IH3.
Qed.

(** X7. A name of 256 characters or more is never found again, in a
    repository whose records fit [struct FileVersion]: the check-in returns
    [1] or [-1], the latest version of the name is still [0], no version of
    it is listed or found, and every check-out and every rollback of it
    fails with the world and the repository as they were. *)
Theorem checkin_long_name_lost repo name cmt w :
  Forall representable (version_list repo) →
  (MAX_FILENAME_LEN ≤ length name)%nat →
  let repo' := snd (fst (checkin_file repo name cmt w)) in
  fst (fst (checkin_file repo name cmt w)) ∈ [1; -1] ∧
  get_latest_version repo' name = 0 ∧
  fst (list_versions repo' name) = -1 ∧
  ∀ k w'',
    find_file_version repo' name k = None ∧
    checkout_file repo' name k w'' = ((-1, repo'), w'') ∧
    rollback_to_version repo' name k w'' = ((-1, repo'), w'').
Proof.
  intros Hrep Hlen repo'.
  assert (Forall (λ v, (length (filename v) < MAX_FILENAME_LEN)%nat)
                 (version_list repo)) as Hold.
  { eapply Forall_impl; [exact Hrep|]. by intros v [H _]. }
  assert (Forall (λ v, (length (filename v) < MAX_FILENAME_LEN)%nat)
                 (version_list repo')) as Hnew.
  { subst repo'.
    destruct (checkin_file_list repo name cmt w) as [->|(rec & -> & Hkey)]; [done|].
    cbn [version_list]. constructor; [|done].
    injection Hkey as Hf _. rewrite Hf. unfold strncpy_z, MAX_FILENAME_LEN.
    rewrite length_take. lia. }
  destruct (long_name_unknown _ _ Hold Hlen) as (_ & Hl0 & _).
  destruct (long_name_unknown _ _ Hnew Hlen) as (Hf1 & Hl1 & Hr1).
  split; [|split; [done|split]].
  - destruct (checkin_file repo name cmt w) as [[v r] w'] eqn:Hci.
    cbn [fst].
    apply checkin_file_spec in Hci as [(-> & _)|Hci].
    + apply elem_of_cons; right. apply elem_of_cons; by left.
    + destruct Hci as (rec & w1 & s & -> & _).
      unfold get_latest_version. rewrite Hl0.
      apply elem_of_cons; by left.
  - unfold list_versions. by rewrite Hr1.
  - intros k w''. unfold checkout_file, rollback_to_version, find_file_version.
    by rewrite Hf1.
Qed.

Lemma checkin_long_name_lost_witness :
  let r := checkin_file empty_repository long_name c{"first"}
             (long_name_world [100; 100]) in
  Forall representable (version_list empty_repository) ∧
  (MAX_FILENAME_LEN ≤ length long_name)%nat ∧
  fst (fst r) ∈ [1; -1] ∧
  get_latest_version (snd (fst r)) long_name = 0 ∧
  fst (list_versions (snd (fst r)) long_name) = -1 ∧
  ∀ k w'',
    find_file_version (snd (fst r)) long_name k = None ∧
    checkout_file (snd (fst r)) long_name k w'' = ((-1, snd (fst r)), w'') ∧
    rollback_to_version (snd (fst r)) long_name k w'' = ((-1, snd (fst r)), w'').
Proof.
  intros r.
  assert (H1 : Forall representable (version_list empty_repository))
    by decide_by_compute.
  assert (H2 : (MAX_FILENAME_LEN ≤ length long_name)%nat) by decide_by_compute.
  do 2 (split; [assumption|]).
  exact (checkin_long_name_lost empty_repository long_name c{"first"}
           (long_name_world [100; 100]) H1 H2).
Defined.

(** ** The outcome of a copy *)

(** At the end of the source the loop stops with [0]. *)
Lemma copy_loop_empty fuel src dst off w :
  (length (content src w) ≤ off)%nat → copy_loop fuel src dst off w = (0, w).
Proof.
  intros H.
  assert (take 4096 (drop off (content src w)) = []) as E
    by (by rewrite drop_ge).
  destruct fuel; cbn [copy_loop]; unfold bind, fread, ret; by rewrite E.
Qed.

(** With its streams open and room on the device, [copy_file] returns [0]. *)
Lemma copy_file_succeeds src dst w :
  exists_at src w = true → src ∉ unreadable w →
  dst ∉ unwritable w → dst ∉ dirs w → capacity w !! dst = None →
  fst (copy_file src dst w) = 0.
Proof.
  intros Hex Hr Hw Hd Hcap. unfold copy_file, bind, fopen_r, fopen_w, ret.
  cbv beta iota.
  rewrite Hex, (bool_decide_eq_false_2 _ Hr). cbn [andb negb]. cbv beta iota.
  rewrite (bool_decide_eq_false_2 _ Hw), (bool_decide_eq_false_2 _ Hd).
  cbn [andb orb negb]. cbv beta iota.
  set (w1 := set_files (<[dst := []]> (files w)) w).
  destruct (decide (src = dst)) as [->|Hne].
  - rewrite copy_loop_empty; [done|]. unfold w1. rewrite content_insert. simpl. lia.
  - destruct (copy_loop (length (content src w1)) src dst 0 w1) as [r w'] eqn:Hloop.
    apply copy_loop_spec in Hloop as (_ & _ & _ & H & _); [|done|lia].
    cbn [fst]. by apply H.
Qed.

(** Without its streams, [copy_file] returns [-1] and has written nothing. *)
Lemma copy_file_fails src dst w :
  copy_opens src dst w = false → copy_file src dst w = (-1, w).
Proof.
  unfold copy_opens, copy_file, bind, fopen_r, fopen_w, ret. intros H.
  cbv beta iota.
  destruct (exists_at src w); [|done]. cbn [andb] in *.
  destruct (decide (src ∈ unreadable w)) as [Hr|Hr];
    [by rewrite (bool_decide_eq_true_2 _ Hr)|].
  rewrite (bool_decide_eq_false_2 _ Hr).
  rewrite (bool_decide_eq_true_2 (src ∉ unreadable w) Hr) in H.
  cbn [andb negb] in *. cbv beta iota.
  destruct (decide (dst ∈ unwritable w)) as [Hw|Hw];
    [by rewrite (bool_decide_eq_true_2 _ Hw)|].
  rewrite (bool_decide_eq_false_2 _ Hw).
  rewrite (bool_decide_eq_true_2 (dst ∉ unwritable w) Hw) in H.
  cbn [andb orb] in *.
  destruct (decide (dst ∈ dirs w)) as [Hd|Hd];
    [by rewrite (bool_decide_eq_true_2 _ Hd)|].
  by rewrite (bool_decide_eq_true_2 (dst ∉ dirs w) Hd) in H.
Qed.

(** Between two different paths that open, and with room on the device,
    the destination is left with the bytes of the source. *)
Lemma copy_file_copies src dst w :
  exists_at src w = true → src ∉ unreadable w →
  dst ∉ unwritable w → dst ∉ dirs w → capacity w !! dst = None →
  src ≠ dst →
  copy_file src dst w = (0, set_files (<[dst := content src w]> (files w)) w).
Proof.
  intros Hex Hr Hw Hd Hcap Hne.
  pose proof (copy_file_succeeds src dst w Hex Hr Hw Hd Hcap) as H0.
  destruct (copy_file src dst w) as [r w'] eqn:Hcopy. cbn [fst] in H0. subst r.
  apply copy_file_spec in Hcopy as ((Hw' & Hfr) & _ & _ & Hc).
  destruct (Hc eq_refl Hne) as [Hcont [x Hx]].
  f_equal. rewrite Hw'. f_equal. apply map_eq. intros p.
  destruct (decide (p = dst)) as [->|Hp].
  - rewrite lookup_insert_eq. unfold content in Hcont at 1. rewrite Hx in *.
    simpl in Hcont. by rewrite Hcont.
  - rewrite lookup_insert_ne by done. apply Hfr. solve_notin.
Qed.

(** X8. [copy_file] on a destination without a limit of size, for two paths
    that are one spelling or name two files. When one of the two streams
    does not open the result is [-1] and nothing has changed. Otherwise the
    result is [0] and the destination holds the bytes of the source, read in
    blocks of 4096 bytes, however long it is; but a copy of a file onto
    itself leaves it empty, [fopen] having truncated it before the first
    [fread]. Nothing else changes. *)
Theorem copy_file_outcome src dst w :
  capacity w !! dst = None →
  src = dst ∨ ¬ same_file w src dst →
  copy_file src dst w
  = if copy_opens src dst w
    then (0, set_files
               (<[dst := if bool_decide (same_file w src dst) then []
                         else content src w]>
                  (files w)) w)
    else (-1, w).
Proof.
  intros Hcap Hpaths. destruct (copy_opens src dst w) eqn:Hopen;
    [|by apply copy_file_fails].
  unfold copy_opens in Hopen. rewrite !andb_true_iff in Hopen.
  destruct Hopen as (((Hex & Hr) & Hw) & Hd).
  apply bool_decide_eq_true_1 in Hr, Hw, Hd.
  destruct Hpaths as [<-|Hdiff].
  - rewrite (bool_decide_eq_true_2 (same_file w src src)) by done.
    unfold copy_file, bind, fopen_r, fopen_w, ret. cbv beta iota.
    rewrite Hex, (bool_decide_eq_false_2 _ Hr). cbn [andb negb]. cbv beta iota.
    rewrite (bool_decide_eq_false_2 _ Hw), (bool_decide_eq_false_2 _ Hd).
    cbn [andb orb negb]. cbv beta iota.
    rewrite copy_loop_empty; [done|]. rewrite content_insert. simpl. lia.
  - rewrite (bool_decide_eq_false_2 (same_file w src dst)) by done.
    apply copy_file_copies; try done. by apply (not_same_file_ne w).
Qed.

Lemma copy_file_outcome_witness :
  let w := example_world [] in
  capacity w !! c{"b.txt"} = None ∧
  (c{"a.txt"} = c{"b.txt"} ∨ ¬ same_file w c{"a.txt"} c{"b.txt"}) ∧
  copy_file c{"a.txt"} c{"b.txt"} w
  = if copy_opens c{"a.txt"} c{"b.txt"} w
    then (0, set_files
               (<[c{"b.txt"} := if bool_decide (same_file w c{"a.txt"} c{"b.txt"})
                                then [] else content c{"a.txt"} w]>
                  (files w)) w)
    else (-1, w).
Proof.
  intros w.
  assert (H1 : capacity w !! c{"b.txt"} = None) by (vm_compute; reflexivity).
  assert (H2 : c{"a.txt"} = c{"b.txt"} ∨ ¬ same_file w c{"a.txt"} c{"b.txt"})
    by decide_by_compute.
  do 2 (split; [assumption|]).
  exact (copy_file_outcome c{"a.txt"} c{"b.txt"} w H1 H2).
Defined.

(** ** Directories and paths *)

(** X9. [create_directory] returns [0] exactly when something is at the
    path afterwards, a directory it made or whatever was there before, a
    regular file included; on [-1] nothing has changed; it never touches a
    file; called again it returns the same and changes nothing.
    [create_version_file] behaves as if it called it for the version
    directory and copied the file on [0]. *)
Theorem create_directory_outcome path w :
  let r := fst (create_directory path w) in
  let w' := snd (create_directory path w) in
  (r = 0 ∨ r = -1) ∧
  (r = 0 ↔ exists_at path w' = true) ∧
  (r = -1 → w' = w) ∧
  files w' = files w ∧
  create_directory path w' = (r, w') ∧
  ∀ filepath version,
    path = version_dir (cwd w) filepath →
    create_version_file filepath version w
    = if r =? 0
      then copy_file filepath (version_file (cwd w) filepath version) w'
      else (-1, w').
Proof.
  unfold create_directory, create_version_file, bind, getcwd, ret, mkdir.
  cbv beta iota.
  destruct (exists_at path w) eqn:Hex; cbn [fst snd].
  - split; [by left|]. split; [done|]. split; [done|]. split; [done|].
    split; [by rewrite Hex|]. intros filepath version ->. by rewrite Hex.
  - destruct (decide (path ∈ nomkdir w)) as [Hn|Hn].
    + rewrite (bool_decide_eq_true_2 _ Hn). cbn [fst snd].
      split; [by right|]. split; [by rewrite Hex|]. split; [done|].
      split; [done|]. split; [by rewrite Hex, (bool_decide_eq_true_2 _ Hn)|].
      intros filepath version ->. by rewrite Hex, (bool_decide_eq_true_2 _ Hn).
    + rewrite (bool_decide_eq_false_2 _ Hn). cbn [fst snd].
      assert (exists_at path (set_dirs ({[path]} ∪ dirs w) w) = true) as Hex'.
      { unfold exists_at. cbn [dirs set_dirs].
        rewrite (bool_decide_eq_true_2 (path ∈ {[path]} ∪ dirs w)); [|set_solver].
        apply orb_true_r. }
      split; [by left|]. split; [done|]. split; [done|]. split; [done|].
      split; [by rewrite Hex'|].
      intros filepath version ->.
      by rewrite Hex, (bool_decide_eq_false_2 _ Hn).
Qed.

(** A [snprintf] of a [snprintf]: cutting the inner text changes nothing. *)
Lemma take_take_app {A} n (a b : list A) :
  take n (take n a ++ b) = take n (a ++ b).
Proof.
  destruct (decide (length a ≤ n)%nat) as [H|H].
  - by rewrite (take_ge a) by done.
  - rewrite !take_app_le; [by rewrite take_take, Nat.min_id|lia|].
    rewrite length_take. lia.
Qed.

(** For a name without a slash, the snapshot a check-in writes is at the
    path a check-out reads. *)
Lemma version_file_snapshot_path current_dir name version :
  "/"%char ∉ name →
  version_file current_dir name version = snapshot_path current_dir name version.
Proof.
  intros Hs. unfold version_file, version_dir, snapshot_path, snprintf, basename.
  rewrite (bool_decide_eq_false_2 _ Hs), take_take_app.
  by rewrite <- !app_assoc.
Qed.

Lemma str_before_shorter d (s : list ascii) :
  d ∈ s → (length (str_before d s) < length s)%nat.
Proof.
  induction s as [|x s IH]; [by intros H%elem_of_nil|].
  intros Hin. cbn [str_before].
  destruct (Ascii.eqb_spec x d) as [->|Hne]; [simpl; lia|].
  apply elem_of_cons in Hin as [->|Hin]; [done|].
  specialize (IH Hin). simpl. lia.
Qed.

(** What follows the last slash is shorter than the path. *)
Lemma basename_length name :
  (length (basename name) ≤ length name)%nat ∧
  ("/"%char ∈ name → (length (basename name) < length name)%nat).
Proof.
  unfold basename. case_bool_decide as Hs; [|split; [lia|done]].
  rewrite length_reverse.
  assert ("/"%char ∈ reverse name) as Hr by (by apply elem_of_reverse).
  pose proof (str_before_shorter _ _ Hr) as H. rewrite length_reverse in H.
  split; [lia|done].
Qed.

(** X10. The path [create_version_file] writes the snapshot of a version to
    is the one [restore_version_file] reads it from exactly when the name has
    no slash: the first keeps what follows the last slash of the name, the
    second the whole name. The paths are short enough not to be cut. *)
Theorem snapshot_paths_agree current_dir name version :
  (length current_dir + length name + 40 < MAX_PATH_LEN)%nat →
  version_file current_dir name version = snapshot_path current_dir name version
  ↔ "/"%char ∉ name.
Proof.
  intros Hlen. split; [|apply version_file_snapshot_path].
  intros Heq Hs. apply (f_equal length) in Heq. revert Heq.
  destruct (basename_length name) as [_ Hb]. specialize (Hb Hs).
  pose proof (fmt_d_length version) as Hf.
  unfold version_file, version_dir, snapshot_path, snprintf, MAX_PATH_LEN in *.
  rewrite !length_take, !length_app, !length_take, !length_app.
  cbn [length list_ascii_of_string VCS_DIR]. lia.
Qed.

Lemma snapshot_paths_agree_witness :
  (length c{"/w"} + length c{"d/a.txt"} + 40 < MAX_PATH_LEN)%nat ∧
  (version_file c{"/w"} c{"d/a.txt"} 1 = snapshot_path c{"/w"} c{"d/a.txt"} 1
   ↔ "/"%char ∉ c{"d/a.txt"}).
Proof.
  assert (H1 : (length c{"/w"} + length c{"d/a.txt"} + 40 < MAX_PATH_LEN)%nat)
    by (vm_compute; lia).
  split; [assumption|].
  exact (snapshot_paths_agree c{"/w"} c{"d/a.txt"} 1 H1).
Defined.

(** ** Check-in, then check-out *)

Lemma lookup_content p w x : files w !! p = Some x → content p w = x.
Proof. intros H. unfold content. by rewrite H. Qed.

Lemma content_lookup p w :
  is_Some (files w !! p) → files w !! p = Some (content p w).
Proof. intros [x Hx]. by rewrite (lookup_content _ _ _ Hx). Qed.

(** The metadata path depends on the base path alone. *)
Lemma metadata_path_base repo t vs :
  metadata_path (mkRepository (base_path repo) t vs) = metadata_path repo.
Proof. done. Qed.

(** The world a check-in that succeeds leaves, in the layout of [main.c]:
    the repository is at the working directory and the name has no
    directory part. *)
Lemma checkin_file_snapshot repo name cmt w v repo' w' :
  "/"%char ∉ name → (length name < MAX_FILENAME_LEN)%nat →
  base_path repo = cwd w → (length (cwd w) + 20 < MAX_PATH_LEN)%nat →
  checkin_file repo name cmt w = ((v, repo'), w') → 0 < v →
  same_env w w' ∧
  (dirs w' = dirs w ∨ dirs w' = {[version_dir (cwd w) name]} ∪ dirs w) ∧
  files w' !! snapshot_path (cwd w) name v = Some (content name w) ∧
  (∀ p, p ≠ snapshot_path (cwd w) name v → p ≠ metadata_path repo →
        files w' !! p = files w !! p).
Proof.
  intros Hs Hlen Hbase Hcwd Hci Hv.
  apply checkin_file_spec in Hci as [(-> & _)|Hci]; [done|].
  destruct Hci as (rec & w1 & s & Hv' & -> & _ & _ & _ & _ & _ & _ & Hsave
                   & Henv & Hdirs & Hfr & Hsnap & _).
  rewrite <- Hv' in *. clear Hv'.
  rewrite <- (version_file_snapshot_path _ _ _ Hs).
  destruct (Hsnap (version_file_other _ _ _ Hs Hlen)) as [Hc Hsome].
  pose proof (save_metadata_frame
    (mkRepository (base_path repo) (to_int (total_versions repo + 1))
                  (rec :: version_list repo)) w1) as Hsf.
  rewrite Hsave, metadata_path_base in Hsf. cbn [snd] in Hsf.
  pose proof (files_changed_same_env _ _ _ Hsf) as Henv'.
  destruct Hsf as [Hw' Hsf].
  assert (metadata_path repo ≠ version_file (cwd w) name v) as Hmeta
    by (by apply metadata_path_other).
  split; [by eapply same_env_trans|].
  split; [by rewrite Hw'|]. split.
  - rewrite Hsf by solve_notin. rewrite <- Hc. by apply content_lookup.
  - intros p Hp1 Hp2. rewrite Hsf by solve_notin. by apply Hfr.
Qed.

Lemma exists_at_file p w : is_Some (files w !! p) → exists_at p w = true.
Proof.
  intros H. unfold exists_at. by rewrite (bool_decide_eq_true_2 _ H).
Qed.

(** [restore_version_file] where the snapshot is there and the streams
    open: the working file is left with the bytes of the snapshot. *)
Lemma restore_version_file_copies name version w bytes :
  files w !! snapshot_path (cwd w) name version = Some bytes →
  snapshot_path (cwd w) name version ∉ unreadable w →
  name ∉ unwritable w → name ∉ dirs w → capacity w !! name = None →
  name ≠ snapshot_path (cwd w) name version →
  restore_version_file name version w
  = (0, set_files (<[name := bytes]> (files w)) w).
Proof.
  intros Hf Hr Hw Hd Hcap Hne.
  assert (exists_at (snapshot_path (cwd w) name version) w = true) as Hex
    by (apply exists_at_file; by eexists).
  unfold restore_version_file, bind, getcwd. cbv beta iota.
  unfold file_exists, bind, stat, ret. cbv beta iota. rewrite Hex.
  rewrite bool_decide_eq_true_2 by (by eexists). cbn [negb].
  rewrite copy_file_copies by done.
  by rewrite (lookup_content _ _ _ Hf).
Qed.

(** X11. A check-in followed by a check-out of the version it returned, in
    the layout of [main.c] (the repository in the working directory, a name
    without a directory part): whatever is written to the working file in
    between, a check-out that returns [0] has put back the bytes that were
    checked in; and it does return [0], changing nothing but the working
    file, when the working file can be written and the snapshot read. *)
Theorem checkin_checkout_round_trip repo name cmt w v repo' w' edit :
  "/"%char ∉ name → (length name < MAX_FILENAME_LEN)%nat →
  base_path repo = cwd w → (length (cwd w) + 20 < MAX_PATH_LEN)%nat →
  checkin_file repo name cmt w = ((v, repo'), w') → 0 < v →
  let w'' := set_files (<[name := edit]> (files w')) w' in
  let out := checkout_file repo' name v w'' in
  (fst (fst out) = 0 → content name (snd out) = content name w) ∧
  (name ∉ unwritable w → name ∉ dirs w → capacity w !! name = None →
   snapshot_path (cwd w) name v ∉ unreadable w →
   out = ((0, repo'),
          set_files (<[name := content name w]> (files w')) w')).
Proof.
  intros Hs Hlen Hbase Hcwd Hci Hv w'' out.
  destruct (checkin_file_snapshot _ _ _ _ _ _ _ Hs Hlen Hbase Hcwd Hci Hv)
    as ((Hcw & Hur & Huw & _ & Hcap) & Hdirs & Hsnap & _).
  destruct (checkin_file_then_find_head _ _ _ _ _ _ _ Hlen Hci Hv) as [rec Hfind].
  pose proof (snapshot_path_other (cwd w) name v Hlen) as Hne.
  assert (cwd w'' = cwd w) as Hcw'' by done.
  assert (files w'' !! snapshot_path (cwd w'') name v = Some (content name w))
    as Hsnap''.
  { rewrite Hcw''. unfold w''. cbn [files set_files].
    by rewrite lookup_insert_ne. }
  subst out. unfold checkout_file. rewrite Hfind. unfold bind, ret.
  split.
  - destruct (restore_version_file name v w'') as [r w3] eqn:Hres.
    cbn [fst snd]. intros ->.
    apply restore_version_file_spec in Hres as (_ & _ & Hc).
    rewrite Hcw'' in *. destruct (Hc eq_refl Hne) as [-> _].
    by apply lookup_content.
  - intros Hw Hd Hc Hr.
    rewrite (restore_version_file_copies name v w'' (content name w)).
    + f_equal. unfold w''. unfold set_files. cbn [files dirs cwd unreadable
        unwritable nomkdir capacity clock heap]. f_equal.
      apply insert_insert_eq.
    + done.
    + rewrite Hcw''. change (unreadable w'') with (unreadable w'). by rewrite Hur.
    + change (unwritable w'') with (unwritable w'). by rewrite Huw.
    + change (dirs w'') with (dirs w').
      destruct Hdirs as [->| ->]; [done|].
      pose proof (version_dir_other (cwd w) name Hs Hlen) as Hvd.
      intros [Hin|Hin]%elem_of_union; [|done].
      by apply elem_of_singleton in Hin.
    + change (capacity w'') with (capacity w'). by rewrite Hcap.
    + by rewrite Hcw''.
Qed.

Lemma checkin_checkout_round_trip_witness :
  let w := example_world [100; 100] in
  let r := checkin_file empty_repository c{"a.txt"} c{"first"} w in
  let w'' := set_files (<[c{"a.txt"} := c{"changed"}]> (files (snd r))) (snd r) in
  let out := checkout_file (snd (fst r)) c{"a.txt"} (fst (fst r)) w'' in
  ("/"%char ∉ c{"a.txt"}) ∧ (length c{"a.txt"} < MAX_FILENAME_LEN)%nat ∧
  base_path empty_repository = cwd w ∧
  (length (cwd w) + 20 < MAX_PATH_LEN)%nat ∧
  0 < fst (fst r) ∧
  (fst (fst out) = 0 → content c{"a.txt"} (snd out) = content c{"a.txt"} w) ∧
  (c{"a.txt"} ∉ unwritable w → c{"a.txt"} ∉ dirs w →
   capacity w !! c{"a.txt"} = None →
   snapshot_path (cwd w) c{"a.txt"} (fst (fst r)) ∉ unreadable w →
   out = ((0, snd (fst r)),
          set_files (<[c{"a.txt"} := content c{"a.txt"} w]> (files (snd r)))
                    (snd r))).
Proof.
  intros w r w'' out.
  assert (H1 : "/"%char ∉ c{"a.txt"}) by decide_by_compute.
  assert (H2 : (length c{"a.txt"} < MAX_FILENAME_LEN)%nat) by (vm_compute; lia).
  assert (H3 : base_path empty_repository = cwd w) by reflexivity.
  assert (H4 : (length (cwd w) + 20 < MAX_PATH_LEN)%nat) by (vm_compute; lia).
  assert (H5 : checkin_file empty_repository c{"a.txt"} c{"first"} w
               = ((fst (fst r), snd (fst r)), snd r))
    by (vm_compute; reflexivity).
  assert (H6 : 0 < fst (fst r)) by (vm_compute; reflexivity).
  do 4 (split; [assumption|]). split; [assumption|].
  exact (checkin_checkout_round_trip empty_repository c{"a.txt"} c{"first"} w
           _ _ _ c{"changed"} H1 H2 H3 H4 H5 H6).
Defined.

(** X12. What [checkout_file] does, for a name that fits its array and a
    working file without a limit of size. When the version is recorded, its
    snapshot exists and opens, and the working file opens for writing, the
    result is [0] and the working file holds the bytes of the snapshot;
    otherwise the result is [-1] and nothing has changed. The repository is
    the one that was given. *)
Theorem checkout_file_outcome repo name version w :
  (length name < MAX_FILENAME_LEN)%nat → capacity w !! name = None →
  let snapshot := snapshot_path (cwd w) name version in
  checkout_file repo name version w
  = if bool_decide (is_Some (find_file_version repo name version))
       && copy_opens snapshot name w
    then ((0, repo), set_files (<[name := content snapshot w]> (files w)) w)
    else ((-1, repo), w).
Proof.
  intros Hlen Hcap snapshot. unfold checkout_file.
  destruct (find_file_version repo name version) as [v0|].
  2:{ by rewrite bool_decide_eq_false_2 by (by intros [? ?]). }
  rewrite bool_decide_eq_true_2 by (by eexists). cbn [andb].
  unfold bind, restore_version_file, getcwd. cbv beta iota.
  unfold file_exists, bind, stat, ret. cbv beta iota. fold snapshot.
  destruct (copy_opens snapshot name w) eqn:Hopen.
  - pose proof Hopen as Ho. unfold copy_opens in Ho.
    rewrite !andb_true_iff in Ho. destruct Ho as (((Hex & Hr) & Hw) & Hd).
    apply bool_decide_eq_true_1 in Hr, Hw, Hd.
    rewrite Hex. rewrite bool_decide_eq_true_2 by (by eexists). cbn [negb].
    rewrite copy_file_copies; [done..|].
    apply not_eq_sym, snapshot_path_other, Hlen.
  - destruct (exists_at snapshot w) eqn:Hex.
    + rewrite bool_decide_eq_true_2 by (by eexists). cbn [negb].
      by rewrite copy_file_fails.
    + by rewrite bool_decide_eq_false_2 by (by intros [? ?]).
Qed.

Lemma checkout_file_outcome_witness :
  let repo := snd (fst scenario) in
  let w := snd scenario in
  let snapshot := snapshot_path (cwd w) c{"a.txt"} 1 in
  (length c{"a.txt"} < MAX_FILENAME_LEN)%nat ∧
  capacity w !! c{"a.txt"} = None ∧
  checkout_file repo c{"a.txt"} 1 w
  = if bool_decide (is_Some (find_file_version repo c{"a.txt"} 1))
       && copy_opens snapshot c{"a.txt"} w
    then ((0, repo),
          set_files (<[c{"a.txt"} := content snapshot w]> (files w)) w)
    else ((-1, repo), w).
Proof.
  intros repo w snapshot.
  assert (H1 : (length c{"a.txt"} < MAX_FILENAME_LEN)%nat) by (vm_compute; lia).
  assert (H2 : capacity w !! c{"a.txt"} = None) by (vm_compute; reflexivity).
  do 2 (split; [assumption|]).
  exact (checkout_file_outcome repo c{"a.txt"} 1 w H1 H2).
Defined.

(** ** What a check-in and a rollback leave alone *)

(** The directories after a check-in: at most the version directory of the
    name is new. *)
Lemma checkin_file_dirs repo name cmt w :
  let w' := snd (checkin_file repo name cmt w) in
  dirs w' = dirs w ∨ dirs w' = {[version_dir (cwd w) name]} ∪ dirs w.
Proof.
  destruct (checkin_file repo name cmt w) as [[v repo'] w'] eqn:Hci.
  cbn [snd]. revert Hci. unfold checkin_file. unfold bind at 1.
  destruct (create_version_file name _ w) as [r wa] eqn:Hcv.
  apply create_version_file_spec in Hcv as (_ & _ & _ & _ & Hdirs & _).
  destruct (negb (r =? 0)); [by intros [= <- <- <-]|].
  unfold bind at 1. destruct (malloc wa) as [[blk|] wb] eqn:Hm;
    apply malloc_ticks in Hm.
  2:{ intros [= <- <- <-]. by rewrite (ticks_dirs wa wb). }
  unfold bind at 1. destruct (generate_file_hash name wb) as [h wc] eqn:Hh.
  apply generate_file_hash_spec in Hh as [Hhc _].
  unfold bind at 1. destruct (time wc) as [now wd] eqn:Ht.
  apply time_ticks in Ht.
  unfold bind at 1. destruct (stat name wd) as [st we] eqn:Hst.
  assert (we = wd) as -> by (unfold stat in Hst; by injection Hst).
  unfold bind at 1.
  match goal with |- context [save_metadata ?r wd] => set (repo1 := r) end.
  pose proof (save_metadata_frame repo1 wd) as [Hw2 _].
  destruct (save_metadata repo1 wd) as [s w2].
  intros [= <- <- <-]. cbn [snd] in Hw2. rewrite Hw2. cbn [dirs set_files].
  by rewrite (ticks_dirs wc wd), (ticks_dirs wb wc), (ticks_dirs wa wb).
Qed.

(** The files after a check-in: all as before but the snapshot and the
    metadata file. *)
Lemma checkin_file_files repo name cmt w :
  let w' := snd (checkin_file repo name cmt w) in
  let next := to_int (get_latest_version repo name + 1) in
  same_env w w' ∧
  ∀ p, p ≠ version_file (cwd w) name next → p ≠ metadata_path repo →
       files w' !! p = files w !! p.
Proof.
  destruct (checkin_file repo name cmt w) as [[v repo'] w'] eqn:Hci.
  cbn [snd].
  apply checkin_file_spec in Hci as [(_ & _ & Henv & Hfr & _)|Hci].
  - split; [done|]. intros p Hp _. by apply Hfr.
  - destruct Hci as (rec & w1 & s & _ & -> & _ & _ & _ & _ & _ & _ & Hsave
                     & Henv & _ & Hfr & _).
    pose proof (save_metadata_frame
      (mkRepository (base_path repo) (to_int (total_versions repo + 1))
                    (rec :: version_list repo)) w1) as Hsf.
    rewrite Hsave, metadata_path_base in Hsf. cbn [snd] in Hsf.
    pose proof (files_changed_same_env _ _ _ Hsf) as Henv'.
    destruct Hsf as [_ Hsf].
    split; [by eapply same_env_trans|].
    intros p Hp1 Hp2. rewrite Hsf by solve_notin. by apply Hfr.
Qed.

(** X13. What [checkin_file] leaves alone, whatever its outcome: the base
    path of the repository, the environment, every directory (at most the
    version directory of the name is new) and every file that is neither the
    snapshot of the next version nor the metadata file, under any spelling
    of their paths; so the working file, when it is neither of the two
    files, holds what it held. *)
Theorem checkin_file_frame repo name cmt w :
  let w' := snd (checkin_file repo name cmt w) in
  let repo' := snd (fst (checkin_file repo name cmt w)) in
  let next := to_int (get_latest_version repo name + 1) in
  let snapshot := version_file (cwd w) name next in
  base_path repo' = base_path repo ∧
  same_env w w' ∧
  (dirs w' = dirs w ∨ dirs w' = {[version_dir (cwd w) name]} ∪ dirs w) ∧
  (∀ p, ¬ same_file w p snapshot → ¬ same_file w p (metadata_path repo) →
        files w' !! p = files w !! p) ∧
  (¬ same_file w name snapshot → ¬ same_file w name (metadata_path repo) →
   content name w' = content name w).
Proof.
  intros w' repo' next snapshot.
  destruct (checkin_file_files repo name cmt w) as [Henv Hfr].
  fold w' next snapshot in Henv, Hfr.
  assert (∀ p, ¬ same_file w p snapshot → ¬ same_file w p (metadata_path repo) →
               files w' !! p = files w !! p) as Hfiles.
  { intros p H1%not_same_file_ne H2%not_same_file_ne. by apply Hfr. }
  split.
  { subst repo'.
    by destruct (checkin_file_list repo name cmt w) as [->|(rec & -> & _)]. }
  split; [done|]. split; [apply checkin_file_dirs|]. split; [done|].
  intros H1 H2. unfold content. by rewrite Hfiles.
Qed.



(** ** The accumulator and the hash string *)

(** One step of the accumulator: the shift and the additions are a
    multiplication by 33 and an addition, modulo [2 ^ 64]. *)
Lemma djb2_step_mod hash c : djb2_step hash c = (hash * 33 + c) mod 2 ^ 64.
Proof.
  unfold djb2_step, to_ulong. rewrite Z.shiftl_mul_pow2 by lia.
  f_equal. change (2 ^ 5) with 32. lia.
Qed.

(** The reduction modulo [2 ^ 64] can wait for the end of the loop. *)
Lemma djb2_fold bytes : ∀ h h',
  h' = h mod 2 ^ 64 →
  fold_left (λ hash c, djb2_step hash (Z.of_nat (nat_of_ascii c))) bytes h'
  = fold_left (λ hash c, hash * 33 + Z.of_nat (nat_of_ascii c)) bytes h mod 2 ^ 64.
Proof.
  induction bytes as [|c bytes IH]; intros h h' Hh; [done|].
  cbn [fold_left]. apply IH. rewrite djb2_step_mod, Hh.
  rewrite Z.add_mod, Z.mul_mod, Z.mod_mod by lia.
  rewrite <- Z.mul_mod, <- Z.add_mod by lia. done.
Qed.

(** X15. The accumulator of [generate_file_hash] is the djb2 hash of the
    comment in the source, [hash * 33 + c] from 5381, reduced modulo
    [2 ^ 64] once at the end; it is an [unsigned long]; and it can be
    continued: the hash of a longer file is computed from the hash of its
    beginning. *)
Theorem djb2_closed_form bytes :
  djb2 bytes = djb2_poly bytes mod 2 ^ 64 ∧
  0 <= djb2 bytes < 2 ^ 64 ∧
  ∀ more, djb2 (bytes ++ more)
          = fold_left (λ hash c, (hash * 33 + Z.of_nat (nat_of_ascii c)) mod 2 ^ 64)
                      more (djb2 bytes).
Proof.
  assert (djb2 bytes = djb2_poly bytes mod 2 ^ 64) as H
    by (by apply djb2_fold).
  split; [done|]. split; [rewrite H; by apply Z.mod_pos_bound|].
  intros more. unfold djb2. rewrite fold_left_app.
  generalize (fold_left
    (λ hash c, djb2_step hash (Z.of_nat (nat_of_ascii c))) bytes 5381).
  induction more as [|c more IH]; intros h; [done|].
  cbn [fold_left]. by rewrite IH, djb2_step_mod.
Qed.

Lemma digits_acc_S base k n acc :
  digits_acc base (S k) n acc
  = if n / base =? 0 then digit_char (n mod base) :: acc
    else digits_acc base k (n / base) (digit_char (n mod base) :: acc).
Proof. done. Qed.

(** A number of at most four digits prints in at most five characters. *)
Lemma fmt_d_short n : -10000 < n < 10000 → (length (fmt_d n) ≤ 5)%nat.
Proof.
  intros Hn. unfold fmt_d.
  assert (∀ m, 0 <= m < 10000 → (length (digits_acc 10 20 m []) ≤ 4)%nat) as H.
  { intros m Hm. rewrite digits_acc_S.
    destruct (Z.eqb_spec (m / 10) 0); [simpl; lia|]. rewrite digits_acc_S.
    destruct (Z.eqb_spec (m / 10 / 10) 0); [simpl; lia|]. rewrite digits_acc_S.
    destruct (Z.eqb_spec (m / 10 / 10 / 10) 0); [simpl; lia|].
    rewrite digits_acc_S.
    destruct (Z.eqb_spec (m / 10 / 10 / 10 / 10) 0) as [|Hd]; [simpl; lia|].
    destruct Hd. rewrite !Z.div_div by lia. apply Z.div_small. lia. }
  destruct (Z.ltb_spec n 0).
  - cbn [length]. specialize (H (- n)). lia.
  - specialize (H n). lia.
Qed.

(** [%08lx] prints at least 8 characters. *)
Lemma fmt_08lx_long n : (8 ≤ length (fmt_08lx n))%nat.
Proof. unfold fmt_08lx. rewrite length_app, length_replicate. lia. Qed.

(** X16. The string [generate_file_hash] returns is the accumulator in
    hexadecimal, on 8 characters at least, followed by the time modulo 10000:
    9 to 21 characters, none of them a NUL, a newline or a [|]. It fits the
    64 bytes of its buffer and those of the record uncut, and one metadata
    line holds it. Generating it changes no file and no directory. *)
Theorem generate_file_hash_shape p w s w' :
  generate_file_hash p w = (Some s, w') →
  s = fmt_08lx (file_hash p w)
      ++ fmt_d (Z.rem (to_long (current_time w)) 10000) ∧
  (9 ≤ length s ≤ 21)%nat ∧
  Forall safe_char s ∧
  strncpy_z MAX_HASH_LEN s = s ∧
  files w' = files w ∧ dirs w' = dirs w.
Proof.
  intros Hg. apply generate_file_hash_spec in Hg as [Ht Hs].
  rewrite (Hs s eq_refl). clear Hs.
  pose proof (hash_text_safe (file_hash p w) (current_time w)) as Hsafe.
  rewrite hash_text_whole in *.
  set (t := Z.rem (to_long (current_time w)) 10000).
  assert (-10000 < t < 10000) as Hrange.
  { subst t.
    pose proof (Z.rem_bound_abs (to_long (current_time w)) 10000 ltac:(lia)).
    lia. }
  pose proof (fmt_d_short t Hrange) as H1.
  pose proof (fmt_d_nonempty t) as H2.
  pose proof (fmt_08lx_long (file_hash p w)) as H3.
  pose proof (fmt_08lx_length (file_hash p w)) as H4.
  assert (1 ≤ length (fmt_d t))%nat as H5
    by (destruct (fmt_d t); [done|simpl; lia]).
  split; [done|]. rewrite length_app. split; [lia|]. split; [done|].
  split; [apply strncpy_short; rewrite length_app; unfold MAX_HASH_LEN; lia|].
  split; [by apply ticks_files|by apply ticks_dirs].
Qed.

Lemma generate_file_hash_shape_witness :
  let g := generate_file_hash c{"a.txt"} (example_world [100]) in
  let s := default [] (fst g) in
  g = (Some s, snd g) ∧
  s = fmt_08lx (file_hash c{"a.txt"} (example_world [100]))
      ++ fmt_d (Z.rem (to_long (current_time (example_world [100]))) 10000) ∧
  (9 ≤ length s ≤ 21)%nat ∧
  Forall safe_char s ∧
  strncpy_z MAX_HASH_LEN s = s ∧
  files (snd g) = files (example_world [100]) ∧
  dirs (snd g) = dirs (example_world [100]).
Proof.
  intros g s.
  assert (H1 : generate_file_hash c{"a.txt"} (example_world [100])
               = (Some s, snd g)) by (vm_compute; reflexivity).
  split; [assumption|].
  exact (generate_file_hash_shape c{"a.txt"} (example_world [100]) s (snd g) H1).
Defined.

(** ** Initialising twice, and loading what was initialised *)

Lemma fprintf_dirs p s w :
  dirs (snd (fprintf p s w)) = dirs w ∧ cwd (snd (fprintf p s w)) = cwd w.
Proof. by destruct (fprintf_frame p s w) as [-> _]. Qed.

(** [mkdir] keeps the directories that were there; on [0] the new one is
    there too, otherwise nothing has changed. *)
Lemma mkdir_dirs p w m w' :
  mkdir p w = (m, w') →
  cwd w' = cwd w ∧ dirs w ⊆ dirs w' ∧
  (m = MkdirOk → p ∈ dirs w') ∧ (m ≠ MkdirOk → w' = w).
Proof.
  unfold mkdir. destruct (exists_at p w).
  - intros [= <- <-]. split; [done|]. split; [done|]. split; [done|done].
  - destruct (bool_decide (p ∈ nomkdir w)); intros [= <- <-].
    + split; [done|]. split; [done|]. split; [done|done].
    + cbn [cwd dirs set_dirs]. split; [done|].
      split; [apply union_subseteq_r|].
      split; [intros _; apply elem_of_union; left; by apply elem_of_singleton|done].
Qed.

(** What [init_repository] leaves: the directories that were there, and the
    control directory whenever its [mkdir] succeeded, also when a later step
    fails. *)
Lemma init_repository_dirs path w r w' :
  init_repository path w = (r, w') →
  cwd w' = cwd w ∧
  (fst (mkdir (vcs_path path) w) = MkdirOk → vcs_path path ∈ dirs w') ∧
  (fst (mkdir (vcs_path path) w) ≠ MkdirOk → r = -1 ∧ w' = w).
Proof.
  unfold init_repository. unfold bind at 1.
  destruct (mkdir (vcs_path path) w) as [m1 w1] eqn:H1.
  apply mkdir_dirs in H1 as (Hc1 & Hs1 & Hin1 & Hid1). cbn [fst].
  destruct m1; try (intros [= <- <-]; rewrite Hid1 by done; by repeat split).
  specialize (Hin1 eq_refl). clear Hid1.
  unfold bind at 1.
  destruct (mkdir (versions_path path) w1) as [m2 w2] eqn:H2.
  apply mkdir_dirs in H2 as (Hc2 & Hs2 & _ & Hid2).
  assert (cwd w2 = cwd w) as Hc2' by congruence.
  assert (vcs_path path ∈ dirs w2) as Hin2 by (by apply Hs2).
  destruct m2; try (intros [= <- <-]; by repeat split).
  unfold bind at 1.
  destruct (mkdir (temp_path path) w2) as [m3 w3] eqn:H3.
  apply mkdir_dirs in H3 as (Hc3 & Hs3 & _ & Hid3).
  assert (cwd w3 = cwd w) as Hc3' by congruence.
  assert (vcs_path path ∈ dirs w3) as Hin3 by (by apply Hs3).
  destruct m3; try (intros [= <- <-]; by repeat split).
  unfold bind at 1.
  destruct (fopen_w (initial_metadata_path path) w3) as [ok w4] eqn:H4.
  apply fopen_w_spec in H4 as ([Hw4 _] & _).
  assert (cwd w4 = cwd w ∧ vcs_path path ∈ dirs w4) as [Hc4 Hin4]
    by (rewrite Hw4; by split).
  destruct ok; [|intros [= <- <-]; by repeat split].
  unfold bind.
  pose proof (fprintf_dirs (initial_metadata_path path)
                (c{"# VCS Metadata File"} ++ [NL]) w4) as [Hd5 Hc5].
  destruct (fprintf _ _ w4) as [[] w5]. cbn [snd] in *.
  pose proof (fprintf_dirs (initial_metadata_path path)
                (c{"TOTAL_VERSIONS=0"} ++ [NL]) w5) as [Hd6 Hc6].
  destruct (fprintf _ _ w5) as [[] w6]. cbn [snd] in *.
  intros [= <- <-]. split; [congruence|]. split; [|done].
  intros _. by rewrite Hd6, Hd5.
Qed.

(** X17. After [vcs init], whatever its outcome, another [vcs init] in the
    same directory ends with the exit code 1 and changes nothing; after one
    that ended with 0 the repository exists. *)
Theorem main_init_twice prog rest w :
  let run := main (prog :: c{"init"} :: rest) w in
  (∀ prog' rest', main (prog' :: c{"init"} :: rest') (snd run) = (1, snd run)) ∧
  (fst run = 0 → fst (repository_exists (cwd w) (snd run)) = true).
Proof.
  assert (∀ prog rest w0, main (prog :: c{"init"} :: rest) w0
     = if fst (repository_exists (cwd w0) w0) then (1, w0)
       else let (r, w1) := init_repository (cwd w0) w0 in
            (if r =? 0 then 0 else 1, w1)) as Hmain.
  { clear. intros prog rest w0. unfold main.
    change (strcmp_eq c{"init"} c{"init"}) with true.
    unfold bind, getcwd, repository_exists, ret. cbv beta iota. cbn [fst].
    destruct (_ && _); [done|].
    destruct (init_repository (cwd w0) w0) as [r w1]. by destruct (r =? 0). }
  assert (∀ w0, vcs_path (cwd w0) ∈ dirs w0 →
                fst (repository_exists (cwd w0) w0) = true) as Hex.
  { intros w0 Hin. unfold repository_exists, exists_at. cbn [fst].
    rewrite (bool_decide_eq_true_2 _ Hin). by rewrite orb_true_r. }
  intros run. subst run. rewrite (Hmain prog rest w).
  destruct (fst (repository_exists (cwd w) w)) eqn:Hrepo; cbn [fst snd].
  { split; [|done]. intros prog' rest'. by rewrite Hmain, Hrepo. }
  destruct (init_repository (cwd w) w) as [r w1] eqn:Hinit. cbn [fst snd].
  pose proof Hinit as Hinit0.
  apply init_repository_dirs in Hinit as (Hcwd & Hok & Hfail).
  assert (vcs_path (cwd w) ∈ dirs w1 ∨ (r = -1 ∧ w1 = w)) as [Hin|[-> ->]].
  { destruct (fst (mkdir (vcs_path (cwd w)) w)); [left|right..]; auto. }
  - rewrite <- Hcwd in Hin |- *. rewrite (Hex w1 Hin).
    split; [|done]. intros prog' rest'. by rewrite Hmain, (Hex w1 Hin).
  - clear Hok Hfail. split; [|done]. intros prog' rest'.
    by rewrite Hmain, Hrepo, Hinit0.
Qed.

(** [load_repository] reads the file [init_repository] wrote. *)
Lemma metadata_path_initial path :
  metadata_path (mkRepository (strncpy_z MAX_PATH_LEN path) 0 [])
  = initial_metadata_path path.
Proof.
  unfold metadata_path, initial_metadata_path, vcs_path, snprintf, strncpy_z.
  cbn [base_path]. rewrite !take_take_app. by rewrite <- !app_assoc.
Qed.

(** The text [init_repository] writes is read as an empty history. *)
Lemma load_loop_initial repo w :
  load_loop 37 (c{"# VCS Metadata File"} ++ [NL] ++ c{"TOTAL_VERSIONS=0"} ++ [NL])
            repo w
  = (set_total_versions 0 repo, w).
Proof. reflexivity. Qed.

(** After an [init_repository] that returned [0], in a place where no
    metadata file was left over: the control directory is there, the
    allocator and the clock have not moved, and the metadata file holds the
    initial text or, where it could not be created, nothing. *)
Lemma init_repository_content path w :
  fst (init_repository path w) = 0 →
  files w !! initial_metadata_path path = None →
  capacity w !! initial_metadata_path path = None →
  let w' := snd (init_repository path w) in
  vcs_path path ∈ dirs w' ∧ heap w' = heap w ∧
  (content (initial_metadata_path path) w' = [] ∨
   content (initial_metadata_path path) w' = initial_text).
Proof.
  intros Hr Hnone Hcap w'. subst w'.
  destruct (init_repository path w) as [r w'] eqn:Hinit. cbn [fst snd] in *.
  subst r. pose proof (init_repository_dirs _ _ _ _ Hinit) as (_ & Hin & _).
  revert Hinit. unfold init_repository. unfold bind at 1.
  destruct (mkdir (vcs_path path) w) as [m1 w1] eqn:H1.
  apply mkdir_spec in H1 as (Hf1 & (_ & _ & _ & _ & Hcap1) & Hh1 & _).
  destruct m1; try (unfold ret; by intros [=]).
  specialize (Hin eq_refl).
  unfold bind at 1.
  destruct (mkdir (versions_path path) w1) as [m2 w2] eqn:H2.
  apply mkdir_spec in H2 as (Hf2 & (_ & _ & _ & _ & Hcap2) & Hh2 & _).
  destruct m2; try (unfold ret; by intros [=]).
  unfold bind at 1.
  destruct (mkdir (temp_path path) w2) as [m3 w3] eqn:H3.
  apply mkdir_spec in H3 as (Hf3 & (_ & _ & _ & _ & Hcap3) & Hh3 & _).
  destruct m3; try (unfold ret; by intros [=]).
  assert (files w3 !! initial_metadata_path path = None) as Hnone3
    by (by rewrite Hf3, Hf2, Hf1).
  assert (capacity w3 !! initial_metadata_path path = None) as Hcap'
    by (by rewrite Hcap3, Hcap2, Hcap1).
  assert (heap w3 = heap w) as Hh by congruence.
  unfold bind at 1. unfold fopen_w.
  destruct (_ || _).
  - intros [= <-]. split; [done|]. split; [done|]. left.
    unfold content. by rewrite Hnone3.
  - unfold bind. rewrite !fprintf_append by done.
    intros [= <-]. split; [done|]. split; [done|]. right.
    by rewrite content_insert.
Qed.

(** A metadata file that is empty or holds the initial text loads as
    nothing. *)
Lemma load_metadata_initial base w :
  content (metadata_path (mkRepository base 0 [])) w = [] ∨
  content (metadata_path (mkRepository base 0 [])) w = initial_text →
  load_metadata (mkRepository base 0 []) w = ((0, mkRepository base 0 []), w).
Proof.
  intros Hc. unfold load_metadata, bind, fopen_r, ret. cbv beta iota.
  destruct (_ && _); [|done]. cbn [negb].
  destruct Hc as [-> | ->]; [done|].
  change (length initial_text) with 37%nat. unfold initial_text.
  by rewrite load_loop_initial.
Qed.

(** X18. After an [init_repository] that returned [0], where no metadata
    file was left over from before, the repository exists and
    [load_repository] returns the empty history: the path cut to its array,
    the count 0 and no record, whether the metadata file could be written or
    not. It takes one block from the allocator. *)
Theorem init_then_load_repository path w blk h :
  fst (init_repository path w) = 0 →
  files w !! initial_metadata_path path = None →
  capacity w !! initial_metadata_path path = None →
  heap w = Some blk :: h →
  let w' := snd (init_repository path w) in
  fst (repository_exists path w') = true ∧
  load_repository path w'
  = (Some (mkRepository (strncpy_z MAX_PATH_LEN path) 0 []), set_heap h w').
Proof.
  intros Hr Hnone Hcap Hheap w'.
  destruct (init_repository_content path w Hr Hnone Hcap) as (Hin & Hh & Hc).
  fold w' in Hin, Hh, Hc. split.
  - unfold repository_exists, exists_at. cbn [fst].
    rewrite (bool_decide_eq_true_2 _ Hin). by rewrite orb_true_r.
  - unfold load_repository, bind, malloc. rewrite Hh, Hheap.
    rewrite load_metadata_initial; [done|].
    by rewrite metadata_path_initial.
Qed.

Lemma init_then_load_repository_witness :
  let w' := snd (init_repository c{"/w"} fresh_world) in
  fst (init_repository c{"/w"} fresh_world) = 0 ∧
  files fresh_world !! initial_metadata_path c{"/w"} = None ∧
  capacity fresh_world !! initial_metadata_path c{"/w"} = None ∧
  heap fresh_world = Some zero_block :: replicate 7 (Some zero_block) ∧
  fst (repository_exists c{"/w"} w') = true ∧
  load_repository c{"/w"} w'
  = (Some (mkRepository (strncpy_z MAX_PATH_LEN c{"/w"}) 0 []),
     set_heap (replicate 7 (Some zero_block)) w').
Proof.
  intros w'.
  assert (H1 : fst (init_repository c{"/w"} fresh_world) = 0)
    by (vm_compute; reflexivity).
  assert (H2 : files fresh_world !! initial_metadata_path c{"/w"} = None)
    by (vm_compute; reflexivity).
  assert (H3 : capacity fresh_world !! initial_metadata_path c{"/w"} = None)
    by (vm_compute; reflexivity).
  assert (H4 : heap fresh_world
               = Some zero_block :: replicate 7 (Some zero_block))
    by reflexivity.
  do 4 (split; [assumption|]).
  exact (init_then_load_repository c{"/w"} fresh_world zero_block
           (replicate 7 (Some zero_block)) H1 H2 H3 H4).
Defined.

(** ** The exit status *)

(** X19. The exit code of [main] does not tell whether the operation
    succeeded. For [checkout], [list] and [rollback] with their arguments it
    is 0 as soon as the control directory is there and the repository loads,
    whatever [checkout_file], [list_versions] and [rollback_to_version]
    return, and 1 otherwise; for [checkin] it is 0 when in addition something
    exists at the name, whatever [checkin_file] returns. *)
Theorem main_exit_status prog name rest w :
  fst (main (prog :: c{"checkout"} :: name :: rest) w)
  = (if ready w then 0 else 1) ∧
  fst (main (prog :: c{"list"} :: name :: rest) w)
  = (if ready w then 0 else 1) ∧
  (∀ version,
     fst (main (prog :: c{"rollback"} :: name :: version :: rest) w)
     = (if ready w then 0 else 1)) ∧
  fst (main (prog :: c{"checkin"} :: name :: rest) w)
  = (if ready w && exists_at name w then 0 else 1).
Proof.
  unfold ready, main.
  change (strcmp_eq c{"checkout"} c{"init"}) with false.
  change (strcmp_eq c{"list"} c{"init"}) with false.
  change (strcmp_eq c{"rollback"} c{"init"}) with false.
  change (strcmp_eq c{"checkin"} c{"init"}) with false.
  change (strcmp_eq c{"checkout"} c{"checkin"}) with false.
  change (strcmp_eq c{"list"} c{"checkin"}) with false.
  change (strcmp_eq c{"rollback"} c{"checkin"}) with false.
  change (strcmp_eq c{"checkin"} c{"checkin"}) with true.
  change (strcmp_eq c{"checkout"} c{"checkout"}) with true.
  change (strcmp_eq c{"list"} c{"checkout"}) with false.
  change (strcmp_eq c{"rollback"} c{"checkout"}) with false.
  change (strcmp_eq c{"list"} c{"list"}) with true.
  change (strcmp_eq c{"rollback"} c{"list"}) with false.
  change (strcmp_eq c{"rollback"} c{"rollback"}) with true.
  unfold bind, getcwd, ret. cbv beta iota.
  destruct (repository_exists (cwd w) w) as [found w0] eqn:Hex.
  assert (w0 = w) as -> by (unfold repository_exists in Hex; by injection Hex).
  cbn [fst]. destruct found; cbn [negb andb]; [|by repeat split].
  pose proof (load_repository_ticks (cwd w) w) as Ht.
  destruct (load_repository (cwd w) w) as [[repo|] w1]; cbn [fst snd] in *.
  2:{ rewrite bool_decide_eq_false_2 by (by intros [? ?]). by repeat split. }
  rewrite bool_decide_eq_true_2 by (by eexists).
  split; [by destruct (checkout_file _ _ _ w1)|].
  split; [done|].
  split; [intros version; by destruct (rollback_to_version _ _ _ w1)|].
  unfold file_exists, bind, stat, ret. cbv beta iota.
  rewrite (ticks_exists_at name w w1 Ht).
  destruct (exists_at name w).
  - rewrite bool_decide_eq_true_2 by (by eexists). cbn [negb].
    by destruct (checkin_file _ _ _ w1).
  - by rewrite bool_decide_eq_false_2 by (by intros [? ?]).
Qed.

(** X20. Without a control directory in the working directory, every
    command but [init] ends with the exit code 1 and changes nothing, not
    even the allocator: the repository is not loaded. So does [main] without
    a command. *)
Theorem main_needs_repository prog command args w :
  fst (repository_exists (cwd w) w) = false → command ≠ c{"init"} →
  main (prog :: command :: args) w = (1, w) ∧ main [prog] w = (1, w).
Proof.
  intros Hex Hcmd. split; [|done]. unfold main, strcmp_eq.
  rewrite (bool_decide_eq_false_2 _ Hcmd).
  unfold bind, getcwd, ret. cbv beta iota.
  destruct (repository_exists (cwd w) w) as [found w0] eqn:Hre.
  assert (w0 = w) as -> by (unfold repository_exists in Hre; by injection Hre).
  cbn [fst] in Hex. by subst found.
Qed.

Lemma main_needs_repository_witness :
  fst (repository_exists (cwd fresh_world) fresh_world) = false ∧
  c{"list"} ≠ c{"init"} ∧
  main [c{"vcs"}; c{"list"}; c{"a.txt"}] fresh_world = (1, fresh_world) ∧
  main [c{"vcs"}] fresh_world = (1, fresh_world).
Proof.
  assert (H1 : fst (repository_exists (cwd fresh_world) fresh_world) = false)
    by (vm_compute; reflexivity).
  assert (H2 : c{"list"} ≠ c{"init"}) by decide_by_compute.
  do 2 (split; [assumption|]).
  exact (main_needs_repository c{"vcs"} c{"list"} [c{"a.txt"}] fresh_world H1 H2).
Defined.

(** ** Lines that the load passes over *)

(** A line that is neither a count nor a record changes nothing. *)
Lemma load_line_ignored line repo w :
  ignored_line line = true → load_line line repo w = (repo, w).
Proof.
  unfold ignored_line, load_line.
  destruct (bool_decide (head line = Some "#"%char)
            || bool_decide (head line = Some NL)); [done|].
  cbn [orb]. intros [H1 H2]%andb_true_iff.
  apply negb_true_iff in H1, H2. by rewrite H1, H2.
Qed.

Lemma last_cons_ne {A} (c x : A) s : last (c :: x :: s) = last (x :: s).
Proof. done. Qed.

(** [fgets] on a text that ends with a newline does not read past it. *)
Lemma fgets_chars_app_l n : ∀ a b l r,
  last a = Some NL → fgets_chars n a = (l, r) →
  fgets_chars n (a ++ b) = (l, r ++ b) ∧ whole_lines r.
Proof.
  induction n as [|n IH]; intros a b l r Ha.
  - destruct a; intros [= <- <-]; [done|]. split; [done|by right].
  - destruct a as [|c a]; [done|].
    cbn [fgets_chars app].
    destruct (Ascii.eqb_spec c NL) as [->|Hc].
    + intros [= <- <-]. split; [done|].
      destruct a as [|x a]; [by left|by right].
    + destruct a as [|x a]; [simpl in Ha; congruence|].
      rewrite last_cons_ne in Ha.
      destruct (fgets_chars n (x :: a)) as [l' r'] eqn:Hf.
      destruct (IH (x :: a) b l' r' Ha Hf) as [Hf' Hr].
      rewrite Hf'. by intros [= <- <-].
Qed.

(** Reading a text of whole lines, then what follows it. *)
Lemma load_loop_app k : ∀ a b repo w,
  (length a ≤ k)%nat → whole_lines a →
  load_loop (length (a ++ b)) (a ++ b) repo w
  = let (repo1, w1) := load_loop (length a) a repo w in
    load_loop (length b) b repo1 w1.
Proof.
  induction k as [|k IH]; intros a b repo w Hk Ha.
  - destruct a; [|simpl in Hk; lia]. done.
  - destruct a as [|c a]; [done|].
    cbn [app length load_loop fgets]. change (1024 - 1)%nat with 1023%nat.
    destruct (fgets_chars 1023 (c :: a)) as [l r] eqn:Hf.
    destruct Ha as [Ha|Ha]; [done|].
    destruct (fgets_chars_app_l _ _ b _ _ Ha Hf) as [Hf' Hr].
    cbn [app] in Hf'. rewrite Hf'.
    apply fgets_chars_progress in Hf.
    unfold bind. destruct (load_line (c_str l) repo w) as [repo1 w1].
    simpl in Hk.
    rewrite (load_loop_fuel _ (length (r ++ b))) by (rewrite !length_app; lia).
    rewrite (load_loop_fuel (length a) (length r)) by lia.
    apply IH; [lia|done].
Qed.

Lemma load_line_set_files line repo f w :
  load_line line repo (set_files f w)
  = let (r, w') := load_line line repo w in (r, set_files f w').
Proof.
  unfold load_line. destruct (_ || _); [done|].
  destruct (strncmp_eq line _ 15); [done|].
  destruct (strncmp_eq line _ 5); [|done].
  unfold bind, malloc, ret. cbn [heap set_files].
  by destruct (heap w) as [|[blk|] h].
Qed.

(** The loop reads the stream it was given: the files of the world do not
    matter to it. *)
Lemma load_loop_set_files fuel : ∀ stream repo f w,
  load_loop fuel stream repo (set_files f w)
  = let (r, w') := load_loop fuel stream repo w in (r, set_files f w').
Proof.
  induction fuel as [|k IH]; intros stream repo f w; cbn [load_loop];
    destruct (fgets 1024 stream) as [[line rest]|]; try done.
  unfold bind. rewrite load_line_set_files.
  destruct (load_line (c_str line) repo w) as [repo1 w1]. apply IH.
Qed.

(** X21. A line of less than 1023 characters that is a comment, empty, or
    neither a count nor a record can be put between the lines of a metadata
    file, or before or after them, without a difference to what
    [load_metadata] returns and to what it takes from the allocator. *)
Theorem load_metadata_ignores_lines repo w (a body b : list ascii) :
  whole_lines a → NL ∉ body → (length body < 1023)%nat →
  ignored_line (c_str (body ++ [NL])) = true →
  files w !! metadata_path repo = Some (a ++ body ++ NL :: b) →
  let w0 := set_files (<[metadata_path repo := a ++ b]> (files w)) w in
  fst (load_metadata repo w) = fst (load_metadata repo w0) ∧
  heap (snd (load_metadata repo w)) = heap (snd (load_metadata repo w0)).
Proof.
  intros Ha Hnl Hlen Hig Hfile w0.
  assert (exists_at (metadata_path repo) w = true) as Hex
    by (apply exists_at_file; by eexists).
  assert (exists_at (metadata_path repo) w0 = true) as Hex0.
  { apply exists_at_file. unfold w0. cbn [files set_files].
    rewrite lookup_insert_eq. by eexists. }
  unfold load_metadata, bind, fopen_r, ret. cbv beta iota.
  rewrite Hex, Hex0. change (unreadable w0) with (unreadable w).
  destruct (bool_decide _); cbn [andb negb]; [done|].
  rewrite (lookup_content _ _ _ Hfile).
  assert (content (metadata_path repo) w0 = a ++ b) as ->
    by (unfold w0; apply content_insert).
  unfold w0. rewrite load_loop_set_files.
  rewrite (load_loop_app (length a) a (body ++ NL :: b)) by done.
  rewrite (load_loop_app (length a) a b) by done.
  destruct (load_loop (length a) a repo w) as [repo1 w1].
  rewrite load_loop_line, load_line_ignored by done.
  by destruct (load_loop (length b) b repo1 w1).
Qed.

Lemma load_metadata_ignores_lines_witness :
  let a := c{"# VCS Metadata File"} ++ [NL] in
  let body := c{"a note that is no record"} in
  let b := c{"TOTAL_VERSIONS=7"} ++ [NL] in
  let w := heap_world (a ++ body ++ NL :: b) [] in
  let w0 := set_files (<[metadata_path empty_repository := a ++ b]> (files w)) w in
  whole_lines a ∧ (NL ∉ body) ∧ (length body < 1023)%nat ∧
  ignored_line (c_str (body ++ [NL])) = true ∧
  files w !! metadata_path empty_repository = Some (a ++ body ++ NL :: b) ∧
  fst (load_metadata empty_repository w) = fst (load_metadata empty_repository w0) ∧
  heap (snd (load_metadata empty_repository w))
  = heap (snd (load_metadata empty_repository w0)).
Proof.
  intros a body b w w0.
  assert (H1 : whole_lines a) by decide_by_compute.
  assert (H2 : NL ∉ body) by decide_by_compute.
  assert (H3 : (length body < 1023)%nat) by (vm_compute; lia).
  assert (H4 : ignored_line (c_str (body ++ [NL])) = true)
    by (vm_compute; reflexivity).
  assert (H5 : files w !! metadata_path empty_repository
               = Some (a ++ body ++ NL :: b)) by (vm_compute; reflexivity).
  do 5 (split; [assumption|]).
  exact (load_metadata_ignores_lines empty_repository w a body b H1 H2 H3 H4 H5).
Defined.

(** [fgets] on a line that fills the buffer: the buffer, and the rest for
    the next call. *)
Lemma fgets_chars_full n : ∀ (body tail : list ascii),
  length body = n → NL ∉ body → fgets_chars n (body ++ tail) = (body, tail).
Proof.
  induction n as [|n IH]; intros body tail Hlen Hnl.
  - destruct body; [|done]. by destruct tail.
  - destruct body as [|c body]; [done|]. cbn [app fgets_chars].
    apply not_elem_of_cons in Hnl as [Hc Hnl].
    destruct (Ascii.eqb_spec c NL) as [->|_]; [done|].
    rewrite IH; [done|by injection Hlen|done].
Qed.

(** One round of the loop on a line that does not fit the buffer: the first
    1023 characters are the line, the rest is read as the next one. *)
Lemma load_loop_long_line (body tail : list ascii) repo w :
  length body = 1023%nat → NL ∉ body →
  load_loop (length (body ++ tail)) (body ++ tail) repo w
  = let (repo', w') := load_line (c_str body) repo w in
    load_loop (length tail) tail repo' w'.
Proof.
  intros Hlen Hnl. rewrite length_app, Hlen.
  change (1023 + length tail)%nat with (S (1022 + length tail)).
  destruct body as [|c body]; [done|].
  cbn [load_loop app fgets]. change (1024 - 1)%nat with 1023%nat.
  change (c :: body ++ tail) with ((c :: body) ++ tail).
  rewrite fgets_chars_full by done.
  unfold bind. destruct (load_line _ repo w) as [repo' w'].
  apply load_loop_fuel; lia.
Qed.

(** X22. A line is at most 1023 characters for [load_metadata]: when a
    line that is passed over (a comment, say) is longer, what follows its
    first 1023 characters is read as a line of its own, as if the beginning
    were not there. *)
Theorem load_metadata_long_line repo w (a body tail : list ascii) :
  whole_lines a → NL ∉ body → length body = 1023%nat →
  ignored_line (c_str body) = true →
  files w !! metadata_path repo = Some (a ++ body ++ tail) →
  let w0 := set_files (<[metadata_path repo := a ++ tail]> (files w)) w in
  fst (load_metadata repo w) = fst (load_metadata repo w0) ∧
  heap (snd (load_metadata repo w)) = heap (snd (load_metadata repo w0)).
Proof.
  intros Ha Hnl Hlen Hig Hfile w0.
  assert (exists_at (metadata_path repo) w = true) as Hex
    by (apply exists_at_file; by eexists).
  assert (exists_at (metadata_path repo) w0 = true) as Hex0.
  { apply exists_at_file. unfold w0. cbn [files set_files].
    rewrite lookup_insert_eq. by eexists. }
  unfold load_metadata, bind, fopen_r, ret. cbv beta iota.
  rewrite Hex, Hex0. change (unreadable w0) with (unreadable w).
  destruct (bool_decide _); cbn [andb negb]; [done|].
  rewrite (lookup_content _ _ _ Hfile).
  assert (content (metadata_path repo) w0 = a ++ tail) as ->
    by (unfold w0; apply content_insert).
  unfold w0. rewrite load_loop_set_files.
  rewrite (load_loop_app (length a) a (body ++ tail)) by done.
  rewrite (load_loop_app (length a) a tail) by done.
  destruct (load_loop (length a) a repo w) as [repo1 w1].
  rewrite load_loop_long_line, load_line_ignored by done.
  by destruct (load_loop (length tail) tail repo1 w1).
Qed.

Lemma load_metadata_long_line_witness :
  let body := "#"%char :: replicate 1022 "x"%char in
  let tail := c{"TOTAL_VERSIONS=7"} ++ [NL] in
  let w := heap_world ([] ++ body ++ tail) [] in
  let w0 := set_files (<[metadata_path empty_repository := [] ++ tail]> (files w)) w in
  whole_lines [] ∧ (NL ∉ body) ∧ length body = 1023%nat ∧
  ignored_line (c_str body) = true ∧
  files w !! metadata_path empty_repository = Some ([] ++ body ++ tail) ∧
  fst (load_metadata empty_repository w) = fst (load_metadata empty_repository w0) ∧
  heap (snd (load_metadata empty_repository w))
  = heap (snd (load_metadata empty_repository w0)).
Proof.
  intros body tail w w0.
  assert (H1 : whole_lines []) by decide_by_compute.
  assert (H2 : NL ∉ body) by decide_by_compute.
  assert (H3 : length body = 1023%nat) by (vm_compute; reflexivity).
  assert (H4 : ignored_line (c_str body) = true) by (vm_compute; reflexivity).
  assert (H5 : files w !! metadata_path empty_repository
               = Some ([] ++ body ++ tail)) by (vm_compute; reflexivity).
  do 5 (split; [assumption|]).
  exact (load_metadata_long_line empty_repository w [] body tail H1 H2 H3 H4 H5).
Defined.

(** ** Without memory *)

(** The line of a record when [malloc] returns [NULL]: the record is
    skipped. *)
Lemma load_line_version_null v repo w h :
  storable v → heap w = None :: h →
  load_line (c_str (version_line v)) repo w = (repo, set_heap h w).
Proof.
  intros Hv Hheap. pose proof (line_body_plain v Hv) as [Hnul Hnl].
  rewrite c_str_id.
  2:{ rewrite version_line_body, elem_of_app, list_elem_of_singleton.
      intros [?|?]; done. }
  unfold version_line. rewrite load_line_file.
  unfold malloc. by rewrite Hheap.
Qed.

(** X23. When [malloc] returns [NULL] for the line of a record,
    [load_metadata] drops that record, goes on with the next line and still
    returns [0]: the other records are loaded, and the count is the one of
    the file, one more than the records of the list. *)
Theorem load_metadata_out_of_memory r repo w vs1 v vs2
    (junks1 junks2 : list FileVersion) h :
  version_list r = vs1 ++ v :: vs2 →
  files w !! metadata_path repo = Some (metadata_text r) →
  metadata_path repo ∉ unreadable w →
  is_int (total_versions r) → Forall storable (version_list r) →
  length junks1 = length vs1 → length junks2 = length vs2 →
  heap w = (Some <$> junks1) ++ None :: (Some <$> junks2) ++ h →
  load_metadata repo w
  = ((0, mkRepository (base_path repo) (total_versions r)
           (reverse (loaded <$> (vs1 ++ vs2)) ++ version_list repo)),
     set_heap h w).
Proof.
  intros Hlist Hfile Hr Hint Hvs Hl1 Hl2 Hheap.
  rewrite Hlist in Hvs. apply Forall_app in Hvs as [Hvs1 Hvs].
  apply Forall_cons in Hvs as [Hv Hvs2].
  unfold load_metadata, bind, fopen_r, exists_at, content.
  rewrite Hfile. rewrite (bool_decide_eq_true_2 (is_Some _)) by by eexists.
  rewrite (bool_decide_eq_false_2 _ Hr). cbn [orb andb negb].
  rewrite Hfile. cbn [default from_option]. unfold id.
  unfold metadata_text. rewrite load_loop_header by done.
  rewrite Hlist, map_app, concat_app. cbn [map concat].
  rewrite <- ?app_assoc.
  rewrite (load_loop_versions vs1 junks1 (None :: (Some <$> junks2) ++ h))
    by done.
  rewrite version_line_body, <- !app_assoc. cbn [app].
  pose proof (line_body_plain v Hv) as [Hnul Hnl].
  rewrite load_loop_line by auto using line_body_length.
  rewrite <- version_line_body.
  rewrite (load_line_version_null v _ _ ((Some <$> junks2) ++ h)) by done.
  rewrite <- (app_nil_r (concat (map version_line vs2))).
  rewrite (load_loop_versions vs2 junks2 h) by done.
  cbn [load_loop fgets length ret set_version_list set_total_versions
       version_list base_path total_versions set_heap heap].
  rewrite fmap_app, reverse_app, <- app_assoc.
  by destruct w.
Qed.

Lemma load_metadata_out_of_memory_witness :
  let v2 := mkFileVersion c{"a.txt"} c{"65301d843be200"} 2 200 c{"second"} 5 in
  let v1 := mkFileVersion c{"a.txt"} c{"65301d843be100"} 1 100 c{"first"} 5 in
  let w := heap_world (metadata_text example_history)
             ((Some <$> [zero_block]) ++ None :: (Some <$> []) ++ []) in
  version_list example_history = [v2] ++ v1 :: [] ∧
  files w !! metadata_path empty_repository
  = Some (metadata_text example_history) ∧
  (metadata_path empty_repository ∉ unreadable w) ∧
  is_int (total_versions example_history) ∧
  Forall storable (version_list example_history) ∧
  length [zero_block] = length [v2] ∧
  length (@nil FileVersion) = length (@nil FileVersion) ∧
  heap w = (Some <$> [zero_block]) ++ None :: (Some <$> []) ++ [] ∧
  load_metadata empty_repository w
  = ((0, mkRepository (base_path empty_repository)
           (total_versions example_history)
           (reverse (loaded <$> ([v2] ++ [])) ++ version_list empty_repository)),
     set_heap [] w).
Proof.
  intros v2 v1 w.
  assert (H1 : version_list example_history = [v2] ++ v1 :: []) by reflexivity.
  assert (H2 : files w !! metadata_path empty_repository
               = Some (metadata_text example_history))
    by (vm_compute; reflexivity).
  assert (H3 : metadata_path empty_repository ∉ unreadable w)
    by decide_by_compute.
  assert (H4 : is_int (total_versions example_history)) by decide_by_compute.
  assert (H5 : Forall storable (version_list example_history))
    by decide_by_compute.
  assert (H6 : length [zero_block] = length [v2]) by reflexivity.
  assert (H7 : length (@nil FileVersion) = length (@nil FileVersion))
    by reflexivity.
  assert (H8 : heap w = (Some <$> [zero_block]) ++ None :: (Some <$> []) ++ [])
    by reflexivity.
  do 8 (split; [assumption|]).
  exact (load_metadata_out_of_memory example_history empty_repository w
           [v2] v1 [] [zero_block] [] [] H1 H2 H3 H4 H5 H6 H7 H8).
Defined.



(** X25. When [generate_file_hash] returns [NULL], here because [malloc]
    has no block for the string, the check-in still succeeds: it returns the
    next version number and the new record has the hash "unknown". *)
Theorem checkin_file_unknown_hash repo name cmt w blk h :
  let next := to_int (get_latest_version repo name + 1) in
  fst (create_version_file name next w) = 0 →
  heap w = Some blk :: h → fst (malloc (set_heap h w)) = None →
  ∃ rec,
    fst (checkin_file repo name cmt w)
    = (next, mkRepository (base_path repo) (to_int (total_versions repo + 1))
               (rec :: version_list repo)) ∧
    hash rec = c{"unknown"} ∧
    filename rec = strncpy_z MAX_FILENAME_LEN name ∧
    version_number rec = next.
Proof.
  intros next Hcv Hheap Hm. unfold checkin_file. fold next. unfold bind at 1.
  destruct (create_version_file name next w) as [r wa] eqn:Hc.
  cbn [fst] in Hcv. subst r. cbn [Z.eqb negb].
  apply create_version_file_spec in Hc as (_ & Hh & _).
  unfold bind at 1. rewrite (malloc_some blk h) by congruence.
  assert (fst (generate_file_hash name (set_heap h wa)) = None) as Hg.
  { unfold generate_file_hash, bind, fopen_r, stat, ret. cbv beta iota.
    destruct (_ && _); [|done]. cbn [negb].
    revert Hm. unfold malloc. cbn [heap set_heap].
    by destruct h as [|[b|] h']. }
  unfold bind at 1.
  destruct (generate_file_hash name (set_heap h wa)) as [hs wc].
  cbn [fst] in Hg. subst hs.
  unfold bind at 1. destruct (time wc) as [now wd].
  unfold bind at 1. destruct (stat name wd) as [st we].
  unfold bind, ret. destruct (save_metadata _ we) as [s wf]. cbn [fst].
  eexists. split; [reflexivity|]. by destruct st.
Qed.

Lemma checkin_file_unknown_hash_witness :
  let w := set_heap [Some zero_block] (example_world [100; 100]) in
  let next := to_int (get_latest_version empty_repository c{"a.txt"} + 1) in
  fst (create_version_file c{"a.txt"} next w) = 0 ∧
  heap w = Some zero_block :: [] ∧
  fst (malloc (set_heap [] w)) = None ∧
  ∃ rec,
    fst (checkin_file empty_repository c{"a.txt"} c{"first"} w)
    = (next, mkRepository (base_path empty_repository)
               (to_int (total_versions empty_repository + 1))
               (rec :: version_list empty_repository)) ∧
    hash rec = c{"unknown"} ∧
    filename rec = strncpy_z MAX_FILENAME_LEN c{"a.txt"} ∧
    version_number rec = next.
Proof.
  intros w next.
  assert (H1 : fst (create_version_file c{"a.txt"} next w) = 0)
    by (vm_compute; reflexivity).
  assert (H2 : heap w = Some zero_block :: []) by reflexivity.
  assert (H3 : fst (malloc (set_heap [] w)) = None) by reflexivity.
  do 3 (split; [assumption|]).
  exact (checkin_file_unknown_hash empty_repository c{"a.txt"} c{"first"} w
           zero_block [] H1 H2 H3).
Defined.

(** ** One line, one record *)

(** Parsing the line of a storable record. *)
Lemma parse_version_storable v blk :
  storable v → parse_version (version_line v) blk = loaded v.
Proof.
  intros (?&?&[? ?]&?&?&[? ?]&?&?&[? ?]&?&?&?).
  by apply parse_version_line.
Qed.

(** X26. The line [save_metadata] writes for a storable record is parsed
    back by [load_metadata] to the same record with its comment cut at the
    first [|], whatever the block of [malloc] held; to the very record when
    the comment has no [|]. So the line tells the record: two storable
    records with the same line are loaded as the same record. *)
Theorem version_line_round_trip v :
  storable v →
  (∀ blk, parse_version (version_line v) blk = loaded v) ∧
  (BAR ∉ comment v → ∀ blk, parse_version (version_line v) blk = v) ∧
  (∀ v', storable v' → version_line v' = version_line v → loaded v' = loaded v).
Proof.
  intros Hv. split; [intros blk; by apply parse_version_storable|]. split.
  - intros Hbar blk. rewrite parse_version_storable by done. by apply loaded_id.
  - intros v' Hv' Heq.
    rewrite <- (parse_version_storable v' v' Hv'), Heq.
    by apply parse_version_storable.
Qed.

Lemma version_line_round_trip_witness :
  let v := mkFileVersion c{"a.txt"} c{"65301d843be100"} 1 100 c{"first|draft"} 5 in
  storable v ∧
  (∀ blk, parse_version (version_line v) blk = loaded v) ∧
  (BAR ∉ comment v → ∀ blk, parse_version (version_line v) blk = v) ∧
  (∀ v', storable v' → version_line v' = version_line v → loaded v' = loaded v).
Proof.
  intros v.
  assert (H1 : storable v) by decide_by_compute.
  split; [assumption|].
  exact (version_line_round_trip v H1).
Defined.

(** ** Saving, and finding it again *)

(** X27. What [save_metadata] does on a metadata file without a limit of
    size. When the file opens for writing the result is [0] and the file
    holds the header and one line per record, in the order of the list, in
    place of whatever it held; otherwise the result is [-1] and nothing has
    changed. Saving again changes nothing more. *)
Theorem save_metadata_outcome repo w :
  capacity w !! metadata_path repo = None →
  save_metadata repo w
  = (if bool_decide (metadata_path repo ∉ unwritable w)
        && bool_decide (metadata_path repo ∉ dirs w)
     then (0, set_files (<[metadata_path repo :=
                             metadata_header repo
                             ++ concat (map version_line (version_list repo))]>
                           (files w)) w)
     else (-1, w)) ∧
  save_metadata repo (snd (save_metadata repo w)) = save_metadata repo w.
Proof.
  intros Hcap.
  destruct (decide (metadata_path repo ∈ unwritable w)) as [Hw|Hw].
  { rewrite (bool_decide_eq_false_2 (metadata_path repo ∉ unwritable w))
      by tauto.
    rewrite save_metadata_refused by (by left). cbn [andb snd].
    split; [done|]. apply save_metadata_refused. by left. }
  rewrite (bool_decide_eq_true_2 (metadata_path repo ∉ unwritable w)) by done.
  destruct (decide (metadata_path repo ∈ dirs w)) as [Hd|Hd].
  { rewrite (bool_decide_eq_false_2 (metadata_path repo ∉ dirs w)) by tauto.
    rewrite save_metadata_refused by (by right). cbn [andb snd].
    split; [done|]. apply save_metadata_refused. by right. }
  rewrite (bool_decide_eq_true_2 (metadata_path repo ∉ dirs w)) by done.
  rewrite save_metadata_written by done. cbn [andb snd]. split; [done|].
  rewrite save_metadata_written by done. cbn [files set_files].
  by rewrite insert_insert_eq.
Qed.

Lemma save_metadata_outcome_witness :
  let repo := example_history in
  let w := example_world [] in
  capacity w !! metadata_path repo = None ∧
  save_metadata repo w
  = (if bool_decide (metadata_path repo ∉ unwritable w)
        && bool_decide (metadata_path repo ∉ dirs w)
     then (0, set_files (<[metadata_path repo :=
                             metadata_header repo
                             ++ concat (map version_line (version_list repo))]>
                           (files w)) w)
     else (-1, w)) ∧
  save_metadata repo (snd (save_metadata repo w)) = save_metadata repo w.
Proof.
  intros repo w.
  assert (H1 : capacity w !! metadata_path repo = None)
    by (vm_compute; reflexivity).
  split; [assumption|].
  exact (save_metadata_outcome repo w H1).
Defined.

(** X28. A check-in that succeeded is found by the next process. The
    history and the name are storable, the comment has no newline, and the
    metadata file can be written and read: then [load_repository] on the
    world the check-in left returns a repository with the records of the
    history after the check-in, in the reverse order, and its count; the
    latest version of the name is the one the check-in returned, and
    [find_file_version] finds it. *)
Theorem checkin_file_durable repo name cmt w v repo' w'
    (junks : list FileVersion) blk blocks :
  Forall storable (version_list repo) → storable_name name → plain cmt →
  (length (base_path repo) < MAX_PATH_LEN)%nat →
  metadata_usable repo w → metadata_path repo ≠ version_dir (cwd w) name →
  checkin_file repo name cmt w = ((v, repo'), w') → 0 < v →
  length junks = length (version_list repo') →
  let later := set_heap (Some blk :: (Some <$> junks) ++ blocks) w' in
  ∃ loaded_repo,
    load_repository (base_path repo) later = (Some loaded_repo, set_heap blocks w') ∧
    version_list loaded_repo = reverse (loaded <$> version_list repo') ∧
    total_versions loaded_repo = total_versions repo' ∧
    get_latest_version loaded_repo name = v ∧
    is_Some (find_file_version loaded_repo name v).
Proof.
  intros Hvs (Hne & Hlen & Hplain & Hbar) Hcmt Hbase (Hw & Hd & Hcap & Hr) Hvd
         Hci Hv Hjunks later.
  pose proof (checkin_file_storable repo name cmt w Hne Hlen Hplain Hbar Hcmt Hvs)
    as Hvs'.
  rewrite Hci in Hvs'. cbn [fst snd] in Hvs'.
  pose proof (storable_int_versions _ Hvs) as Hint.
  pose proof (checkin_file_latest repo name cmt w name v repo' w' Hlen Hint Hci)
    as (_ & Hlatest & _).
  destruct (Hlatest eq_refl Hv) as [_ Hlatest'].
  destruct (checkin_file_then_find_head _ _ _ _ _ _ _ Hlen Hci Hv) as [rec Hfind].
  apply checkin_file_spec in Hci as [(-> & _)|Hci]; [done|].
  destruct Hci as (rec' & w1 & s & _ & Hrepo' & _ & _ & _ & _ & _ & _ & Hsave
                   & (_ & Hur & Huw & _ & Hcap1) & Hdirs & _).
  assert (metadata_path repo' = metadata_path repo) as Hmp by (by rewrite Hrepo').
  assert (base_path repo' = base_path repo) as Hbp by (by rewrite Hrepo').
  assert (is_int (total_versions repo')) as Htot
    by (rewrite Hrepo'; apply to_int_range).
  rewrite save_metadata_written in Hsave.
  2:{ by rewrite Hmp, Huw. }
  2:{ rewrite Hmp. destruct Hdirs as [->| ->]; [done|].
      intros [Hin|Hin]%elem_of_union; [|done].
      by apply elem_of_singleton in Hin. }
  2:{ by rewrite Hmp, Hcap1. }
  injection Hsave as _ Hw'. rewrite Hmp in Hw'.
  exists (mkRepository (base_path repo) (total_versions repo')
                       (reverse (loaded <$> version_list repo'))).
  split.
  - unfold load_repository, bind, later.
    rewrite (malloc_some blk ((Some <$> junks) ++ blocks)) by done.
    rewrite strncpy_short by done.
    rewrite (load_metadata_text repo' _ _ junks blocks); try done.
    + cbn [Z.eqb negb ret version_list base_path]. rewrite app_nil_r.
      by destruct w'.
    + rewrite <- Hw'. cbn [files set_files set_heap].
      rewrite metadata_path_base. apply lookup_insert_eq.
    + rewrite metadata_path_base, <- Hw'. cbn [unreadable set_files set_heap].
      by rewrite Hur.
  - cbn [version_list total_versions]. split; [done|]. split; [done|].
    unfold get_latest_version, find_file_version in *. cbn [version_list].
    rewrite latest_from_reverse, latest_from_loaded. split; [done|].
    apply find_from_Some in Hfind as (Hin & Hn & Hk).
    apply (find_from_is_Some _ _ _ (loaded rec)); [|done|done].
    apply elem_of_reverse, list_elem_of_fmap. by exists rec.
Qed.

Lemma checkin_file_durable_witness :
  let w := example_world [100; 100] in
  let r := checkin_file empty_repository c{"a.txt"} c{"first"} w in
  let later := set_heap (Some zero_block :: (Some <$> [zero_block]) ++ []) (snd r) in
  Forall storable (version_list empty_repository) ∧
  storable_name c{"a.txt"} ∧ plain c{"first"} ∧
  (length (base_path empty_repository) < MAX_PATH_LEN)%nat ∧
  metadata_usable empty_repository w ∧
  metadata_path empty_repository ≠ version_dir (cwd w) c{"a.txt"} ∧
  0 < fst (fst r) ∧
  length [zero_block] = length (version_list (snd (fst r))) ∧
  ∃ loaded_repo,
    load_repository (base_path empty_repository) later
    = (Some loaded_repo, set_heap [] (snd r)) ∧
    version_list loaded_repo = reverse (loaded <$> version_list (snd (fst r))) ∧
    total_versions loaded_repo = total_versions (snd (fst r)) ∧
    get_latest_version loaded_repo c{"a.txt"} = fst (fst r) ∧
    is_Some (find_file_version loaded_repo c{"a.txt"} (fst (fst r))).
Proof.
  intros w r later.
  assert (H1 : Forall storable (version_list empty_repository))
    by decide_by_compute.
  assert (H2 : storable_name c{"a.txt"}) by decide_by_compute.
  assert (H3 : plain c{"first"}) by decide_by_compute.
  assert (H4 : (length (base_path empty_repository) < MAX_PATH_LEN)%nat)
    by (vm_compute; lia).
  assert (H5 : metadata_usable empty_repository w) by decide_by_compute.
  assert (H6 : metadata_path empty_repository ≠ version_dir (cwd w) c{"a.txt"})
    by decide_by_compute.
  assert (H7 : checkin_file empty_repository c{"a.txt"} c{"first"} w
               = ((fst (fst r), snd (fst r)), snd r))
    by (vm_compute; reflexivity).
  assert (H8 : 0 < fst (fst r)) by (vm_compute; reflexivity).
  assert (H9 : length [zero_block] = length (version_list (snd (fst r))))
    by (vm_compute; reflexivity).
  do 6 (split; [assumption|]). do 2 (split; [assumption|]).
  exact (checkin_file_durable empty_repository c{"a.txt"} c{"first"} w _ _ _
           [zero_block] zero_block [] H1 H2 H3 H4 H5 H6 H7 H8 H9).
Defined.

(** ** Rollback, in the words of the specification *)





